(** * AutoQuizVideo: timeline synthesis, playback and export

    A shallow embedding of the quiz video player ([VideoPlayer]), of
    the difficulty-count helper of the application shell ([getCounts])
    and of the retry, history and ordering logic of the generation
    service.

    JavaScript numbers are modelled as exact rationals ([Q]); equalities
    between computed times are therefore stated with [==] ([Qeq]). The
    arithmetic whose rounding decides a statement (the sums of the
    timeline, the shares of [getCounts]) is embedded a second time on
    IEEE 754 binary64 numbers, in [Module Double].
    Maps held in React refs ([Map<number, AudioBuffer>],
    [Map<string, HTMLImageElement>]) are [gmap]s. *)

From Stdlib Require Import QArith Qround Qabs Qminmax ZArith Lia Lqa Bool.
From Stdlib Require Import Ascii.
From Stdlib Require Import Floats.
From stdpp Require Import gmap strings list.

Open Scope Q_scope.

(* ================================================================== *)
(** ** JavaScript numbers                                              *)
(* ================================================================== *)

Module JS.

(** [a >= b], [a < b], [a <= b], [a > b] on numbers. *)
Definition geb (a b : Q) : bool := Qle_bool b a.
Definition ltb (a b : Q) : bool := negb (Qle_bool b a).
Definition leb (a b : Q) : bool := Qle_bool a b.
Definition gtb (a b : Q) : bool := negb (Qle_bool a b).
(** [a === b] on numbers. *)
Definition eqb (a b : Q) : bool := Qeq_bool a b.

(** [Math.max(a, b)] and [Math.min(a, b)]. *)
Definition Math_max (a b : Q) : Q := if Qle_bool a b then b else a.
Definition Math_min (a b : Q) : Q := if Qle_bool a b then a else b.

(** [Math.round(x)]: the nearest integer, halves rounded up. *)
Definition Math_round (x : Q) : Z := Qfloor (x + (1 # 2)).

(** [Math.ceil(x)]. *)
Definition Math_ceil (x : Q) : Z := Qceiling x.

(** [a % d] on numbers, for [d] different from zero: the remainder
    has the sign of [a]. *)
Definition trunc (x : Q) : Z := Z.quot (Qnum x) (Zpos (Qden x)).
Definition rem (a d : Q) : Q := a - d * inject_Z (trunc (a / d)).

End JS.

(* ================================================================== *)
(** ** Audio buffers and PCM decoding                                  *)
(* ================================================================== *)

(** An [ArrayBuffer] is its bytes. *)
Definition ArrayBuffer := list Byte.byte.

Definition byte_val (b : Byte.byte) : Z := Z.of_N (Byte.to_N b).

(** [new Int16Array(arrayBuffer)]: throws a [RangeError] ([None]) when
    the byte length is odd; otherwise the little-endian, two's
    complement 16-bit elements. *)
Fixpoint Int16Array (bs : ArrayBuffer) : option (list Z) :=
  match bs with
  | [] => Some []
  | [_] => None
  | lo :: hi :: rest =>
      match Int16Array rest with
      | None => None
      | Some l =>
          let u := (byte_val lo + 256 * byte_val hi)%Z in
          Some ((if (u <? 32768)%Z then u else u - 65536)%Z :: l)
      end
  end.

(** A single-channel [AudioBuffer]. *)
Record AudioBuffer := mkAudioBuffer {
  channel : list Q;
  sampleRate : Q
}.

(** [buffer.duration], in seconds. *)
Definition duration (b : AudioBuffer) : Q :=
  inject_Z (Z.of_nat (length (channel b))) / sampleRate b.

(** [ctx.createBuffer(1, length, rate)] of the Web Audio API: a buffer
    of [length] zero samples; a zero length raises [NotSupportedError]
    ([None]). *)
Definition createBuffer (len : nat) (rate : Q) : option AudioBuffer :=
  match len with
  | O => None
  | _ => Some (mkAudioBuffer (repeat 0 len) rate)
  end.

(** [decodePCM]: the [try] block either yields the filled buffer or, on
    any exception, [null]. The loop [channel[j] = pcmData[j] / 32768.0]
    overwrites every sample of the fresh buffer. *)
Definition decodePCM (arrayBuffer : ArrayBuffer) : option AudioBuffer :=
  match Int16Array arrayBuffer with
  | None => None
  | Some pcmData =>
      match createBuffer (length pcmData) 24000 with
      | None => None
      | Some buffer =>
          Some (mkAudioBuffer
                  (map (fun s => inject_Z s / 32768) pcmData)
                  (sampleRate buffer))
      end
  end.

(* ================================================================== *)
(** ** Slides and slide timings                                        *)
(* ================================================================== *)

Record QuizSlide := mkQuizSlide {
  question : string;
  options : list string;
  correctAnswerIndex : nat;
  difficulty : option string;
  id : string;
  backgroundImage : option string;
  questionAudio : option ArrayBuffer;
  answerAudio : option ArrayBuffer
}.

Record SlideTiming := mkSlideTiming {
  start : Q;
  questionAudioDuration : Q;
  thinkingStart : Q;
  revealStart : Q;
  answerAudioDuration : Q;
  end_ : Q
}.

Definition TRANSITION_DURATION : Q := 500.

(* ================================================================== *)
(** ** Component props, refs and state written by the preload          *)
(* ================================================================== *)

Inductive Layout := Cinematic | Broadcast.

(** A [File] chosen by the user; its content is only observed through
    the settlement of [arrayBuffer()] and [decodeAudioData]. *)
Record File := mkFile { file_name : string }.

(** A decoded [HTMLImageElement]. *)
Record Image := mkImage { src : string }.

Record Props := mkProps {
  slides : list QuizSlide;
  bgMusicFile : option File;
  countdownSfxFile : option File;
  timerDuration : Q;
  overlayOpacity : Q;
  enableSfx : bool;
  layoutMode : Layout
}.

(** The refs and the React state that [prepareAssets] writes.
    [audioContextRef], [masterGainRef], [sfxGainRef] and [destRef] are
    assigned together at the start of [prepareAssets]; [audioGraph]
    holds the number of the context they belong to, and
    [audioContextClosed] whether [close()] was called on it. *)
Record Assets := mkAssets {
  isReady : bool;
  timings : list SlideTiming;
  totalDuration : Q;
  imagesRef : gmap string Image;
  questionBuffersRef : gmap nat AudioBuffer;
  answerBuffersRef : gmap nat AudioBuffer;
  bgMusicBufferRef : option AudioBuffer;
  countdownSfxBufferRef : option AudioBuffer;
  audioGraph : option nat;
  audioContextClosed : bool
}.

Definition initial_assets : Assets :=
  mkAssets false [] 0 ∅ ∅ ∅ None None None false.

Definition set_isReady (v : bool) (a : Assets) : Assets :=
  mkAssets v (timings a) (totalDuration a) (imagesRef a)
    (questionBuffersRef a) (answerBuffersRef a) (bgMusicBufferRef a)
    (countdownSfxBufferRef a) (audioGraph a) (audioContextClosed a).
Definition set_timings (v : list SlideTiming) (a : Assets) : Assets :=
  mkAssets (isReady a) v (totalDuration a) (imagesRef a)
    (questionBuffersRef a) (answerBuffersRef a) (bgMusicBufferRef a)
    (countdownSfxBufferRef a) (audioGraph a) (audioContextClosed a).
Definition set_totalDuration (v : Q) (a : Assets) : Assets :=
  mkAssets (isReady a) (timings a) v (imagesRef a)
    (questionBuffersRef a) (answerBuffersRef a) (bgMusicBufferRef a)
    (countdownSfxBufferRef a) (audioGraph a) (audioContextClosed a).
Definition set_imagesRef (v : gmap string Image) (a : Assets) : Assets :=
  mkAssets (isReady a) (timings a) (totalDuration a) v
    (questionBuffersRef a) (answerBuffersRef a) (bgMusicBufferRef a)
    (countdownSfxBufferRef a) (audioGraph a) (audioContextClosed a).
Definition set_questionBuffersRef (v : gmap nat AudioBuffer) (a : Assets)
  : Assets :=
  mkAssets (isReady a) (timings a) (totalDuration a) (imagesRef a)
    v (answerBuffersRef a) (bgMusicBufferRef a)
    (countdownSfxBufferRef a) (audioGraph a) (audioContextClosed a).
Definition set_answerBuffersRef (v : gmap nat AudioBuffer) (a : Assets)
  : Assets :=
  mkAssets (isReady a) (timings a) (totalDuration a) (imagesRef a)
    (questionBuffersRef a) v (bgMusicBufferRef a)
    (countdownSfxBufferRef a) (audioGraph a) (audioContextClosed a).
Definition set_bgMusicBufferRef (v : option AudioBuffer) (a : Assets)
  : Assets :=
  mkAssets (isReady a) (timings a) (totalDuration a) (imagesRef a)
    (questionBuffersRef a) (answerBuffersRef a) v
    (countdownSfxBufferRef a) (audioGraph a) (audioContextClosed a).
Definition set_countdownSfxBufferRef (v : option AudioBuffer) (a : Assets)
  : Assets :=
  mkAssets (isReady a) (timings a) (totalDuration a) (imagesRef a)
    (questionBuffersRef a) (answerBuffersRef a) (bgMusicBufferRef a)
    v (audioGraph a) (audioContextClosed a).
Definition set_audioGraph (v : option nat) (closed : bool) (a : Assets)
  : Assets :=
  mkAssets (isReady a) (timings a) (totalDuration a) (imagesRef a)
    (questionBuffersRef a) (answerBuffersRef a) (bgMusicBufferRef a)
    (countdownSfxBufferRef a) v closed.

(* ================================================================== *)
(** ** Step 4 of [prepareAssets]: voiceovers and timings               *)
(* ================================================================== *)

(** [if (slide.questionAudio) { const buffer = decodePCM(...); if
    (buffer) ... }]: an [ArrayBuffer] object is truthy whatever its
    length. *)
Definition decodeVoice (audio : option ArrayBuffer) : option AudioBuffer :=
  match audio with
  | Some arrayBuffer => decodePCM arrayBuffer
  | None => None
  end.

(** One iteration of the [for] loop, after its [cancelled] check. The
    sums are exact here; [Double.voiceover_body] below has them rounded
    as the code's numbers are. *)
Definition voiceover_body (timerDuration : Q) (i : nat) (slide : QuizSlide)
  (newTimings : list SlideTiming) (accumulatedTime : Q) (a : Assets)
  : list SlideTiming * Q * Assets :=
  let qBuf := decodeVoice (questionAudio slide) in
  let a1 := match qBuf with
            | Some buffer =>
                set_questionBuffersRef (<[i:=buffer]> (questionBuffersRef a)) a
            | None => a
            end in
  let qDur := match qBuf with
              | Some buffer => duration buffer * 1000
              | None => 3000
              end in
  let aBuf := decodeVoice (answerAudio slide) in
  let a2 := match aBuf with
            | Some buffer =>
                set_answerBuffersRef (<[i:=buffer]> (answerBuffersRef a1)) a1
            | None => a1
            end in
  let aDur := match aBuf with
              | Some buffer => duration buffer * 1000
              | None => 2000
              end in
  let thinkingDurMs := timerDuration * 1000 in
  let revealDurMs := JS.Math_max 2000 (aDur + 1000) in
  let timing :=
    mkSlideTiming
      accumulatedTime
      qDur
      (accumulatedTime + qDur + 500)
      (accumulatedTime + qDur + 500 + thinkingDurMs)
      aDur
      (accumulatedTime + qDur + 500 + thinkingDurMs + revealDurMs) in
  (newTimings ++ [timing],
   accumulatedTime + (qDur + 500 + thinkingDurMs + revealDurMs),
   a2).

(** The loop [for (let i = 0; i < slides.length; i++)] from index [i] on,
    [rest] being [slides.slice(i)]. [None] in the first component is the
    early [return] taken when [cancelled] holds. *)
Fixpoint voiceover_loop (timerDuration : Q) (cancelled : bool) (i : nat)
  (rest : list QuizSlide) (newTimings : list SlideTiming)
  (accumulatedTime : Q) (a : Assets)
  : option (list SlideTiming * Q) * Assets :=
  match rest with
  | [] => (Some (newTimings, accumulatedTime), a)
  | slide :: rest' =>
      if cancelled then (None, a)
      else
        let '(nt, acc, a') :=
          voiceover_body timerDuration i slide newTimings accumulatedTime a in
        voiceover_loop timerDuration cancelled (S i) rest' nt acc a'
  end.

(** Step 4 and the final commit [if (!cancelled) { setTimings(...);
    setTotalDuration(...); setIsReady(true) }]. *)
Definition stage_voice (p : Props) (cancelled : bool) (a : Assets) : Assets :=
  match voiceover_loop (timerDuration p) cancelled 0 (slides p) [] 0 a with
  | (None, a') => a'
  | (Some (newTimings, accumulatedTime), a') =>
      if cancelled then a'
      else set_isReady true
             (set_totalDuration accumulatedTime (set_timings newTimings a'))
  end.

(** The timeline a completed, uncancelled preload commits: the pair of
    [timings] and [totalDuration]. *)
Definition buildTimeline (sl : list QuizSlide) (timer : Q)
  : list SlideTiming * Q :=
  let a := stage_voice (mkProps sl None None timer 0 false Cinematic)
             false initial_assets in
  (timings a, totalDuration a).

(* ================================================================== *)
(** ** The asynchronous preload [prepareAssets]                        *)
(* ================================================================== *)

(** The preload suspends at its [await]s; between two suspensions it
    runs to completion. A preload in flight is the point where it is
    suspended, together with the [cancelled] flag of its effect
    closure. *)
Inductive Await :=
| AwaitMusicBytes            (* await bgMusicFile.arrayBuffer() *)
| AwaitMusicDecode           (* await ctx.decodeAudioData(arrayBuffer) *)
| AwaitSfxBytes              (* await countdownSfxFile.arrayBuffer() *)
| AwaitSfxDecode             (* await ctx.decodeAudioData(arrayBuffer) *)
| AwaitImages (pending : gset nat)  (* await Promise.all(imagePromises) *)
| Finished.

Record Preload := mkPreload {
  awaiting : Await;
  cancelled : bool
}.

(** What the host delivers to a suspended preload. [None] is a rejected
    promise. *)
Inductive Event :=
| ArrayBufferSettled (r : option ArrayBuffer)
| DecodeSettled (r : option AudioBuffer)
| ImageLoaded (k : nat) (img : Image)   (* img.onload of slide k *)
| ImageFailed (k : nat)                 (* img.onerror of slide k *)
| Cleanup.                              (* the effect's cleanup *)

(** [!slide.backgroundImage]: absent or the empty string. *)
Definition has_backgroundImage (s : QuizSlide) : bool :=
  match backgroundImage s with
  | None => false
  | Some EmptyString => false
  | Some _ => true
  end.

(** Indices of the slides whose promise waits for [onload]/[onerror]. *)
Fixpoint image_promises (i : nat) (sl : list QuizSlide) : gset nat :=
  match sl with
  | [] => ∅
  | s :: rest =>
      if has_backgroundImage s
      then {[ i ]} ∪ image_promises (S i) rest
      else image_promises (S i) rest
  end.

(** Step 3: start the image loads, then wait for all of them. *)
Definition stage_images (p : Props) (c : bool) (a : Assets)
  : Preload * Assets :=
  let pending := image_promises 0 (slides p) in
  if decide (pending = ∅)
  then (mkPreload Finished c, stage_voice p c a)
  else (mkPreload (AwaitImages pending) c, a).

(** Step 2: the countdown sound. *)
Definition stage_sfx (p : Props) (c : bool) (a : Assets)
  : Preload * Assets :=
  match countdownSfxFile p with
  | Some _ => (mkPreload AwaitSfxBytes c, a)
  | None => stage_images p c (set_countdownSfxBufferRef None a)
  end.

(** Step 1: the background music. *)
Definition stage_music (p : Props) (c : bool) (a : Assets)
  : Preload * Assets :=
  match bgMusicFile p with
  | Some _ => (mkPreload AwaitMusicBytes c, a)
  | None => stage_sfx p c a
  end.

(** The effect body: [let cancelled = false; prepareAssets()], up to its
    first suspension. [ctx] numbers the fresh [AudioContext]. *)
Definition prepareAssets (p : Props) (ctx : nat) (a : Assets)
  : Preload * Assets :=
  stage_music p false (set_audioGraph (Some ctx) false (set_isReady false a)).

(** One event delivered to the preload of props [p]. An event the
    preload is not waiting for leaves everything as it is. *)
Definition preload_step (p : Props) (ev : Event) (t : Preload) (a : Assets)
  : Preload * Assets :=
  let c := cancelled t in
  match ev, awaiting t with
  | Cleanup, w =>
      (mkPreload w true,
       match audioGraph a with
       | Some g => set_audioGraph (Some g) true a
       | None => a
       end)
  | ArrayBufferSettled (Some _), AwaitMusicBytes =>
      (mkPreload AwaitMusicDecode c, a)
  | ArrayBufferSettled None, AwaitMusicBytes => stage_sfx p c a
  | DecodeSettled (Some buffer), AwaitMusicDecode =>
      stage_sfx p c (set_bgMusicBufferRef (Some buffer) a)
  | DecodeSettled None, AwaitMusicDecode => stage_sfx p c a
  | ArrayBufferSettled (Some _), AwaitSfxBytes =>
      (mkPreload AwaitSfxDecode c, a)
  | ArrayBufferSettled None, AwaitSfxBytes => stage_images p c a
  | DecodeSettled (Some buffer), AwaitSfxDecode =>
      stage_images p c (set_countdownSfxBufferRef (Some buffer) a)
  | DecodeSettled None, AwaitSfxDecode => stage_images p c a
  | ImageLoaded k img, AwaitImages pending =>
      if decide (k ∈ pending) then
        let a' := match slides p !! k with
                  | Some slide =>
                      if c then a
                      else set_imagesRef (<[id slide := img]> (imagesRef a)) a
                  | None => a
                  end in
        let pending' := pending ∖ {[ k ]} in
        if decide (pending' = ∅)
        then (mkPreload Finished c, stage_voice p c a')
        else (mkPreload (AwaitImages pending') c, a')
      else (t, a)
  | ImageFailed k, AwaitImages pending =>
      if decide (k ∈ pending) then
        let pending' := pending ∖ {[ k ]} in
        if decide (pending' = ∅)
        then (mkPreload Finished c, stage_voice p c a)
        else (mkPreload (AwaitImages pending') c, a)
      else (t, a)
  | _, _ => (t, a)
  end.

Fixpoint preload_run (p : Props) (evs : list Event) (t : Preload) (a : Assets)
  : Preload * Assets :=
  match evs with
  | [] => (t, a)
  | ev :: rest =>
      let '(t', a') := preload_step p ev t a in
      preload_run p rest t' a'
  end.

(* ================================================================== *)
(** ** Playback state and audio graph                                  *)
(* ================================================================== *)

Inductive TrackType := question_track | answer_track.
Inductive TickType := tick_cue | end_cue.

Inductive SourceKind :=
| VoiceSource (slideIndex : nat) (type : TrackType)
| MusicSource
| SfxSource.

(** An [AudioBufferSourceNode] after [start()]: [sounding] until
    [stop()] is called on it or, unless it loops, its buffer ends. *)
Record SourceNode := mkSourceNode {
  kind : SourceKind;
  loop : bool;
  sounding : bool
}.

Inductive RecorderState := inactive | recording.

(** Calls and effects a run leaves behind, oldest first. *)
Inductive Cmd :=
| CallPlayVoiceTrack (slideIndex : nat) (type : TrackType) (offsetMs : Q)
| SourceStop (node : nat)
| SourceStart (node : nat) (k : SourceKind) (offsetSec : Q)
| CallPlayTickSound (type : TickType)
| ClearCanvas
| DrawLayout (mode : Layout) (slideIndex : nat) (localTime alpha : Q)
| DrawFinished
| DrawProgressBar (fraction : Q)
| RecorderStart
| RecorderStop
| Download (name : string).

Record Player := mkPlayer {
  isPlaying : bool;
  currentTime : Q;
  isRecording : bool;
  isMuted : bool;
  masterGainValue : Q;
  currentAudioTrackRef : option (nat * TrackType);
  lastTickTimeRef : Z;
  voiceNodeRef : option nat;
  bgMusicNodeRef : option nat;
  sources : list SourceNode;
  previousTimeRef : Q;
  mediaRecorderRef : option RecorderState;
  pendingTimeouts : list (bool * Q);
  log : list Cmd
}.

Definition set_isPlaying (v : bool) (st : Player) : Player :=
  mkPlayer v (currentTime st) (isRecording st) (isMuted st)
    (masterGainValue st) (currentAudioTrackRef st) (lastTickTimeRef st)
    (voiceNodeRef st) (bgMusicNodeRef st) (sources st)
    (previousTimeRef st) (mediaRecorderRef st) (pendingTimeouts st)
    (log st).
Definition set_currentTime (v : Q) (st : Player) : Player :=
  mkPlayer (isPlaying st) v (isRecording st) (isMuted st)
    (masterGainValue st) (currentAudioTrackRef st) (lastTickTimeRef st)
    (voiceNodeRef st) (bgMusicNodeRef st) (sources st)
    (previousTimeRef st) (mediaRecorderRef st) (pendingTimeouts st)
    (log st).
Definition set_isRecording (v : bool) (st : Player) : Player :=
  mkPlayer (isPlaying st) (currentTime st) v (isMuted st)
    (masterGainValue st) (currentAudioTrackRef st) (lastTickTimeRef st)
    (voiceNodeRef st) (bgMusicNodeRef st) (sources st)
    (previousTimeRef st) (mediaRecorderRef st) (pendingTimeouts st)
    (log st).
Definition set_isMuted (v : bool) (st : Player) : Player :=
  mkPlayer (isPlaying st) (currentTime st) (isRecording st) v
    (masterGainValue st) (currentAudioTrackRef st) (lastTickTimeRef st)
    (voiceNodeRef st) (bgMusicNodeRef st) (sources st)
    (previousTimeRef st) (mediaRecorderRef st) (pendingTimeouts st)
    (log st).
Definition set_masterGainValue (v : Q) (st : Player) : Player :=
  mkPlayer (isPlaying st) (currentTime st) (isRecording st) (isMuted st) v
    (currentAudioTrackRef st) (lastTickTimeRef st) (voiceNodeRef st)
    (bgMusicNodeRef st) (sources st) (previousTimeRef st)
    (mediaRecorderRef st) (pendingTimeouts st) (log st).
Definition set_currentAudioTrackRef (v : option (nat * TrackType))
  (st : Player) : Player :=
  mkPlayer (isPlaying st) (currentTime st) (isRecording st) (isMuted st)
    (masterGainValue st) v (lastTickTimeRef st) (voiceNodeRef st)
    (bgMusicNodeRef st) (sources st) (previousTimeRef st)
    (mediaRecorderRef st) (pendingTimeouts st) (log st).
Definition set_lastTickTimeRef (v : Z) (st : Player) : Player :=
  mkPlayer (isPlaying st) (currentTime st) (isRecording st) (isMuted st)
    (masterGainValue st) (currentAudioTrackRef st) v (voiceNodeRef st)
    (bgMusicNodeRef st) (sources st) (previousTimeRef st)
    (mediaRecorderRef st) (pendingTimeouts st) (log st).
Definition set_voiceNodeRef (v : option nat) (st : Player) : Player :=
  mkPlayer (isPlaying st) (currentTime st) (isRecording st) (isMuted st)
    (masterGainValue st) (currentAudioTrackRef st) (lastTickTimeRef st) v
    (bgMusicNodeRef st) (sources st) (previousTimeRef st)
    (mediaRecorderRef st) (pendingTimeouts st) (log st).
Definition set_bgMusicNodeRef (v : option nat) (st : Player) : Player :=
  mkPlayer (isPlaying st) (currentTime st) (isRecording st) (isMuted st)
    (masterGainValue st) (currentAudioTrackRef st) (lastTickTimeRef st)
    (voiceNodeRef st) v (sources st) (previousTimeRef st)
    (mediaRecorderRef st) (pendingTimeouts st) (log st).
Definition set_sources (v : list SourceNode) (st : Player) : Player :=
  mkPlayer (isPlaying st) (currentTime st) (isRecording st) (isMuted st)
    (masterGainValue st) (currentAudioTrackRef st) (lastTickTimeRef st)
    (voiceNodeRef st) (bgMusicNodeRef st) v (previousTimeRef st)
    (mediaRecorderRef st) (pendingTimeouts st) (log st).
Definition set_previousTimeRef (v : Q) (st : Player) : Player :=
  mkPlayer (isPlaying st) (currentTime st) (isRecording st) (isMuted st)
    (masterGainValue st) (currentAudioTrackRef st) (lastTickTimeRef st)
    (voiceNodeRef st) (bgMusicNodeRef st) (sources st) v
    (mediaRecorderRef st) (pendingTimeouts st) (log st).
Definition set_mediaRecorderRef (v : option RecorderState) (st : Player)
  : Player :=
  mkPlayer (isPlaying st) (currentTime st) (isRecording st) (isMuted st)
    (masterGainValue st) (currentAudioTrackRef st) (lastTickTimeRef st)
    (voiceNodeRef st) (bgMusicNodeRef st) (sources st)
    (previousTimeRef st) v (pendingTimeouts st) (log st).
Definition set_pendingTimeouts (v : list (bool * Q)) (st : Player) : Player :=
  mkPlayer (isPlaying st) (currentTime st) (isRecording st) (isMuted st)
    (masterGainValue st) (currentAudioTrackRef st) (lastTickTimeRef st)
    (voiceNodeRef st) (bgMusicNodeRef st) (sources st)
    (previousTimeRef st) (mediaRecorderRef st) v (log st).
Definition set_log (v : list Cmd) (st : Player) : Player :=
  mkPlayer (isPlaying st) (currentTime st) (isRecording st) (isMuted st)
    (masterGainValue st) (currentAudioTrackRef st) (lastTickTimeRef st)
    (voiceNodeRef st) (bgMusicNodeRef st) (sources st)
    (previousTimeRef st) (mediaRecorderRef st) (pendingTimeouts st) v.

Definition initial_player : Player :=
  mkPlayer false 0 false false 1 None (-1)%Z None None [] 0 None [] [].

Definition emit (c : Cmd) (st : Player) : Player :=
  set_log (log st ++ [c]) st.

(** [try { node.stop() } catch (e) {}] on source number [n]. *)
Definition stop_source (n : nat) (st : Player) : Player :=
  emit (SourceStop n)
    (set_sources
       (alter (fun s => mkSourceNode (kind s) (loop s) false) n (sources st))
       st).

(** [createBufferSource()] ... [source.start(0, offset)]: the new source
    takes the next number. *)
Definition start_source (k : SourceKind) (lp : bool) (offsetSec : Q)
  (st : Player) : nat * Player :=
  let n := length (sources st) in
  (n, emit (SourceStart n k offsetSec)
        (set_sources (sources st ++ [mkSourceNode k lp true]) st)).

Definition startBgMusic (a : Assets) (startTimeOffset : Q) (st : Player)
  : Player :=
  match audioGraph a, bgMusicBufferRef a with
  | Some _, Some buffer =>
      let st1 := match bgMusicNodeRef st with
                 | Some n => stop_source n st
                 | None => st
                 end in
      let offset := JS.rem startTimeOffset (duration buffer) in
      let '(n, st2) := start_source MusicSource true offset st1 in
      set_bgMusicNodeRef (Some n) st2
  | _, _ => st
  end.

Definition playVoiceTrack (a : Assets) (slideIndex : nat) (type : TrackType)
  (offsetMs : Q) (st0 : Player) : Player :=
  let st := emit (CallPlayVoiceTrack slideIndex type offsetMs) st0 in
  match audioGraph a with
  | None => st
  | Some _ =>
      let bufferMap := match type with
                       | question_track => questionBuffersRef a
                       | answer_track => answerBuffersRef a
                       end in
      match bufferMap !! slideIndex with
      | None => st
      | Some buffer =>
          let st1 := match voiceNodeRef st with
                     | Some n => stop_source n st
                     | None => st
                     end in
          if JS.ltb (offsetMs / 1000) (duration buffer) then
            let '(n, st2) :=
              start_source (VoiceSource slideIndex type) false
                (offsetMs / 1000) st1 in
            set_currentAudioTrackRef (Some (slideIndex, type))
              (set_voiceNodeRef (Some n) st2)
          else st1
      end
  end.

Definition playTickSound (p : Props) (a : Assets) (type : TickType)
  (st0 : Player) : Player :=
  let st := emit (CallPlayTickSound type) st0 in
  match audioGraph a with
  | None => st
  | Some _ =>
      if negb (enableSfx p) then st
      else
        match type, countdownSfxBufferRef a with
        | tick_cue, Some _ => snd (start_source SfxSource false 0 st)
        | _, _ => st
        end
  end.

(* ================================================================== *)
(** ** Rendering                                                       *)
(* ================================================================== *)

(** [drawSlideState]; [playing] is the [isPlaying] of the closure. The
    two layout painters are recorded as one [DrawLayout] command. *)
Definition drawSlideState (p : Props) (a : Assets) (playing : bool)
  (slideIndex : nat) (localTime alpha : Q) (st : Player) : Player :=
  match slides p !! slideIndex, timings a !! slideIndex with
  | Some slide, Some timing =>
      let isThinking :=
        JS.geb localTime (thinkingStart timing - start timing)
        && JS.ltb localTime (revealStart timing - start timing) in
      let isRevealed :=
        JS.geb localTime (revealStart timing - start timing) in
      let thinkingElapsed :=
        localTime - (thinkingStart timing - start timing) in
      let timeLeft :=
        Z.max 0 (JS.Math_ceil (timerDuration p - thinkingElapsed / 1000)) in
      let st1 :=
        if playing && isThinking
           && JS.leb (inject_Z timeLeft) (timerDuration p)
           && (0 <? timeLeft)%Z
           && negb (timeLeft =? lastTickTimeRef st)%Z
        then set_lastTickTimeRef timeLeft (playTickSound p a tick_cue st)
        else st in
      let st2 :=
        if isRevealed && negb (lastTickTimeRef st1 =? -99)%Z
        then set_lastTickTimeRef (-99)%Z
               (if playing then playTickSound p a end_cue st1 else st1)
        else st1 in
      emit (DrawLayout (layoutMode p) slideIndex localTime alpha) st2
  | _, _ => st
  end.

(** The search loop shared by [renderFrame] and [animate]: the first
    index [i] with [start <= time < end]. *)
Fixpoint findActive (i : nat) (ts : list SlideTiming) (time : Q)
  : option (nat * SlideTiming) :=
  match ts with
  | [] => None
  | t :: rest =>
      if JS.geb time (start t) && JS.ltb time (end_ t)
      then Some (i, t)
      else findActive (S i) rest time
  end.

(** [renderFrame(time)]; the canvas is mounted whenever the player is
    shown. *)
Definition renderFrame (p : Props) (a : Assets) (playing : bool) (time : Q)
  (st : Player) : Player :=
  match timings a with
  | [] => st
  | _ =>
      let st0 := emit ClearCanvas st in
      match findActive 0 (timings a) time with
      | None =>
          if JS.geb time (totalDuration a) then emit DrawFinished st0
          else
            match layoutMode p with
            | Cinematic => emit (DrawProgressBar (time / totalDuration a)) st0
            | Broadcast => st0
            end
      | Some (activeSlideIndex, t) =>
          let slideStart := start t in
          let localTime := time - slideStart in
          let st1 :=
            if JS.ltb localTime TRANSITION_DURATION
               && (0 <? activeSlideIndex)%nat
            then
              let prevIndex := (activeSlideIndex - 1)%nat in
              match timings a !! prevIndex with
              | Some prevTiming =>
                  let prevLocalTime := time - start prevTiming in
                  let st' :=
                    drawSlideState p a playing prevIndex prevLocalTime 1 st0 in
                  let alpha := localTime / TRANSITION_DURATION in
                  drawSlideState p a playing activeSlideIndex localTime alpha
                    st'
              | None => st0
              end
            else drawSlideState p a playing activeSlideIndex localTime 1 st0 in
          match layoutMode p with
          | Cinematic => emit (DrawProgressBar (time / totalDuration a)) st1
          | Broadcast => st1
          end
      end
  end.

(* ================================================================== *)
(** ** The animation loop and the controls                             *)
(* ================================================================== *)

(** [currentAudioTrackRef.current?.slideIndex !== i ||
    currentAudioTrackRef.current?.type !== type]. *)
Definition track_differs (cur : option (nat * TrackType)) (i : nat)
  (type : TrackType) : bool :=
  match cur with
  | None => true
  | Some (j, ty) =>
      negb (j =? i)%nat
      || match ty, type with
         | question_track, question_track => false
         | answer_track, answer_track => false
         | _, _ => true
         end
  end.

(** The "Audio Sync Logic" of the [setCurrentTime] updater. *)
Definition audioSync (a : Assets) (next : Q) (st : Player) : Player :=
  match findActive 0 (timings a) next with
  | None => st
  | Some (activeSlideIdx, slideTiming) =>
      let isReading := JS.ltb next (thinkingStart slideTiming) in
      let isRevealing := JS.geb next (revealStart slideTiming) in
      if isReading then
        if track_differs (currentAudioTrackRef st) activeSlideIdx question_track
        then playVoiceTrack a activeSlideIdx question_track
               (next - start slideTiming)
               (set_lastTickTimeRef (-1)%Z st)
        else st
      else if isRevealing then
        if track_differs (currentAudioTrackRef st) activeSlideIdx answer_track
        then playVoiceTrack a activeSlideIdx answer_track
               (next - revealStart slideTiming) st
        else st
      else st
  end.

(** [animate(timestamp)], one [requestAnimationFrame] callback.
    [startTimeRef] is written here and read nowhere; it is left out. *)
Definition animate (a : Assets) (timestamp : Q) (st : Player) : Player :=
  let st1 :=
    if isPlaying st then
      let delta := timestamp - previousTimeRef st in
      let next := currentTime st + delta in
      if JS.geb next (totalDuration a) then
        let st' := set_isPlaying false st in
        let st'' := match bgMusicNodeRef st' with
                    | Some n => stop_source n st'
                    | None => st'
                    end in
        set_currentTime (totalDuration a) st''
      else set_currentTime next (audioSync a next st)
    else st in
  set_previousTimeRef timestamp st1.

(** [togglePlay]; [playing] and [time] are the [isPlaying] and
    [currentTime] of the closure the handler was created in, [now] is
    [performance.now()]. Resuming a suspended audio context changes
    nothing of the state kept here. *)
Definition togglePlay (a : Assets) (playing : bool) (time : Q) (now : Q)
  (st : Player) : Player :=
  if negb playing then
    let st1 := set_previousTimeRef now (set_isPlaying true st) in
    set_currentAudioTrackRef None (startBgMusic a (time / 1000) st1)
  else
    let st1 := set_isPlaying false st in
    let st2 := match bgMusicNodeRef st1 with
               | Some n => stop_source n st1
               | None => st1
               end in
    let st3 := match voiceNodeRef st2 with
               | Some n => stop_source n st2
               | None => st2
               end in
    set_currentAudioTrackRef None st3.

(** [reset]; [playing] is the closure's [isPlaying], seen by
    [renderFrame]. *)
Definition reset (p : Props) (a : Assets) (playing : bool) (st : Player)
  : Player :=
  let st1 :=
    set_lastTickTimeRef (-1)%Z
      (set_currentAudioTrackRef None
         (set_currentTime 0 (set_isPlaying false st))) in
  let st2 := match bgMusicNodeRef st1 with
             | Some n => stop_source n st1
             | None => st1
             end in
  let st3 := match voiceNodeRef st2 with
             | Some n => stop_source n st2
             | None => st2
             end in
  renderFrame p a playing 0 st3.

(** [startRecording]: [destRef] is set with the audio graph. The
    deferred [togglePlay] keeps the closure it was scheduled in. *)
Definition startRecording (p : Props) (a : Assets) (st : Player) : Player :=
  match audioGraph a with
  | None => st
  | Some _ =>
      let st1 :=
        set_isRecording true
          (emit RecorderStart (set_mediaRecorderRef (Some recording) st)) in
      let st2 := reset p a (isPlaying st) st1 in
      set_pendingTimeouts
        (pendingTimeouts st2 ++ [(isPlaying st, currentTime st)]) st2
  end.

(** [stopRecording]. *)
Definition stopRecording (a : Assets) (now : Q) (st : Player) : Player :=
  match mediaRecorderRef st with
  | Some recording =>
      let st1 :=
        emit RecorderStop (set_mediaRecorderRef (Some inactive) st) in
      togglePlay a (isPlaying st) (currentTime st) now st1
  | _ => st
  end.

(** [recorder.onstop]: the chunks become the downloaded file. *)
Definition recorder_onstop (st : Player) : Player :=
  set_isRecording false (emit (Download "quiz-video-export.webm") st).

(** [toggleMute]. *)
Definition toggleMute (a : Assets) (st : Player) : Player :=
  match audioGraph a with
  | None => st
  | Some _ =>
      set_isMuted (negb (isMuted st))
        (set_masterGainValue (if isMuted st then 1 else 0) st)
  end.

(** The [onChange] of the seek slider. *)
Definition seek (p : Props) (a : Assets) (t : Q) (st : Player) : Player :=
  let st1 := set_currentAudioTrackRef None (set_currentTime t st) in
  if negb (isPlaying st) then renderFrame p a (isPlaying st) t st1 else st1.

(** A source that does not loop falls silent when its buffer ends. *)
Definition source_ended (n : nat) (st : Player) : Player :=
  set_sources
    (alter (fun s => if loop s then s
                     else mkSourceNode (kind s) (loop s) false) n (sources st))
    st.

(** Everything that can happen to a mounted, ready player. *)
Inductive Action :=
| Animate (timestamp : Q)
| RenderEffect
| ClickTogglePlay (now : Q)
| ClickReset
| Seek (t : Q)
| ClickStartRecording
| TimeoutFires (now : Q)
| ClickStopRecording (now : Q)
| RecorderOnStop
| ClickToggleMute
| SourceEnded (node : nat).

Definition player_step (p : Props) (a : Assets) (act : Action) (st : Player)
  : Player :=
  match act with
  | Animate timestamp => animate a timestamp st
  | RenderEffect => renderFrame p a (isPlaying st) (currentTime st) st
  | ClickTogglePlay now => togglePlay a (isPlaying st) (currentTime st) now st
  | ClickReset => reset p a (isPlaying st) st
  | Seek t => seek p a t st
  | ClickStartRecording => startRecording p a st
  | TimeoutFires now =>
      match pendingTimeouts st with
      | [] => st
      | (playing, time) :: rest =>
          togglePlay a playing time now (set_pendingTimeouts rest st)
      end
  | ClickStopRecording now => stopRecording a now st
  | RecorderOnStop =>
      match mediaRecorderRef st with
      | Some inactive => if isRecording st then recorder_onstop st else st
      | _ => st
      end
  | ClickToggleMute => toggleMute a st
  | SourceEnded n => source_ended n st
  end.

Fixpoint player_run (p : Props) (a : Assets) (acts : list Action)
  (st : Player) : Player :=
  match acts with
  | [] => st
  | act :: rest => player_run p a rest (player_step p a act st)
  end.

(* ================================================================== *)
(** ** Difficulty counts of the application shell                      *)
(* ================================================================== *)

Record Counts := mkCounts { easy : Q; medium : Q; hard : Q }.

(** [getCounts], over the state [diffEasy], [diffMedium], [diffHard] and
    [questionCount]. The shares are exact here; [Double.getCounts] below
    has them rounded as the code's numbers are. *)
Definition getCounts (diffEasy diffMedium diffHard questionCount : Q)
  : Counts :=
  let totalPct := diffEasy + diffMedium + diffHard in
  if JS.eqb totalPct 0 then mkCounts 0 0 0
  else
    let e :=
      inject_Z (JS.Math_round ((diffEasy / totalPct) * questionCount)) in
    let m :=
      inject_Z (JS.Math_round ((diffMedium / totalPct) * questionCount)) in
    let h := questionCount - e - m in
    let h := if JS.ltb h 0 then 0 else h in
    mkCounts e m h.

(* ================================================================== *)
(** ** The arithmetic on double-precision numbers                      *)
(* ================================================================== *)

(** JavaScript numbers are IEEE 754 binary64 values: every [+], [-],
    [*] and [/] rounds its exact result to the nearest such value. The
    timeline of [prepareAssets] and the shares of [getCounts] are
    embedded here on the kernel's binary64 numbers, operation by
    operation and in the order the source evaluates them. *)
Module Double.

Local Open Scope float_scope.

(** The number an integer literal or an integer-valued property
    denotes (exact below [2^53]). *)
Definition of_Z (z : Z) : float :=
  SF2Prim (binary_normalize prec emax z 0 false).

Definition of_nat (n : nat) : float := of_Z (Z.of_nat n).

(** The number nearest to a ratio of integers. *)
Definition of_Q (q : Q) : float := of_Z (Qnum q) / of_Z (Z.pos (Qden q)).

(** [a === b], [a >= b] and [a < b] on numbers. *)
Definition same (a b : float) : Prop := PrimFloat.eqb a b = true.
Definition geb (a b : float) : bool := PrimFloat.leb b a.
Definition ltb (a b : float) : bool := PrimFloat.ltb a b.

(** [Math.max(a, b)]: [NaN] when either argument is. *)
Definition Math_max (a b : float) : float :=
  if is_nan a || is_nan b then nan
  else if PrimFloat.ltb a b then b else a.

(** [Math.round(x)]: the integer nearest to the exact value of [x],
    halves rounded up; [NaN], the infinities and the zeros are returned
    as they are, and a negative [x] that rounds to zero gives [-0]. *)
Definition Math_round (x : float) : float :=
  match Prim2SF x with
  | S754_finite s m e =>
      let v := (inject_Z (if s then Z.neg m else Z.pos m) * Qpower 2 e)%Q in
      let r := Qfloor (v + (1 # 2))%Q in
      if (r =? 0)%Z && s then neg_zero else of_Z r
  | _ => x
  end.

(** [buffer.duration]: the number of sample frames divided by the
    sample rate. *)
Definition duration (b : AudioBuffer) : float :=
  of_nat (length (channel b)) / of_Q (sampleRate b).

Record SlideTiming := mkSlideTiming {
  start : float;
  questionAudioDuration : float;
  thinkingStart : float;
  revealStart : float;
  answerAudioDuration : float;
  end_ : float
}.

(** The numbers of one iteration of the voiceover loop; the buffer maps
    are written as in [voiceover_body] above. *)
Definition voiceover_body (timerDuration : float) (slide : QuizSlide)
  (newTimings : list SlideTiming) (accumulatedTime : float)
  : list SlideTiming * float :=
  let qDur := match decodeVoice (questionAudio slide) with
              | Some buffer => duration buffer * 1000
              | None => 3000
              end in
  let aDur := match decodeVoice (answerAudio slide) with
              | Some buffer => duration buffer * 1000
              | None => 2000
              end in
  let thinkingDurMs := timerDuration * 1000 in
  let revealDurMs := Math_max 2000 (aDur + 1000) in
  let timing :=
    mkSlideTiming
      accumulatedTime
      qDur
      (accumulatedTime + qDur + 500)
      (accumulatedTime + qDur + 500 + thinkingDurMs)
      aDur
      (accumulatedTime + qDur + 500 + thinkingDurMs + revealDurMs) in
  (newTimings ++ [timing],
   accumulatedTime + (qDur + 500 + thinkingDurMs + revealDurMs)).

(** The uncancelled loop over [rest], the slides not yet visited. *)
Fixpoint voiceover_loop (timerDuration : float) (rest : list QuizSlide)
  (newTimings : list SlideTiming) (accumulatedTime : float)
  : list SlideTiming * float :=
  match rest with
  | [] => (newTimings, accumulatedTime)
  | slide :: rest' =>
      let '(nt, acc) :=
        voiceover_body timerDuration slide newTimings accumulatedTime in
      voiceover_loop timerDuration rest' nt acc
  end.

(** The [timings] and [totalDuration] a completed, uncancelled preload
    commits. *)
Definition buildTimeline (sl : list QuizSlide) (timer : float)
  : list SlideTiming * float :=
  voiceover_loop timer sl [] 0.

(** The search loop of [renderFrame] and [animate]. *)
Fixpoint findActive (i : nat) (ts : list SlideTiming) (time : float)
  : option (nat * SlideTiming) :=
  match ts with
  | [] => None
  | t :: rest =>
      if geb time (start t) && ltb time (end_ t)
      then Some (i, t)
      else findActive (S i) rest time
  end.

Record Counts := mkCounts { easy : float; medium : float; hard : float }.

(** [getCounts]. *)
Definition getCounts (diffEasy diffMedium diffHard questionCount : float)
  : Counts :=
  let totalPct := diffEasy + diffMedium + diffHard in
  if PrimFloat.eqb totalPct 0 then mkCounts 0 0 0
  else
    let e := Math_round ((diffEasy / totalPct) * questionCount) in
    let m := Math_round ((diffMedium / totalPct) * questionCount) in
    let h := questionCount - e - m in
    let h := if ltb h 0 then 0 else h in
    mkCounts e m h.

(** The narration durations of a slide in milliseconds, as the loop
    computes them. *)
Definition qDur_of (s : QuizSlide) : float :=
  match decodeVoice (questionAudio s) with
  | Some buffer => duration buffer * 1000
  | None => 3000
  end.

Definition aDur_of (s : QuizSlide) : float :=
  match decodeVoice (answerAudio s) with
  | Some buffer => duration buffer * 1000
  | None => 2000
  end.

(** The three spans of a timing, compared with [===] as the
    specification states them. *)
Definition phase_spans (timer : float) (s : QuizSlide) (t : SlideTiming)
  : Prop :=
  same (thinkingStart t - start t) (qDur_of s + 500)
  /\ same (revealStart t - thinkingStart t) (timer * 1000)
  /\ same (end_ t - revealStart t) (Math_max 2000 (aDur_of s + 1000)).

(** The boundaries of a timing as the sums the loop evaluates. *)
Definition phase_boundaries (timer : float) (s : QuizSlide)
  (t : SlideTiming) : Prop :=
  questionAudioDuration t = qDur_of s
  /\ answerAudioDuration t = aDur_of s
  /\ thinkingStart t = start t + qDur_of s + 500
  /\ revealStart t = thinkingStart t + timer * 1000
  /\ end_ t = revealStart t + Math_max 2000 (aDur_of s + 1000).

End Double.

(* ================================================================== *)
(** ** Notions used in the statements                                  *)
(* ================================================================== *)

(** The narration durations of a slide in milliseconds: the decoded
    length, or the fallback when the audio is absent or does not
    decode. *)
Definition qDur_of (s : QuizSlide) : Q :=
  match decodeVoice (questionAudio s) with
  | Some buffer => duration buffer * 1000
  | None => 3000
  end.

Definition aDur_of (s : QuizSlide) : Q :=
  match decodeVoice (answerAudio s) with
  | Some buffer => duration buffer * 1000
  | None => 2000
  end.

(** The timing pushed for a slide that starts at [acc], and the time the
    slide takes. *)
Definition slide_timing (timer acc : Q) (s : QuizSlide) : SlideTiming :=
  mkSlideTiming
    acc
    (qDur_of s)
    (acc + qDur_of s + 500)
    (acc + qDur_of s + 500 + timer * 1000)
    (aDur_of s)
    (acc + qDur_of s + 500 + timer * 1000
     + JS.Math_max 2000 (aDur_of s + 1000)).

Definition slide_span (timer : Q) (s : QuizSlide) : Q :=
  qDur_of s + 500 + timer * 1000 + JS.Math_max 2000 (aDur_of s + 1000).

Fixpoint timings_from (timer acc : Q) (sl : list QuizSlide)
  : list SlideTiming :=
  match sl with
  | [] => []
  | s :: rest =>
      slide_timing timer acc s
      :: timings_from timer (acc + slide_span timer s) rest
  end.

Fixpoint total_from (timer acc : Q) (sl : list QuizSlide) : Q :=
  match sl with
  | [] => acc
  | s :: rest => total_from timer (acc + slide_span timer s) rest
  end.

(** A slide whose narrations are [qBytes] and [aBytes] bytes of silence
    (two bytes per sample, 24 samples per millisecond). *)
Definition silent_slide (name : string) (qBytes : Z) (aBytes : option Z)
  : QuizSlide :=
  mkQuizSlide name [] 0 None name None
    (Some (repeat Byte.x00 (Z.to_nat qBytes)))
    (match aBytes with
     | Some n => Some (repeat Byte.x00 (Z.to_nat n))
     | None => None
     end).

(** The three-slide scenario: question narrations of 4000, 3000 and
    5000 ms, answer narrations of 1500 ms, none, and 3000 ms. *)
Definition scenario_slides : list QuizSlide :=
  [ silent_slide "s0" 192000 (Some 72000%Z);
    silent_slide "s1" 144000 None;
    silent_slide "s2" 240000 (Some 144000%Z) ].

(** The same scenario with the missing answer narration given as an
    empty [ArrayBuffer]. *)
Definition scenario_slides_empty : list QuizSlide :=
  [ silent_slide "s0" 192000 (Some 72000%Z);
    silent_slide "s1" 144000 (Some 0%Z);
    silent_slide "s2" 240000 (Some 144000%Z) ].

(** A timeline has the given boundaries, slide by slide. *)
Definition has_boundaries (t : SlideTiming) (b : Q * Q * Q * Q) : Prop :=
  let '(s, th, r, e) := b in
  start t == s /\ thinkingStart t == th /\ revealStart t == r /\ end_ t == e.

Definition timeline_is (tl : list SlideTiming * Q)
  (bs : list (Q * Q * Q * Q)) (total : Q) : Prop :=
  Forall2 has_boundaries (fst tl) bs /\ snd tl == total.



(** The props and assets of a player whose committed timeline is the one
    built for its slides and thinking time. *)
Definition built (p : Props) (a : Assets) : Prop :=
  timings a = fst (buildTimeline (slides p) (timerDuration p))
  /\ totalDuration a = snd (buildTimeline (slides p) (timerDuration p)).



(** The phases of a slide, and the slide and phase an [animate] call
    synchronises the narration with: none when the player is paused,
    when the playhead reaches the end, or when no slide contains it. *)
Inductive Phase := Reading | Thinking | Revealing.

Definition phase_of (t : SlideTiming) (time : Q) : Phase :=
  if JS.ltb time (thinkingStart t) then Reading
  else if JS.geb time (revealStart t) then Revealing
  else Thinking.

Definition tick_phase (a : Assets) (timestamp : Q) (st : Player)
  : option (nat * Phase) :=
  if isPlaying st then
    let next := currentTime st + (timestamp - previousTimeRef st) in
    if JS.geb next (totalDuration a) then None
    else match findActive 0 (timings a) next with
         | Some (i, t) => Some (i, phase_of t next)
         | None => None
         end
  else None.

(** Narration sources that are sounding. *)
Definition is_voice (k : SourceKind) : bool :=
  match k with
  | VoiceSource _ _ => true
  | _ => false
  end.

Definition sounding_voice (st : Player) (n : nat) : Prop :=
  exists s, sources st !! n = Some s
    /\ is_voice (kind s) = true /\ sounding s = true.

(** Counting commands of a kind in a log. *)
Definition count_cmds (f : Cmd -> bool) (l : list Cmd) : nat :=
  length (List.filter f l).

Definition voice_start (c : Cmd) : bool :=
  match c with
  | SourceStart _ (VoiceSource _ _) _ => true
  | _ => false
  end.

Definition voice_call (c : Cmd) : bool :=
  match c with
  | CallPlayVoiceTrack _ _ _ => true
  | _ => false
  end.

Definition end_cue_call (c : Cmd) : bool :=
  match c with
  | CallPlayTickSound end_cue => true
  | _ => false
  end.

(** A stretch of a run made of animation ticks and frame renderings in
    which every tick that synchronises the narration does so for slide
    [i] in phase [ph]. *)
Fixpoint same_phase_ticks (p : Props) (a : Assets) (acts : list Action)
  (st : Player) (i : nat) (ph : Phase) : Prop :=
  match acts with
  | [] => True
  | act :: rest =>
      match act with
      | Animate timestamp =>
          match tick_phase a timestamp st with
          | Some x => x = (i, ph)
          | None => True
          end
      | RenderEffect => True
      | _ => False
      end
      /\ same_phase_ticks p a rest (player_step p a act st) i ph
  end.

(** A stretch of ticks and renderings in which every tick synchronises
    the narration for slide [i] in phase [ph]. *)
Fixpoint ticks_in_phase (p : Props) (a : Assets) (acts : list Action)
  (st : Player) (i : nat) (ph : Phase) : Prop :=
  match acts with
  | [] => True
  | act :: rest =>
      match act with
      | Animate timestamp => tick_phase a timestamp st = Some (i, ph)
      | RenderEffect => True
      | _ => False
      end
      /\ ticks_in_phase p a rest (player_step p a act st) i ph
  end.

Definition is_animate (act : Action) : bool :=
  match act with
  | Animate _ => true
  | _ => false
  end.

(** The marker names the track that phase [ph] of slide [i] plays. *)
Definition marker_matches (cur : option (nat * TrackType)) (i : nat)
  (ph : Phase) : Prop :=
  match ph with
  | Reading => cur = Some (i, question_track)
  | Revealing => cur = Some (i, answer_track)
  | Thinking => False
  end.

(** The buffer map [playVoiceTrack] reads for a track type. *)
Definition bufferMap (a : Assets) (type : TrackType) : gmap nat AudioBuffer :=
  match type with
  | question_track => questionBuffersRef a
  | answer_track => answerBuffersRef a
  end.

(** A small player used to exercise the statements: two slides with
    1 ms narrations, the second without answer narration, no music, no
    countdown sound, no images, and a thinking time of 3 s. Its assets
    are those a completed preload leaves. *)
Definition demo_props : Props :=
  mkProps [ silent_slide "a" 48 (Some 48%Z); silent_slide "b" 48 None ]
    None None 3 (3 # 5) true Cinematic.

Definition demo_assets : Assets :=
  snd (prepareAssets demo_props 0 initial_assets).

(** Playback frames: at each timestamp the animation callback runs and
    the effect that follows the state change renders the frame. *)
Definition frames (timestamps : list Q) : list Action :=
  flat_map (fun t => [Animate t; RenderEffect]) timestamps.

(** The slide and phase of every tick of a run, in order. *)
Fixpoint tick_phases (p : Props) (a : Assets) (acts : list Action)
  (st : Player) : list (option (nat * Phase)) :=
  match acts with
  | [] => []
  | act :: rest =>
      match act with
      | Animate timestamp => [tick_phase a timestamp st]
      | _ => []
      end ++ tick_phases p a rest (player_step p a act st)
  end.

Definition is_revealing (x : option (nat * Phase)) : bool :=
  match x with
  | Some (_, Revealing) => true
  | _ => false
  end.

(** Entries into a Revealing phase: ticks in a Revealing phase whose
    previous tick was not in the Revealing phase of the same slide. *)
Fixpoint revealing_entries (prev : option (nat * Phase))
  (l : list (option (nat * Phase))) : nat :=
  match l with
  | [] => 0
  | x :: rest =>
      ((if is_revealing x
        then match prev, x with
             | Some (i, Revealing), Some (j, _) => if (i =? j)%nat then 0 else 1
             | _, _ => 1
             end
        else 0)
       + revealing_entries x rest)%nat
  end.

(** Playing the demo from the start through the reveal of the first
    slide into the cross-fade of the second. *)
Definition crossfade_acts : list Action :=
  ClickTogglePlay 0 :: frames [3400; 3600; 5400; 5501; 5600].

(** An export of the demo that plays to the end before the user stops
    the recording. *)
Definition export_playback : list Action :=
  [ ClickStartRecording; TimeoutFires 200 ]
  ++ frames [216; 3000; 6000; 9000; 12000; 12300].

Definition export_acts : list Action :=
  export_playback ++ [ ClickStopRecording 14000 ].

(** The demo with a countdown sound file as well. *)
Definition sfx_props (music sfx : string) : Props :=
  mkProps (slides demo_props) (Some (mkFile music)) (Some (mkFile sfx))
    3 (3 # 5) true Cinematic.

(** The demo with a background music file. *)
Definition music_props (name : string) : Props :=
  mkProps (slides demo_props) (Some (mkFile name)) None 3 (3 # 5) true
    Cinematic.

(** Two decoded music buffers, one and two samples long. *)
Definition music_A : AudioBuffer := mkAudioBuffer [0] 44100.
Definition music_B : AudioBuffer := mkAudioBuffer [0; 0] 44100.

(** The fields of the shared state that the preload writes only behind
    a check of [cancelled]. *)
Definition guarded_fields (a : Assets) :=
  (isReady a, timings a, totalDuration a, imagesRef a,
   questionBuffersRef a, answerBuffersRef a).

(** The timing of slide [i] of the demo. *)
Definition demo_timing (i : nat) : SlideTiming :=
  default (mkSlideTiming 0 0 0 0 0 0) (timings demo_assets !! i).

(** The demo after it was started and ticked once at the same instant,
    and after it has then run into the reveal of its second slide. *)
Definition demo_started : Player :=
  player_run demo_props demo_assets [ClickTogglePlay 0] initial_player.

Definition demo_revealing : Player :=
  player_run demo_props demo_assets
    (ClickTogglePlay 0 :: frames [5501; 9100]) initial_player.

(** Every sounding narration source is the one held in [voiceNodeRef]. *)
Definition voice_inv (st : Player) : Prop :=
  forall n, sounding_voice st n -> voiceNodeRef st = Some n.

(** [st'] differs from [st] by nothing that concerns the narration or
    the clock: same marker, same held source, the earlier sources
    untouched, no narration call or start logged, same playing flag,
    playhead and previous timestamp. *)
Definition quiet (st st' : Player) : Prop :=
  currentAudioTrackRef st' = currentAudioTrackRef st
  /\ voiceNodeRef st' = voiceNodeRef st
  /\ sources st `prefix_of` sources st'
  /\ count_cmds voice_start (log st') = count_cmds voice_start (log st)
  /\ count_cmds voice_call (log st') = count_cmds voice_call (log st)
  /\ isPlaying st' = isPlaying st
  /\ currentTime st' = currentTime st
  /\ previousTimeRef st' = previousTimeRef st.

(* ================================================================== *)
(** ** Text wrapping on the canvas ([wrapText])                        *)
(* ================================================================== *)

(** [text.split(' ')]: the pieces between single spaces, empty pieces
    included; never the empty list. *)
Fixpoint split_space (text : string) : list string :=
  match text with
  | EmptyString => [EmptyString]
  | String c rest =>
      if Ascii.eqb c " "%char then EmptyString :: split_space rest
      else match split_space rest with
           | w :: ws => String c w :: ws
           | [] => [String c EmptyString]
           end
  end.

(** The canvas calls [wrapText] makes. The four style assignments made
    under [useShadow] are one [SetTextShadow]. *)
Inductive TextCmd :=
| SetTextShadow
| StrokeText (line : string) (x y : Q)
| FillText (line : string) (x y : Q)
| ClearShadowBlur.

Definition draw_line (useShadow : bool) (line : string) (x y : Q)
  : list TextCmd :=
  (if useShadow then [StrokeText line x y] else []) ++ [FillText line x y].

(** The [for] loop of [wrapText] from word number [n] on; [measure] is
    [ctx.measureText(_).width] under the font in force. *)
Fixpoint wrap_loop (measure : string -> Q) (useShadow : bool)
  (x maxWidth lineHeight : Q) (n : nat) (words : list string)
  (line : string) (currentY : Q) (out : list TextCmd)
  : string * Q * list TextCmd :=
  match words with
  | [] => (line, currentY, out)
  | w :: rest =>
      let testLine := (line +:+ w +:+ " ") in
      let testWidth := measure testLine in
      if JS.gtb testWidth maxWidth && (0 <? n)%nat then
        wrap_loop measure useShadow x maxWidth lineHeight (S n) rest
          (w +:+ " ") (currentY + lineHeight)
          (out ++ draw_line useShadow line x currentY)
      else
        wrap_loop measure useShadow x maxWidth lineHeight (S n) rest
          testLine currentY out
  end.

(** [wrapText(ctx, text, x, y, maxWidth, lineHeight, useShadow)]: the
    canvas calls and the returned position. *)
Definition wrapText (measure : string -> Q) (text : string)
  (x y maxWidth lineHeight : Q) (useShadow : bool) : list TextCmd * Q :=
  let words := split_space text in
  let out0 := if useShadow then [SetTextShadow] else [] in
  let '(line, currentY, out) :=
    wrap_loop measure useShadow x maxWidth lineHeight 0 words
      EmptyString y out0 in
  (out ++ draw_line useShadow line x currentY ++ [ClearShadowBlur],
   currentY + lineHeight).

(** The lines painted by [fillText], top to bottom. *)
Definition filled_line (c : TextCmd) : option (string * Q * Q) :=
  match c with
  | FillText line x y => Some (line, x, y)
  | _ => None
  end.

Definition filled_lines (l : list TextCmd) : list (string * Q * Q) :=
  omap filled_line l.

Definition stroked_line (c : TextCmd) : option (string * Q * Q) :=
  match c with
  | StrokeText line x y => Some (line, x, y)
  | _ => None
  end.

Definition stroked_lines (l : list TextCmd) : list (string * Q * Q) :=
  omap stroked_line l.

Fixpoint concat_strings (l : list string) : string :=
  match l with
  | [] => EmptyString
  | s :: rest => s +:+ concat_strings rest
  end.

Definition line_text (l : string * Q * Q) : string := fst (fst l).

(** A line fits the width, or it holds a single word of the text. *)
Definition line_ok (measure : string -> Q) (maxWidth : Q)
  (allWords : list string) (line : string) : Prop :=
  measure line <= maxWidth \/ exists w, w ∈ allWords /\ line = w +:+ " ".

(** The line under construction before word [n] is examined. *)
Definition line_state (measure : string -> Q) (maxWidth : Q)
  (allWords : list string) (n : nat) (line : string) : Prop :=
  match n with
  | O => line = EmptyString
  | S _ => line_ok measure maxWidth allWords line
  end.

(** The lines painted so far: each is fine, they are stacked from [y0]
    downwards at [x], and each is stroked exactly under [useShadow]. *)
Definition lines_ok (measure : string -> Q) (useShadow : bool)
  (x maxWidth lineHeight : Q) (allWords : list string) (y0 : Q)
  (out : list TextCmd) : Prop :=
  Forall (fun l => line_ok measure maxWidth allWords (line_text l))
    (filled_lines out)
  /\ (forall k l, filled_lines out !! k = Some l ->
        snd (fst l) = x
        /\ snd l == y0 + inject_Z (Z.of_nat k) * lineHeight)
  /\ stroked_lines out = (if useShadow then filled_lines out else []).

(** The canvas calls that paint one line: under [useShadow] the stroke
    and then the fill, otherwise the fill alone. *)
Definition painted_line (useShadow : bool) (l : string * Q * Q)
  : list TextCmd :=
  let '(line, x, y) := l in
  if useShadow then [StrokeText line x y; FillText line x y]
  else [FillText line x y].

(* ================================================================== *)
(** ** The generation service: retries, history, ordering              *)
(* ================================================================== *)

(** [haystack.includes(needle)]. *)
Fixpoint starts_with (needle haystack : string) : bool :=
  match needle, haystack with
  | EmptyString, _ => true
  | String a n', String b h' => Ascii.eqb a b && starts_with n' h'
  | String _ _, EmptyString => false
  end.

Fixpoint includes (haystack needle : string) : bool :=
  starts_with needle haystack
  || match haystack with
     | EmptyString => false
     | String _ rest => includes rest needle
     end.

(** What an operation can throw: its [status] and [message] properties
    and its [JSON.stringify] text. *)
Inductive ErrStatus :=
| StatusNumber (n : Z)
| StatusString (s : string)
| StatusAbsent.

Record ApiError := mkApiError {
  status : ErrStatus;
  message : option string;
  stringified : string
}.

(** [e.message || JSON.stringify(e)]: an empty message is falsy. *)
Definition errorMessage (e : ApiError) : string :=
  match message e with
  | Some (String c m) => String c m
  | _ => stringified e
  end.

Definition isRateLimit (e : ApiError) : bool :=
  match status e with
  | StatusNumber n => (n =? 429)%Z
  | StatusString s => String.eqb s "RESOURCE_EXHAUSTED"
  | StatusAbsent => false
  end
  || includes (errorMessage e) "429"
  || includes (errorMessage e) "RESOURCE_EXHAUSTED"
  || includes (errorMessage e) "Quota exceeded".

(** The delay awaited after the failure of attempt [i]. *)
Definition retry_delay (baseDelay : Q) (i : nat) (e : ApiError) : Q :=
  if isRateLimit e then 6000 * inject_Z (2 ^ Z.of_nat i)
  else baseDelay * inject_Z (2 ^ Z.of_nat i).

(** The loop of [withRetry] from attempt [i] on, with [remaining]
    iterations left. [operation k] is what the [k]-th call of the
    operation settles with. The result is the value returned or the
    [lastError] thrown ([None]: [undefined]), with the delays awaited. *)
Fixpoint retry_loop {T : Type} (operation : nat -> ApiError + T)
  (baseDelay : Q) (remaining i : nat) (lastError : option ApiError)
  (waits : list Q) : (option ApiError + T) * list Q :=
  match remaining with
  | O => (inl lastError, waits)
  | S r =>
      match operation i with
      | inr v => (inr v, waits)
      | inl e =>
          retry_loop operation baseDelay r (S i) (Some e)
            (waits ++ [retry_delay baseDelay i e])
      end
  end.

Definition withRetry {T : Type} (operation : nat -> ApiError + T)
  (retries : nat) (baseDelay : Q) : (option ApiError + T) * list Q :=
  retry_loop operation baseDelay retries 0 None [].

Fixpoint sumQ (l : list Q) : Q :=
  match l with
  | [] => 0
  | x :: rest => x + sumQ rest
  end.

(** A JSON value as far as the history code looks at it: a string, or
    any other value, kept by its JSON text. *)
Inductive Json :=
| JString (s : string)
| JOther (text : string).

(** The item of [localStorage] under [HISTORY_KEY]: absent ([None]),
    the empty string, the JSON of an array, the JSON of a string, the
    JSON of a number, boolean, [null] or object, or text that does not
    parse. *)
Inductive StoredHistory :=
| StoredEmpty
| StoredArray (l : list Json)
| StoredString (s : string)
| StoredNotIterable
| StoredUnparsable.

Definition MAX_HISTORY : nat := 100.

(** What [getQuestionHistory] returns: the parsed value. *)
Inductive History :=
| HArray (l : list Json)
| HString (s : string)
| HNotIterable.

(** [stored ? JSON.parse(stored) : []], with [[]] when parsing throws:
    an absent item and the empty string are falsy. *)
Definition getQuestionHistory (stored : option StoredHistory) : History :=
  match stored with
  | None => HArray []
  | Some StoredEmpty => HArray []
  | Some (StoredArray l) => HArray l
  | Some (StoredString s) => HString s
  | Some StoredNotIterable => HNotIterable
  | Some StoredUnparsable => HArray []
  end.

(** The code points of a string, each as a string of its own. *)
Fixpoint code_points (s : string) : list Json :=
  match s with
  | EmptyString => []
  | String c rest => JString (String c EmptyString) :: code_points rest
  end.

(** [...current]: an array gives its elements, a string its code
    points; anything else is not iterable ([None]: a [TypeError]). *)
Definition spread (h : History) : option (list Json) :=
  match h with
  | HArray l => Some l
  | HString s => Some (code_points s)
  | HNotIterable => None
  end.

(** [saveQuestionHistory]: spreading a value that is not iterable and a
    failing [setItem] ([writable = false]) are caught, leaving the item
    as it was. *)
Definition saveQuestionHistory (writable : bool) (newQuestions : list string)
  (stored : option StoredHistory) : option StoredHistory :=
  match spread (getQuestionHistory stored) with
  | None => stored
  | Some current =>
      let updated :=
        take MAX_HISTORY (map JString newQuestions ++ current) in
      if writable then Some (StoredArray updated) else stored
  end.

Record QuizQuestion := mkQuizQuestion {
  q_question : string;
  q_options : list string;
  q_correctAnswerIndex : nat;
  q_difficulty : option string
}.

(** [difficultyValue[a.difficulty || 'Medium'] || 2] for a difficulty
    that does not name a member of [Object.prototype]. *)
Definition difficulty_rank (q : QuizQuestion) : nat :=
  match q_difficulty q with
  | Some d =>
      if String.eqb d "Easy" then 1
      else if String.eqb d "Hard" then 3
      else 2
  | None => 2
  end.

(** The names under which the object literal [difficultyValue] answers
    with an inherited member instead of [undefined]. *)
Definition inherited_keys : list string :=
  [ "constructor"; "__proto__"; "hasOwnProperty"; "isPrototypeOf";
    "propertyIsEnumerable"; "toLocaleString"; "toString"; "valueOf";
    "__defineGetter__"; "__defineSetter__"; "__lookupGetter__";
    "__lookupSetter__" ]%string.

Definition plain_difficulty (q : QuizQuestion) : Prop :=
  match q_difficulty q with
  | Some d => d ∉ inherited_keys
  | None => True
  end.

(** [questions.sort((a, b) => valA - valB)]: [Array.prototype.sort] is
    stable, so the outcome is that of inserting each question behind
    those that do not rank higher. *)
Fixpoint insert_by_rank (q : QuizQuestion) (l : list QuizQuestion)
  : list QuizQuestion :=
  match l with
  | [] => [q]
  | x :: rest =>
      if (difficulty_rank x <=? difficulty_rank q)%nat
      then x :: insert_by_rank q rest
      else q :: x :: rest
  end.

Definition sort_progressive (questions : list QuizQuestion)
  : list QuizQuestion :=
  foldl (fun acc q => insert_by_rank q acc) [] questions.

(** No question comes before one of lower difficulty. *)
Definition rank_sorted (l : list QuizQuestion) : Prop :=
  forall i j x y, (i < j)%nat -> l !! i = Some x -> l !! j = Some y ->
                  (difficulty_rank x <= difficulty_rank y)%nat.

(* ================================================================== *)
(** ** Further notions about the player                                *)
(* ================================================================== *)

(** Background music sources that are sounding. *)
Definition is_music (k : SourceKind) : bool :=
  match k with
  | MusicSource => true
  | _ => false
  end.

Definition sounding_music (st : Player) (n : nat) : Prop :=
  exists s, sources st !! n = Some s
    /\ is_music (kind s) = true /\ sounding s = true.

(** Every sounding music source is the one held in [bgMusicNodeRef],
    and none sounds while the player is not playing. *)
Definition music_inv (st : Player) : Prop :=
  (forall n, sounding_music st n -> bgMusicNodeRef st = Some n)
  /\ (isPlaying st = false -> forall n, ~ sounding_music st n).

(** The master gain follows the muted flag. *)
Definition gain_inv (st : Player) : Prop :=
  masterGainValue st = if isMuted st then 0 else 1.

(** [st'] differs from [st] only by what narration and rendering may
    change: the log, the tick marker, the narration marker and node,
    stopped sources and new sources that are not music. *)
Definition backstage (st st' : Player) : Prop :=
  isPlaying st' = isPlaying st
  /\ currentTime st' = currentTime st
  /\ isRecording st' = isRecording st
  /\ isMuted st' = isMuted st
  /\ masterGainValue st' = masterGainValue st
  /\ bgMusicNodeRef st' = bgMusicNodeRef st
  /\ mediaRecorderRef st' = mediaRecorderRef st
  /\ pendingTimeouts st' = pendingTimeouts st
  /\ (forall n, sounding_music st' n -> sounding_music st n).

(** The seeks of a run stay on the slider, whose range ends at
    [totalDuration]. *)
Definition seek_in_range (a : Assets) (act : Action) : Prop :=
  match act with
  | Seek t => t <= totalDuration a
  | _ => True
  end.

(** Calls of [playTickSound] in a log. *)
Definition cue_call (c : Cmd) : bool :=
  match c with
  | CallPlayTickSound _ => true
  | _ => false
  end.

(** The phase a tick synchronises, the track it plays and the time that
    track starts at. *)
Definition phase_track (ph : Phase) (t : SlideTiming)
  : option (TrackType * Q) :=
  match ph with
  | Reading => Some (question_track, start t)
  | Revealing => Some (answer_track, revealStart t)
  | Thinking => None
  end.

(** What every run of the player keeps: the music invariant, the gain
    invariant, and a playhead within [P]. *)
Definition stage_inv (P : Q -> Prop) (st : Player) : Prop :=
  music_inv st /\ gain_inv st /\ P (currentTime st).

(** The seeks of a run land within [P]. *)
Definition seeks_to (P : Q -> Prop) (act : Action) : Prop :=
  match act with
  | Seek t => P t
  | _ => True
  end.

(** [st'] has no narration sounding that was not sounding in [st]. *)
Definition hush (st st' : Player) : Prop :=
  forall n, sounding_voice st' n -> sounding_voice st n.

(* ================================================================== *)
(** ** Further notions about the preload                               *)
(* ================================================================== *)

(** The event settles what the preload is suspended on. *)
Definition awaited (ev : Event) (t : Preload) : bool :=
  match ev, awaiting t with
  | ArrayBufferSettled _, AwaitMusicBytes => true
  | ArrayBufferSettled _, AwaitSfxBytes => true
  | DecodeSettled _, AwaitMusicDecode => true
  | DecodeSettled _, AwaitSfxDecode => true
  | ImageLoaded k _, AwaitImages pending => bool_decide (k ∈ pending)
  | ImageFailed k, AwaitImages pending => bool_decide (k ∈ pending)
  | _, _ => false
  end.

(** An upper bound of the number of settlements a preload still waits
    for. *)
Definition preload_measure (p : Props) (t : Preload) : nat :=
  let images := size (image_promises 0 (slides p)) in
  match awaiting t with
  | AwaitMusicBytes => 4 + images
  | AwaitMusicDecode => 3 + images
  | AwaitSfxBytes => 2 + images
  | AwaitSfxDecode => 1 + images
  | AwaitImages pending => size pending
  | Finished => 0
  end.

(** What holds of a preload and the state it writes, from its start on:
    the player is ready only once the preload has finished, and then
    with the built timeline; a preload that finishes uncancelled leaves
    the player ready; and it never waits for an empty set of images. *)
Definition preload_inv (p : Props) (t : Preload) (a : Assets) : Prop :=
  (isReady a = true -> awaiting t = Finished /\ built p a)
  /\ (awaiting t = Finished -> cancelled t = false -> isReady a = true)
  /\ (forall pending, awaiting t = AwaitImages pending -> pending <> ∅).

(** The buffer decoded from the narration [audio] of slide [i], if
    there is such a slide and its narration decodes. *)
Definition decoded_at (audio : QuizSlide -> option ArrayBuffer)
  (sl : list QuizSlide) (i : nat) : option AudioBuffer :=
  match sl !! i with
  | Some s => decodeVoice (audio s)
  | None => None
  end.

(** The entry of a buffer map after a preload: the freshly decoded
    buffer, or else whatever the map held before. *)
Definition refreshed (fresh old : option AudioBuffer) : option AudioBuffer :=
  match fresh with
  | Some b => Some b
  | None => old
  end.

(* ================================================================== *)
(** ** Inside the layout painters                                      *)
(* ================================================================== *)

(** The "Timer Logic" of [drawCinematicLayout]: [timeLeft], [progress]
    and [revealProgress]. *)
Record CinematicTimer := mkCinematicTimer {
  ct_timeLeft : Q;
  ct_progress : Q;
  ct_revealProgress : Q
}.

Definition cinematicTimer (p : Props) (localTime : Q) (timing : SlideTiming)
  : CinematicTimer :=
  let isThinking :=
    JS.geb localTime (thinkingStart timing - start timing)
    && JS.ltb localTime (revealStart timing - start timing) in
  let isRevealed := JS.geb localTime (revealStart timing - start timing) in
  if isThinking then
    let thinkingElapsed := localTime - (thinkingStart timing - start timing) in
    mkCinematicTimer
      (JS.Math_max 0
         (inject_Z (JS.Math_ceil (timerDuration p - thinkingElapsed / 1000))))
      (thinkingElapsed / (timerDuration p * 1000))
      0
  else if isRevealed then
    let revealElapsed := localTime - (revealStart timing - start timing) in
    mkCinematicTimer 0 1 (JS.Math_min 1 (revealElapsed / 500))
  else mkCinematicTimer (timerDuration p) 0 0.

(** The height of the timer, and the opacities at which the countdown
    number ([if (revealProgress < 1)]) and the check mark with the
    answer ([if (revealProgress > 0)]) are painted; [None] when they
    are not painted. *)
Definition cinematic_timerY (ct : CinematicTimer) : Q :=
  692 - ct_revealProgress ct * 242.

Definition cinematic_number_alpha (alpha : Q) (ct : CinematicTimer)
  : option Q :=
  if JS.ltb (ct_revealProgress ct) 1
  then Some (alpha * (1 - ct_revealProgress ct))
  else None.

Definition cinematic_check_alpha (alpha : Q) (ct : CinematicTimer)
  : option Q :=
  if JS.gtb (ct_revealProgress ct) 0
  then Some (alpha * ct_revealProgress ct)
  else None.

(** The "Animation Logic for TEXT Only" of [drawBroadcastLayout]: the
    opacity at which the badge and text of option [idx] are painted;
    [None] when [showText] is false. *)
Definition broadcast_option_text (localTime alpha : Q) (timing : SlideTiming)
  (idx : nat) : option Q :=
  let isRevealed := JS.geb localTime (revealStart timing - start timing) in
  let optionsSequenceStart := questionAudioDuration timing in
  let myStart := optionsSequenceStart + inject_Z (Z.of_nat idx) * 1000 in
  let myLocalTime := localTime - myStart in
  let '(showText, textAlpha) :=
    if JS.geb myLocalTime 0
    then (true, JS.Math_min 1 (myLocalTime / 300))
    else (false, 1) in
  let '(showText, textAlpha) :=
    if isRevealed then (true, 1) else (showText, textAlpha) in
  if showText then Some (alpha * textAlpha) else None.

(** Equality of optional numbers up to [==]. *)
Definition opt_Qeq (x y : option Q) : Prop :=
  match x, y with
  | Some u, Some v => u == v
  | None, None => True
  | _, _ => False
  end.

(* ================================================================== *)
(** ** Inputs on which rounding shows                                  *)
(* ================================================================== *)

(** Two slides whose four narrations are 25 samples (50 bytes) long. *)
Definition rounding_slides : list QuizSlide :=
  [ silent_slide "a" 50 (Some 50%Z); silent_slide "b" 50 (Some 50%Z) ].

(** Slides without answer narration whose question narrations are 3, 1
    and 3 samples, 3, 1 and 1 samples, and 3 and 1 samples long. *)
Definition overlap_slides : list QuizSlide :=
  [ silent_slide "a" 6 None; silent_slide "b" 2 None;
    silent_slide "c" 6 None ].

Definition gap_slides : list QuizSlide :=
  [ silent_slide "a" 6 None; silent_slide "b" 2 None;
    silent_slide "c" 2 None ].

Definition short_total_slides : list QuizSlide :=
  [ silent_slide "a" 6 None; silent_slide "b" 2 None ].

(* ================================================================== *)
(** * Properties                                                       *)
(* ================================================================== *)

(** ** Numbers *)

Lemma geb_le a b : JS.geb a b = true <-> b <= a.
Proof. unfold JS.geb. apply Qle_bool_iff. Qed.

Lemma ltb_lt a b : JS.ltb a b = true <-> a < b.
Proof.
  unfold JS.ltb. rewrite negb_true_iff. split.
  - intros H. apply Qnot_le_lt. intros Hle.
    apply Qle_bool_iff in Hle. congruence.
  - intros H. destruct (Qle_bool b a) eqn:E; [|reflexivity].
    apply Qle_bool_iff in E. exfalso. apply (Qlt_not_le _ _ H E).
Qed.

Lemma ltb_ge a b : JS.ltb a b = false <-> b <= a.
Proof.
  unfold JS.ltb. rewrite negb_false_iff. apply Qle_bool_iff.
Qed.

Lemma Math_max_le_l a b : a <= JS.Math_max a b.
Proof.
  unfold JS.Math_max. destruct (Qle_bool a b) eqn:E.
  - now apply Qle_bool_iff.
  - apply Qle_refl.
Qed.

Lemma Math_max_le_r a b : b <= JS.Math_max a b.
Proof.
  unfold JS.Math_max. destruct (Qle_bool a b) eqn:E.
  - apply Qle_refl.
  - apply Qlt_le_weak, Qnot_le_lt. intros H.
    apply Qle_bool_iff in H. congruence.
Qed.

Lemma geb_false a b : JS.geb a b = false <-> a < b.
Proof.
  unfold JS.geb. split.
  - intros H. apply Qnot_le_lt. intros Hle.
    apply Qle_bool_iff in Hle. congruence.
  - intros H. destruct (Qle_bool b a) eqn:E; [|reflexivity].
    apply Qle_bool_iff in E. exfalso. apply (Qlt_not_le _ _ H E).
Qed.

Lemma Math_max_Qmax a b : JS.Math_max a b == Qmax a b.
Proof.
  unfold JS.Math_max. destruct (Qle_bool a b) eqn:E.
  - apply Qle_bool_iff in E. symmetry. now apply Q.max_r.
  - symmetry. apply Q.max_l.
    apply Qlt_le_weak, Qnot_le_lt. intros H.
    apply Qle_bool_iff in H. congruence.
Qed.

(** ** The timeline *)

Lemma Int16Array_length bs l :
  Int16Array bs = Some l -> length bs = (2 * length l)%nat.
Proof.
  revert l. induction bs as [bs IH] using (well_founded_induction
    (well_founded_ltof _ (@length Byte.byte))).
  intros l. destruct bs as [|lo [|hi rest]]; simpl.
  - intros [= <-]. reflexivity.
  - discriminate.
  - destruct (Int16Array rest) as [l'|] eqn:E; [|discriminate].
    intros [= <-]. simpl.
    rewrite (IH rest ltac:(unfold ltof; simpl; lia) l' E). lia.
Qed.

Lemma decodePCM_duration ab b :
  decodePCM ab = Some b ->
  sampleRate b = 24000 /\ length (channel b) <> O.
Proof.
  unfold decodePCM. destruct (Int16Array ab) as [pcm|]; [|discriminate].
  unfold createBuffer. destruct (length pcm) eqn:E; [discriminate|].
  intros [= <-]. simpl. rewrite length_map, E. split; [reflexivity|lia].
Qed.

Lemma duration_pos ab b : decodePCM ab = Some b -> 0 < duration b * 1000.
Proof.
  intros H. destruct (decodePCM_duration _ _ H) as [Hr Hl].
  unfold duration. rewrite Hr.
  assert (0 < inject_Z (Z.of_nat (length (channel b)))) as Hpos.
  { change 0 with (inject_Z 0). rewrite <- Zlt_Qlt. lia. }
  unfold Qdiv. change (/ 24000) with (1 # 24000). lra.
Qed.

Lemma qDur_of_pos s : 0 < qDur_of s.
Proof.
  unfold qDur_of, decodeVoice.
  destruct (questionAudio s) as [ab|]; [|reflexivity].
  destruct (decodePCM ab) eqn:E; [|reflexivity].
  eapply duration_pos; eauto.
Qed.

Lemma aDur_of_pos s : 0 < aDur_of s.
Proof.
  unfold aDur_of, decodeVoice.
  destruct (answerAudio s) as [ab|]; [|reflexivity].
  destruct (decodePCM ab) eqn:E; [|reflexivity].
  eapply duration_pos; eauto.
Qed.

Lemma voiceover_body_timing timer i s nt acc a :
  let '(nt', acc', _) := voiceover_body timer i s nt acc a in
  nt' = nt ++ [slide_timing timer acc s] /\ acc' = acc + slide_span timer s.
Proof.
  unfold voiceover_body, slide_timing, slide_span, qDur_of, aDur_of.
  destruct (decodeVoice (questionAudio s)), (decodeVoice (answerAudio s));
    split; reflexivity.
Qed.

Lemma voiceover_loop_timings timer rest : forall i nt acc a,
  fst (voiceover_loop timer false i rest nt acc a)
  = Some (nt ++ timings_from timer acc rest, total_from timer acc rest).
Proof.
  induction rest as [|s rest IH]; intros i nt acc a; simpl.
  - now rewrite app_nil_r.
  - pose proof (voiceover_body_timing timer i s nt acc a) as Hb.
    destruct (voiceover_body timer i s nt acc a) as [[nt' acc'] a'].
    destruct Hb as [-> ->]. rewrite IH, <- app_assoc. reflexivity.
Qed.

Lemma buildTimeline_eq sl timer :
  buildTimeline sl timer = (timings_from timer 0 sl, total_from timer 0 sl).
Proof.
  unfold buildTimeline, stage_voice. simpl.
  pose proof (voiceover_loop_timings timer sl 0%nat [] 0 initial_assets) as H.
  destruct (voiceover_loop timer false 0 sl [] 0 initial_assets) as [r a'].
  simpl in H. subst r. reflexivity.
Qed.

Lemma timings_from_length timer sl : forall acc,
  length (timings_from timer acc sl) = length sl.
Proof.
  induction sl as [|s sl IH]; intros acc; simpl; [|rewrite IH]; reflexivity.
Qed.

Lemma timings_from_lookup timer (sl : list QuizSlide) : forall acc i s,
  sl !! i = Some s ->
  exists acc',
    timings_from timer acc sl !! i = Some (slide_timing timer acc' s).
Proof.
  induction sl as [|s0 sl IH]; intros acc i s H; [discriminate|].
  destruct i as [|i]; simpl in *.
  - injection H as ->. now exists acc.
  - now apply IH.
Qed.

Lemma timings_from_shape timer (sl : list QuizSlide) : forall acc i t,
  timings_from timer acc sl !! i = Some t ->
  exists acc' s, sl !! i = Some s /\ t = slide_timing timer acc' s.
Proof.
  induction sl as [|s0 sl IH]; intros acc i t H; [discriminate|].
  destruct i as [|i]; simpl in *.
  - injection H as <-. now exists acc, s0.
  - now apply IH in H.
Qed.

Lemma timings_from_contiguous timer (sl : list QuizSlide) : forall acc i t t',
  timings_from timer acc sl !! i = Some t ->
  timings_from timer acc sl !! S i = Some t' ->
  end_ t == start t'.
Proof.
  induction sl as [|s0 sl IH]; intros acc i t t' H H'; [discriminate|].
  destruct i as [|i]; simpl in *.
  - injection H as <-. destruct sl as [|s1 sl]; [discriminate|].
    simpl in H'. injection H' as <-. unfold slide_span. simpl. ring.
  - eapply IH; eauto.
Qed.

Lemma timings_from_last timer (sl : list QuizSlide) : forall acc tn,
  last (timings_from timer acc sl) = Some tn ->
  total_from timer acc sl == end_ tn.
Proof.
  induction sl as [|s0 sl IH]; intros acc tn H; [discriminate|].
  destruct sl as [|s1 sl].
  - simpl in *. injection H as <-. unfold slide_span. simpl. ring.
  - apply IH. exact H.
Qed.

Lemma slide_timing_ordered timer acc s :
  0 <= timer ->
  let t := slide_timing timer acc s in
  start t <= thinkingStart t /\ thinkingStart t <= revealStart t
  /\ revealStart t <= end_ t.
Proof.
  intros Ht. simpl.
  pose proof (qDur_of_pos s) as Hq.
  pose proof (Math_max_le_l 2000 (aDur_of s + 1000)) as Hm.
  repeat split; lra.
Qed.

(** In exact arithmetic the entry of every slide [i] spans, after its
    start, the question narration plus 500 ms up to the thinking phase,
    then the thinking time, then [max(2000, aDur + 1000)] up to its
    end. *)
Lemma exact_phase_spans (sl : list QuizSlide) (timer : Q) (i : nat)
  (s : QuizSlide) :
  sl !! i = Some s ->
  exists t, fst (buildTimeline sl timer) !! i = Some t
    /\ questionAudioDuration t = qDur_of s
    /\ answerAudioDuration t = aDur_of s
    /\ thinkingStart t - start t == qDur_of s + 500
    /\ revealStart t - thinkingStart t == timer * 1000
    /\ end_ t - revealStart t == Qmax 2000 (aDur_of s + 1000).
Proof.
  intros H. rewrite buildTimeline_eq. simpl.
  destruct (timings_from_lookup timer sl 0 i s H) as [acc Hacc].
  exists (slide_timing timer acc s). split; [exact Hacc|].
  rewrite <- Math_max_Qmax. simpl.
  repeat split; try reflexivity; ring.
Qed.

(** In exact arithmetic a timeline built for at least one slide, with
    a thinking time that is not negative, starts at 0, has one entry
    per slide, each entry ending where the next one starts, each entry
    ordered, and its total duration is the end of the last entry. *)
Lemma exact_timeline_contiguous (sl : list QuizSlide) (timer : Q) :
  0 <= timer -> sl <> [] ->
  let tl := buildTimeline sl timer in
  length (fst tl) = length sl
  /\ (exists t0, fst tl !! 0%nat = Some t0 /\ start t0 == 0)
  /\ (forall i t t', fst tl !! i = Some t -> fst tl !! S i = Some t' ->
        end_ t == start t')
  /\ (forall i t, fst tl !! i = Some t ->
        start t <= thinkingStart t /\ thinkingStart t <= revealStart t
        /\ revealStart t <= end_ t)
  /\ (exists tn, last (fst tl) = Some tn /\ snd tl == end_ tn).
Proof.
  intros Ht Hne. rewrite buildTimeline_eq. simpl.
  split; [apply timings_from_length|].
  split.
  { destruct sl as [|s sl]; [congruence|]. simpl.
    eexists. split; [reflexivity|]. simpl. reflexivity. }
  split; [apply timings_from_contiguous|].
  split.
  { intros i t Hi. apply timings_from_shape in Hi as (acc & s & _ & ->).
    now apply slide_timing_ordered. }
  destruct (last (timings_from timer 0 sl)) as [tn|] eqn:E.
  - exists tn. split; [reflexivity|]. now apply timings_from_last.
  - apply last_None in E. destruct sl; [congruence|discriminate].
Qed.

(** ** The timeline on double-precision numbers *)

(** The loop only appends: what it has pushed stays where it is. *)
Lemma double_loop_keeps timer (rest : list QuizSlide) :
  forall nt acc k t,
  nt !! k = Some t ->
  fst (Double.voiceover_loop timer rest nt acc) !! k = Some t.
Proof.
  induction rest as [|s rest IH]; intros nt acc k t H;
    cbn [Double.voiceover_loop]; [exact H|].
  unfold Double.voiceover_body. apply IH.
  now apply lookup_app_l_Some.
Qed.

(** The entry pushed for the slide at position [i] of [rest] has the
    boundaries the loop sums up for that slide. *)
Lemma double_loop_boundaries timer (rest : list QuizSlide) :
  forall nt acc i s,
  rest !! i = Some s ->
  exists t,
    fst (Double.voiceover_loop timer rest nt acc) !! (length nt + i)%nat
    = Some t
    /\ Double.phase_boundaries timer s t.
Proof.
  induction rest as [|s0 rest IH]; intros nt acc i s H; [discriminate|].
  cbn [Double.voiceover_loop]. unfold Double.voiceover_body.
  destruct i as [|i]; cbn in H.
  - injection H as ->. eexists. split.
    + apply double_loop_keeps.
      rewrite Nat.add_0_r, lookup_app_r, Nat.sub_diag by lia. reflexivity.
    + unfold Double.phase_boundaries, Double.qDur_of, Double.aDur_of.
      cbn. repeat split; reflexivity.
  - match goal with
    | |- context [Double.voiceover_loop timer rest ?nt' ?acc'] =>
        destruct (IH nt' acc' i s H) as (t & Ht & Hb)
    end.
    exists t. split; [|exact Hb].
    rewrite length_app in Ht. cbn [length] in Ht.
    now replace (length nt + S i)%nat with (length nt + 1 + i)%nat by lia.
Qed.

(** C1 as stated fails: with narrations of 25 samples the sums of the
    loop round, and on the first slide [end - revealStart] is not
    [max(2000, aDur + 1000)]. *)
Lemma C1_phase_spans_counterexample :
  ~ (forall i s,
       rounding_slides !! i = Some s ->
       exists t,
         fst (Double.buildTimeline rounding_slides 3) !! i = Some t
         /\ Double.phase_spans 3 s t).
Proof.
  intros H.
  destruct (H 0%nat (silent_slide "a" 50 (Some 50%Z)) eq_refl)
    as (t & Ht & _ & _ & H3).
  vm_compute in Ht. injection Ht as <-.
  vm_compute in H3. discriminate.
Qed.

(** C1, amended. In a built timeline the entry of every slide [i] has
    [thinkingStart = start + qDur + 500],
    [revealStart = thinkingStart + thinkingTimeMs] and
    [end = revealStart + max(2000, aDur + 1000)], each sum being the
    double-precision sum the loop evaluates from left to right, with
    [qDur] and [aDur] the decoded narration lengths or the 3000 ms and
    2000 ms fallbacks. *)
Theorem C1_phase_boundaries (sl : list QuizSlide) (timer : float) (i : nat)
  (s : QuizSlide) :
  sl !! i = Some s ->
  exists t, fst (Double.buildTimeline sl timer) !! i = Some t
    /\ Double.questionAudioDuration t = Double.qDur_of s
    /\ Double.answerAudioDuration t = Double.aDur_of s
    /\ Double.thinkingStart t
       = (Double.start t + Double.qDur_of s + 500)%float
    /\ Double.revealStart t = (Double.thinkingStart t + timer * 1000)%float
    /\ Double.end_ t
       = (Double.revealStart t
          + Double.Math_max 2000 (Double.aDur_of s + 1000))%float.
Proof.
  intros H. unfold Double.buildTimeline.
  destruct (double_loop_boundaries timer sl [] 0%float i s H)
    as (t & Ht & Hb).
  exists t. split; [exact Ht|exact Hb].
Qed.

Lemma C1_phase_boundaries_witness :
  exists t, fst (Double.buildTimeline rounding_slides 3) !! 1%nat = Some t
    /\ Double.questionAudioDuration t
       = Double.qDur_of (silent_slide "b" 50 (Some 50%Z))
    /\ Double.answerAudioDuration t
       = Double.aDur_of (silent_slide "b" 50 (Some 50%Z))
    /\ Double.thinkingStart t
       = (Double.start t
          + Double.qDur_of (silent_slide "b" 50 (Some 50%Z)) + 500)%float
    /\ Double.revealStart t = (Double.thinkingStart t + 3 * 1000)%float
    /\ Double.end_ t
       = (Double.revealStart t
          + Double.Math_max 2000
              (Double.aDur_of (silent_slide "b" 50 (Some 50%Z)) + 1000))%float.
Proof.
  apply (C1_phase_boundaries rounding_slides 3 1
           (silent_slide "b" 50 (Some 50%Z))).
  reflexivity.
Defined.

(** The spans of the second of these slides: the first two differ from
    what C1 states, the third agrees. *)
Example rounding_slides_second :
  exists t, fst (Double.buildTimeline rounding_slides 3) !! 1%nat = Some t
    /\ PrimFloat.eqb (Double.thinkingStart t - Double.start t)
         (Double.qDur_of (silent_slide "b" 50 (Some 50%Z)) + 500) = false
    /\ PrimFloat.eqb (Double.revealStart t - Double.thinkingStart t)
         (3 * 1000) = false
    /\ PrimFloat.eqb (Double.end_ t - Double.revealStart t)
         (Double.Math_max 2000
            (Double.aDur_of (silent_slide "b" 50 (Some 50%Z)) + 1000))
       = true.
Proof. vm_compute. eexists. repeat split; reflexivity. Qed.

(** C2 fails on the code. The loop computes the end of an entry as
    [accumulatedTime + qDur + 500 + thinkingDurMs + revealDurMs], summed
    from left to right, and the start of the next entry and the total
    as [accumulatedTime + (qDur + 500 + thinkingDurMs + revealDurMs)];
    on double-precision numbers the two can differ. With question
    narrations of 3, 1 and 3 samples and a thinking time of 3 s the
    second entry ends after the third starts; with 3, 1 and 1 samples
    and 5 s it ends before the third starts, and at the playhead of
    its end, which lies below the total duration, the slide search
    finds no slide; with 3 and 1 samples and 3 s the total duration is
    below the end of the last entry, and at the playhead of the total
    duration the slide search still finds the last slide. *)
Theorem C2_timeline_not_contiguous :
  (let tl := Double.buildTimeline overlap_slides 3 in
   exists t1 t2,
     fst tl !! 1%nat = Some t1 /\ fst tl !! 2%nat = Some t2
     /\ Double.ltb (Double.start t2) (Double.end_ t1) = true)
  /\ (let tl := Double.buildTimeline gap_slides 5 in
      exists t1 t2,
        fst tl !! 1%nat = Some t1 /\ fst tl !! 2%nat = Some t2
        /\ Double.ltb (Double.end_ t1) (Double.start t2) = true
        /\ Double.geb (Double.end_ t1) 0 = true
        /\ Double.ltb (Double.end_ t1) (snd tl) = true
        /\ Double.findActive 0 (fst tl) (Double.end_ t1) = None)
  /\ (let tl := Double.buildTimeline short_total_slides 3 in
      exists tn,
        last (fst tl) = Some tn
        /\ Double.ltb (snd tl) (Double.end_ tn) = true
        /\ Double.findActive 0 (fst tl) (snd tl) = Some (1%nat, tn)).
Proof.
  split; [|split]; vm_compute.
  - do 2 eexists. repeat split; reflexivity.
  - do 2 eexists. repeat split; reflexivity.
  - eexists. repeat split; reflexivity.
Qed.

Ltac decide_Qeq := unfold Qeq; simpl; lia.

(** Silence decodes to a buffer of one sample per two bytes. *)
Lemma Int16Array_silence n :
  Int16Array (repeat Byte.x00 (2 * n)) = Some (repeat 0%Z n).
Proof.
  induction n as [|n IH]; [reflexivity|].
  replace (2 * S n)%nat with (S (S (2 * n))) by lia.
  cbn [repeat Int16Array]. rewrite IH. reflexivity.
Qed.

Lemma decodePCM_silence n :
  (0 < n)%nat ->
  decodePCM (repeat Byte.x00 (2 * n))
  = Some (mkAudioBuffer (map (fun s => inject_Z s / 32768) (repeat 0%Z n))
            24000).
Proof.
  intros Hn. unfold decodePCM. rewrite Int16Array_silence, repeat_length.
  destruct n; [lia|]. reflexivity.
Qed.

Lemma silence_duration bytes n :
  bytes = (2 * n)%Z -> (0 < n)%Z ->
  match decodeVoice (Some (repeat Byte.x00 (Z.to_nat bytes))) with
  | Some buffer => duration buffer * 1000
  | None => 0
  end = inject_Z n / 24000 * 1000.
Proof.
  intros -> Hn. cbn [decodeVoice].
  replace (Z.to_nat (2 * n)) with (2 * Z.to_nat n)%nat by lia.
  rewrite decodePCM_silence by lia.
  unfold duration. cbn [channel sampleRate].
  rewrite length_map, repeat_length, Z2Nat.id by lia. reflexivity.
Qed.

Lemma qDur_silent name bytes n a :
  bytes = (2 * n)%Z -> (0 < n)%Z ->
  qDur_of (silent_slide name bytes a) = inject_Z n / 24000 * 1000.
Proof.
  intros Hb Hn. pose proof (silence_duration bytes n Hb Hn) as H.
  unfold qDur_of, silent_slide. cbn [questionAudio].
  destruct (decodeVoice (Some (repeat Byte.x00 (Z.to_nat bytes)))) eqn:E.
  - exact H.
  - exfalso. revert H. unfold Qdiv. intros H.
    assert (0 == inject_Z n * / 24000 * 1000) as H'
      by (rewrite <- H; reflexivity).
    assert (0 < inject_Z n)
      by (change 0 with (inject_Z 0); rewrite <- Zlt_Qlt; lia).
    change (/ 24000) with (1 # 24000) in H'. lra.
Qed.

Lemma aDur_silent name qb bytes n :
  bytes = (2 * n)%Z -> (0 < n)%Z ->
  aDur_of (silent_slide name qb (Some bytes)) = inject_Z n / 24000 * 1000.
Proof.
  intros Hb Hn. pose proof (silence_duration bytes n Hb Hn) as H.
  unfold aDur_of, silent_slide. cbn [answerAudio].
  destruct (decodeVoice (Some (repeat Byte.x00 (Z.to_nat bytes)))) eqn:E.
  - exact H.
  - exfalso. revert H. unfold Qdiv. intros H.
    assert (0 == inject_Z n * / 24000 * 1000) as H'
      by (rewrite <- H; reflexivity).
    assert (0 < inject_Z n)
      by (change 0 with (inject_Z 0); rewrite <- Zlt_Qlt; lia).
    change (/ 24000) with (1 # 24000) in H'. lra.
Qed.

Lemma aDur_absent name qb : aDur_of (silent_slide name qb None) = 2000.
Proof. reflexivity. Qed.

Lemma aDur_empty name qb : aDur_of (silent_slide name qb (Some 0%Z)) = 2000.
Proof. reflexivity. Qed.

(** The scenario's timeline, with the narration lengths in closed
    form; the slides are then kept abstract. *)
Ltac abstract_slide name qb ab Hq Ha :=
  match goal with
  | |- context [silent_slide name qb ab] =>
      let s := fresh "s" in
      set (s := silent_slide name qb ab) in *; clearbody s;
      rewrite ?Hq, ?Ha; clear Hq Ha; clear s
  | _ => clear Hq Ha
  end.

Ltac scenario_timeline :=
  rewrite buildTimeline_eq;
  unfold timeline_is, scenario_slides, scenario_slides_empty;
  cbn [fst snd timings_from total_from];
  unfold slide_timing, slide_span;
  let Hq := fresh "Hq" in
  let Ha := fresh "Ha" in
  pose proof (qDur_silent "s0" 192000 96000 (Some 72000%Z) eq_refl eq_refl)
    as Hq;
  pose proof (aDur_silent "s0" 192000 72000 36000 eq_refl eq_refl) as Ha;
  abstract_slide "s0" 192000%Z (Some 72000%Z) Hq Ha;
  pose proof (qDur_silent "s1" 144000 72000 None eq_refl eq_refl) as Hq;
  pose proof (aDur_absent "s1" 144000) as Ha;
  abstract_slide "s1" 144000%Z (@None Z) Hq Ha;
  pose proof (qDur_silent "s1" 144000 72000 (Some 0%Z) eq_refl eq_refl) as Hq;
  pose proof (aDur_empty "s1" 144000) as Ha;
  abstract_slide "s1" 144000%Z (Some 0%Z) Hq Ha;
  pose proof (qDur_silent "s2" 240000 120000 (Some 144000%Z) eq_refl eq_refl)
    as Hq;
  pose proof (aDur_silent "s2" 240000 144000 72000 eq_refl eq_refl) as Ha;
  abstract_slide "s2" 240000%Z (Some 144000%Z) Hq Ha.

(** C3 as stated fails: the second slide has no answer narration, so its
    reveal lasts [max(2000, 2000 + 1000) = 3000] ms and it ends at
    23500, not 22500. *)
Lemma C3_scenario_counterexample :
  ~ timeline_is (buildTimeline scenario_slides 5)
      [ (0, 4500, 9500, 12000);
        (12000, 15500, 20500, 22500);
        (22500, 28000, 33000, 37000) ]
      37000.
Proof.
  scenario_timeline. intros [H _].
  inversion H as [|? ? ? ? _ H1]; subst.
  inversion H1 as [|? ? ? ? H2 _]; subst.
  destruct H2 as (_ & _ & _ & He). revert He.
  cbn [end_]. vm_compute. discriminate.
Qed.

(** C3, amended. The scenario yields: slide 0 from 0, thinking at 4500,
    reveal at 9500, end 12000; slide 1 from 12000, thinking at 15500,
    reveal at 20500, end 23500; slide 2 from 23500, thinking at 29000,
    reveal at 34000, end 38000; the total duration is the last end,
    38000. *)
Theorem C3_scenario_timeline :
  timeline_is (buildTimeline scenario_slides 5)
    [ (0, 4500, 9500, 12000);
      (12000, 15500, 20500, 23500);
      (23500, 29000, 34000, 38000) ]
    38000.
Proof.
  scenario_timeline. split.
  - repeat constructor;
      cbn [start thinkingStart revealStart end_]; vm_compute; reflexivity.
  - vm_compute. reflexivity.
Qed.

(** An empty answer buffer does not decode either, and gives the same
    timeline. *)
Lemma scenario_empty_answer_timeline :
  timeline_is (buildTimeline scenario_slides_empty 5)
    [ (0, 4500, 9500, 12000);
      (12000, 15500, 20500, 23500);
      (23500, 29000, 34000, 38000) ]
    38000.
Proof.
  scenario_timeline. split.
  - repeat constructor;
      cbn [start thinkingStart revealStart end_]; vm_compute; reflexivity.
  - vm_compute. reflexivity.
Qed.

(** ** Difficulty counts *)

Lemma Math_round_nearest x :
  x - (1 # 2) < inject_Z (JS.Math_round x)
  /\ inject_Z (JS.Math_round x) <= x + (1 # 2).
Proof.
  unfold JS.Math_round. split.
  - pose proof (Qlt_floor (x + (1 # 2))) as H.
    rewrite inject_Z_plus in H. change (inject_Z 1) with 1 in H. lra.
  - apply Qfloor_le.
Qed.

(** In exact arithmetic [getCounts] gives, for percentages of positive
    sum, the easy and the medium count as the rounded shares of the
    question count, each within one half of the exact share, and the
    hard count as what is left of the question count, clamped below at
    zero. *)
Lemma exact_getCounts (diffEasy diffMedium diffHard questionCount : Q) :
  0 < diffEasy + diffMedium + diffHard ->
  let total := diffEasy + diffMedium + diffHard in
  let c := getCounts diffEasy diffMedium diffHard questionCount in
  easy c = inject_Z (JS.Math_round (diffEasy / total * questionCount))
  /\ medium c = inject_Z (JS.Math_round (diffMedium / total * questionCount))
  /\ hard c == Qmax 0 (questionCount - easy c - medium c)
  /\ 0 <= hard c
  /\ Qabs (easy c - diffEasy / total * questionCount) <= 1 # 2
  /\ Qabs (medium c - diffMedium / total * questionCount) <= 1 # 2.
Proof.
  intros Hpos total c. subst c. unfold getCounts. fold total.
  assert (JS.eqb total 0 = false) as ->.
  { unfold JS.eqb. destruct (Qeq_bool total 0) eqn:E; [|reflexivity].
    apply Qeq_bool_iff in E. unfold total in E. lra. }
  cbn [easy medium hard].
  set (e := inject_Z (JS.Math_round (diffEasy / total * questionCount))).
  set (m := inject_Z (JS.Math_round (diffMedium / total * questionCount))).
  split; [reflexivity|]. split; [reflexivity|].
  assert (forall x, Qabs (inject_Z (JS.Math_round x) - x) <= 1 # 2) as Habs.
  { intros x. destruct (Math_round_nearest x) as [H1 H2].
    apply Qabs_Qle_condition. split; lra. }
  destruct (JS.ltb (questionCount - e - m) 0) eqn:E.
  - apply ltb_lt in E. repeat split.
    + symmetry. apply Q.max_l. lra.
    + apply Qle_refl.
    + apply Habs.
    + apply Habs.
  - apply ltb_ge in E. repeat split.
    + symmetry. apply Q.max_r. exact E.
    + exact E.
    + apply Habs.
    + apply Habs.
Qed.

(** A number above zero is not zero. *)
Lemma double_positive_nonzero (x : float) :
  PrimFloat.ltb 0 x = true -> PrimFloat.eqb x 0 = false.
Proof.
  rewrite FloatAxioms.ltb_spec, FloatAxioms.eqb_spec. unfold SFltb, SFeqb.
  change (Prim2SF 0) with (S754_zero false).
  destruct (Prim2SF x) as [s|s| |s m e]; cbn; try discriminate;
    destruct s; cbn; intros H; try discriminate; reflexivity.
Qed.

(** C9 as stated fails: 29 percent of 50 questions is 14.5, which
    rounds to 15, but the code divides first, and the double-precision
    product [(29 / 100) * 50] is 14.499999999999998, which [Math.round]
    takes to 14; the hard count is 36 instead of 35. *)
Lemma C9_getCounts_counterexample :
  let c := Double.getCounts 0 29 71 50 in
  JS.Math_round (29 / (0 + 29 + 71) * 50) = 15%Z
  /\ ~ Double.same (Double.medium c)
         (Double.of_Z (JS.Math_round (29 / (0 + 29 + 71) * 50)))
  /\ Double.medium c = 14%float
  /\ Double.hard c = 36%float.
Proof.
  cbv zeta. split; [reflexivity|]. split; [|split].
  - unfold Double.same. vm_compute. discriminate.
  - vm_compute. reflexivity.
  - vm_compute. reflexivity.
Qed.

(** C9, amended. For percentages of positive sum, [getCounts] gives the
    easy and the medium count as [Math.round] of the double-precision
    value of [(percentage / total) * count], which need not be the
    exact share, and the hard count as the question count less the
    two, clamped below at zero: all rounding error goes to the hard
    count, which is never below zero. *)
Theorem C9_getCounts_rounds_doubles
  (diffEasy diffMedium diffHard questionCount : float) :
  PrimFloat.ltb 0 (diffEasy + diffMedium + diffHard) = true ->
  let total := (diffEasy + diffMedium + diffHard)%float in
  let c := Double.getCounts diffEasy diffMedium diffHard questionCount in
  Double.easy c = Double.Math_round (diffEasy / total * questionCount)
  /\ Double.medium c
     = Double.Math_round (diffMedium / total * questionCount)
  /\ Double.hard c
     = (let h := (questionCount - Double.easy c - Double.medium c)%float in
        if Double.ltb h 0 then 0%float else h)
  /\ Double.ltb (Double.hard c) 0 = false.
Proof.
  intros Hpos total c. subst c. unfold Double.getCounts. fold total.
  rewrite (double_positive_nonzero total Hpos).
  cbn [Double.easy Double.medium Double.hard].
  split; [reflexivity|]. split; [reflexivity|]. split; [reflexivity|].
  set (h := (questionCount - _ - _)%float).
  destruct (Double.ltb h 0) eqn:E; [reflexivity|exact E].
Qed.

Lemma C9_getCounts_rounds_doubles_witness :
  let c := Double.getCounts 0 29 71 50 in
  Double.easy c = Double.Math_round (0 / (0 + 29 + 71) * 50)
  /\ Double.medium c = Double.Math_round (29 / (0 + 29 + 71) * 50)
  /\ Double.hard c
     = (let h := (50 - Double.easy c - Double.medium c)%float in
        if Double.ltb h 0 then 0%float else h)
  /\ Double.ltb (Double.hard c) 0 = false.
Proof.
  apply (C9_getCounts_rounds_doubles 0 29 71 50). vm_compute. reflexivity.
Defined.

(** The clamp is reached: with shares 50, 50 and 0 of one question, both
    rounded shares are 1 and the remainder -1 becomes 0. *)
Example getCounts_clamped :
  let c := getCounts 50 50 0 1 in
  easy c == 1 /\ medium c == 1 /\ hard c == 0.
Proof. vm_compute. repeat split; reflexivity. Qed.

(** ** Rendering *)







Section Render.

Variables (p : Props) (a : Assets).
Hypothesis Hbuilt : built p a.
Hypothesis Htimer : 0 <= timerDuration p.

Lemma built_timings : timings a = timings_from (timerDuration p) 0 (slides p).
Proof. destruct Hbuilt as [H _]. now rewrite H, buildTimeline_eq. Qed.

Lemma built_slide i t : timings a !! i = Some t -> is_Some (slides p !! i).
Proof.
  rewrite built_timings. intros H.
  apply timings_from_shape in H as (_ & s & Hs & _). now exists s.
Qed.



End Render.

Section CrossFade.

Variables (p : Props) (a : Assets).
Hypothesis Hbuilt : built p a.
Hypothesis Htimer : 0 <= timerDuration p.

Lemma built_previous i t :
  timings a !! i = Some t -> is_Some (timings a !! (i - 1)%nat).
Proof.
  intros H. apply lookup_lt_is_Some. apply lookup_lt_Some in H. lia.
Qed.





End CrossFade.


(** ** The narration source *)

Lemma voice_inv_initial : voice_inv initial_player.
Proof. intros n (s & H & _). discriminate. Qed.

Lemma voice_inv_same st st' :
  sources st' = sources st -> voiceNodeRef st' = voiceNodeRef st ->
  voice_inv st -> voice_inv st'.
Proof.
  intros Hs Hv H n (s & Hn & Hk & Hso). rewrite Hv. apply H.
  exists s. now rewrite <- Hs.
Qed.

(** Changing one source without making it sound keeps the invariant. *)
Lemma voice_inv_alter (f : SourceNode -> SourceNode) n st :
  (forall s, kind (f s) = kind s) ->
  (forall s, sounding (f s) = true -> sounding s = true) ->
  voice_inv st -> voice_inv (set_sources (alter f n (sources st)) st).
Proof.
  intros Hk Hs H m (s & Hm & Hv & Hso). cbn [sources set_sources] in Hm.
  change (voiceNodeRef (set_sources _ st)) with (voiceNodeRef st).
  apply H. destruct (decide (n = m)) as [->|Hne].
  - rewrite list_lookup_alter_eq in Hm.
    destruct (sources st !! m) as [s0|] eqn:E; cbn in Hm; [|discriminate].
    injection Hm as <-. exists s0.
    rewrite Hk in Hv. split; [assumption|]. split; [assumption|]. now apply Hs.
  - rewrite list_lookup_alter_ne in Hm by assumption. now exists s.
Qed.

Lemma voice_inv_stop n st : voice_inv st -> voice_inv (stop_source n st).
Proof.
  intros H. unfold stop_source.
  apply (voice_inv_same
           (set_sources
              (alter (fun s => mkSourceNode (kind s) (loop s) false) n
                 (sources st)) st)); [reflexivity|reflexivity|].
  apply voice_inv_alter; [| |exact H]; intros s; simpl; congruence.
Qed.

Lemma voice_inv_ended n st : voice_inv st -> voice_inv (source_ended n st).
Proof.
  intros H. unfold source_ended. apply voice_inv_alter; [| |exact H].
  - intros s. now destruct (loop s).
  - intros s. destruct (loop s); [tauto|simpl; congruence].
Qed.

(** A new source that is not a narration keeps the invariant. *)
Lemma voice_inv_append k lp st :
  is_voice k = false -> voice_inv st ->
  voice_inv (set_sources (sources st ++ [mkSourceNode k lp true]) st).
Proof.
  intros Hk H m (s & Hm & Hv & Hso). cbn [sources set_sources] in Hm.
  change (voiceNodeRef (set_sources _ st)) with (voiceNodeRef st).
  apply H. exists s. split; [|tauto].
  destruct (decide (m < length (sources st))%nat) as [Hlt|Hge].
  - now rewrite lookup_app_l in Hm.
  - rewrite lookup_app_r in Hm by lia.
    destruct (m - length (sources st))%nat; simpl in Hm; [|discriminate].
    injection Hm as <-. simpl in Hv. congruence.
Qed.

(** After stopping the held source, no narration source is sounding. *)
Lemma stop_held_silent st :
  voice_inv st ->
  let st1 := match voiceNodeRef st with
             | Some n => stop_source n st
             | None => st
             end in
  forall m, ~ sounding_voice st1 m.
Proof.
  intros H st1 m (s & Hm & Hv & Hso). subst st1.
  destruct (voiceNodeRef st) as [n|] eqn:E.
  - unfold stop_source, emit in Hm. cbn [sources set_sources set_log] in Hm.
    destruct (decide (n = m)) as [->|Hne].
    + rewrite list_lookup_alter_eq in Hm.
      destruct (sources st !! m); cbn in Hm; [|discriminate].
      injection Hm as <-. simpl in Hso. discriminate.
    + rewrite list_lookup_alter_ne in Hm by assumption.
      assert (voiceNodeRef st = Some m) by (apply H; now exists s). congruence.
  - assert (voiceNodeRef st = Some m) by (apply H; now exists s). congruence.
Qed.

Lemma stop_held_fields st :
  let st1 := match voiceNodeRef st with
             | Some n => stop_source n st
             | None => st
             end in
  length (sources st1) = length (sources st)
  /\ voiceNodeRef st1 = voiceNodeRef st
  /\ currentAudioTrackRef st1 = currentAudioTrackRef st.
Proof.
  destruct (voiceNodeRef st) eqn:E; simpl; rewrite ?E; [|tauto].
  rewrite length_alter. tauto.
Qed.

(** [playVoiceTrack], when it starts a source: that source is the only
    narration sounding, it is held in [voiceNodeRef], and the marker
    names its slide and track. *)
Lemma playVoiceTrack_started a i ty off st buffer :
  voice_inv st ->
  audioGraph a <> None ->
  bufferMap a ty !! i = Some buffer ->
  off / 1000 < duration buffer ->
  let st' := playVoiceTrack a i ty off st in
  voiceNodeRef st' = Some (length (sources st))
  /\ currentAudioTrackRef st' = Some (i, ty)
  /\ sounding_voice st' (length (sources st))
  /\ forall m, sounding_voice st' m -> m = length (sources st).
Proof.
  intros Hinv Hg Hb Hoff. unfold playVoiceTrack. unfold bufferMap in Hb.
  destruct (audioGraph a); [|congruence]. rewrite Hb.
  apply ltb_lt in Hoff. rewrite Hoff.
  set (st0 := emit (CallPlayVoiceTrack i ty off) st).
  assert (voice_inv st0) as Hinv0 by (now apply (voice_inv_same st)).
  pose proof (stop_held_silent st0 Hinv0) as Hsilent.
  pose proof (stop_held_fields st0) as (Hlen & _ & _).
  cbn zeta in Hsilent, Hlen.
  set (st1 := match voiceNodeRef st0 with
              | Some n => stop_source n st0
              | None => st0
              end) in *.
  change (length (sources st0)) with (length (sources st)) in Hlen.
  unfold start_source, emit. cbn. rewrite Hlen.
  split; [reflexivity|]. split; [reflexivity|]. split.
  - exists (mkSourceNode (VoiceSource i ty) false true).
    split; [|split; reflexivity]. cbn. rewrite <- Hlen.
    now rewrite lookup_app_r, Nat.sub_diag by lia.
  - intros m (s & Hm & Hv & Hso). cbn in Hm.
    destruct (decide (m < length (sources st1))%nat) as [Hlt|Hge].
    + rewrite lookup_app_l in Hm by assumption.
      exfalso. apply (Hsilent m). now exists s.
    + apply lookup_lt_Some in Hm. rewrite length_app in Hm. simpl in Hm. lia.
Qed.

Lemma voice_inv_playVoiceTrack a i ty off st :
  voice_inv st -> voice_inv (playVoiceTrack a i ty off st).
Proof.
  intros Hinv.
  set (st0 := emit (CallPlayVoiceTrack i ty off) st).
  assert (voice_inv st0) as Hinv0 by (now apply (voice_inv_same st)).
  destruct (audioGraph a) as [g|] eqn:Eg;
    [|unfold playVoiceTrack; now rewrite Eg].
  destruct (bufferMap a ty !! i) as [buffer|] eqn:Eb;
    [|unfold playVoiceTrack; unfold bufferMap in Eb; now rewrite Eg, Eb].
  destruct (JS.ltb (off / 1000) (duration buffer)) eqn:Eoff.
  - apply ltb_lt in Eoff.
    assert (audioGraph a <> None) as Hg by congruence.
    destruct (playVoiceTrack_started a i ty off st buffer Hinv Hg Eb Eoff)
      as (Hv & _ & _ & Honly).
    intros m Hm. rewrite Hv. f_equal. symmetry. now apply Honly.
  - unfold playVoiceTrack. unfold bufferMap in Eb.
    rewrite Eg, Eb, Eoff. fold st0.
    destruct (voiceNodeRef st0); [now apply voice_inv_stop|assumption].
Qed.

(** Preservation of the invariant by the rest of the player: case
    analysis on the code, one primitive at a time. *)
Ltac voice_step :=
  match goal with
  | H : voice_inv ?s |- voice_inv ?s => exact H
  | |- voice_inv (let '(_, _) := start_source _ _ _ _ in _) =>
      unfold start_source
  | |- voice_inv (snd (start_source _ _ _ _)) =>
      unfold start_source; cbn [snd]
  | |- voice_inv (match ?x with _ => _ end) => destruct x eqn:?
  | |- voice_inv (stop_source _ _) => apply voice_inv_stop
  | |- voice_inv (source_ended _ _) => apply voice_inv_ended
  | |- voice_inv (playVoiceTrack _ _ _ _ _) => apply voice_inv_playVoiceTrack
  | |- voice_inv (set_sources (sources _ ++ [mkSourceNode _ _ true]) _) =>
      apply voice_inv_append; [reflexivity|]
  | |- voice_inv (?f _ ?st) =>
      apply (voice_inv_same st); [reflexivity|reflexivity|]
  end.

Ltac voice_auto := repeat voice_step.

Lemma voice_inv_startBgMusic a off st :
  voice_inv st -> voice_inv (startBgMusic a off st).
Proof. intros H. unfold startBgMusic. voice_auto. Qed.

Lemma voice_inv_playTickSound p a ty st :
  voice_inv st -> voice_inv (playTickSound p a ty st).
Proof. intros H. unfold playTickSound. voice_auto. Qed.

Lemma voice_inv_drawSlideState p a playing i localTime alpha st :
  voice_inv st -> voice_inv (drawSlideState p a playing i localTime alpha st).
Proof.
  intros H. unfold drawSlideState.
  destruct (slides p !! i), (timings a !! i); try exact H.
  cbv zeta.
  repeat first
    [ voice_step
    | apply voice_inv_playTickSound ].
Qed.

Lemma voice_inv_renderFrame p a playing time st :
  voice_inv st -> voice_inv (renderFrame p a playing time st).
Proof.
  intros H. unfold renderFrame.
  repeat first
    [ apply voice_inv_drawSlideState
    | voice_step ].
Qed.

Lemma voice_inv_audioSync a next st :
  voice_inv st -> voice_inv (audioSync a next st).
Proof. intros H. unfold audioSync. voice_auto. Qed.

Lemma voice_inv_animate a timestamp st :
  voice_inv st -> voice_inv (animate a timestamp st).
Proof.
  intros H. unfold animate.
  repeat first [ apply voice_inv_audioSync | voice_step ].
Qed.

Lemma voice_inv_togglePlay a playing time now st :
  voice_inv st -> voice_inv (togglePlay a playing time now st).
Proof.
  intros H. unfold togglePlay.
  repeat first [ apply voice_inv_startBgMusic | voice_step ].
Qed.

Lemma voice_inv_reset p a playing st :
  voice_inv st -> voice_inv (reset p a playing st).
Proof.
  intros H. unfold reset.
  repeat first [ apply voice_inv_renderFrame | voice_step ].
Qed.

Lemma voice_inv_step p a act st :
  voice_inv st -> voice_inv (player_step p a act st).
Proof.
  intros H. destruct act; cbn [player_step].
  - now apply voice_inv_animate.
  - now apply voice_inv_renderFrame.
  - now apply voice_inv_togglePlay.
  - now apply voice_inv_reset.
  - unfold seek.
    repeat first [ apply voice_inv_renderFrame | voice_step ].
  - unfold startRecording.
    repeat first [ apply voice_inv_reset | voice_step ].
  - repeat first [ apply voice_inv_togglePlay | voice_step ].
  - unfold stopRecording.
    repeat first [ apply voice_inv_togglePlay | voice_step ].
  - unfold recorder_onstop. voice_auto.
  - unfold toggleMute. voice_auto.
  - now apply voice_inv_ended.
Qed.

Lemma voice_inv_run p a acts : forall st,
  voice_inv st -> voice_inv (player_run p a acts st).
Proof.
  induction acts as [|act acts IH]; intros st H; [exact H|].
  apply IH. now apply voice_inv_step.
Qed.

(** ** Rendering leaves the narration alone *)

Lemma count_cmds_snoc f l c :
  count_cmds f (l ++ [c]) = (count_cmds f l + if f c then 1 else 0)%nat.
Proof.
  unfold count_cmds. rewrite List.filter_app, length_app. simpl.
  now destruct (f c).
Qed.

Lemma quiet_refl st : quiet st st.
Proof. unfold quiet. repeat split; reflexivity. Qed.

Lemma quiet_same st st1 st2 :
  currentAudioTrackRef st2 = currentAudioTrackRef st1 ->
  voiceNodeRef st2 = voiceNodeRef st1 ->
  sources st2 = sources st1 ->
  log st2 = log st1 ->
  isPlaying st2 = isPlaying st1 ->
  currentTime st2 = currentTime st1 ->
  previousTimeRef st2 = previousTimeRef st1 ->
  quiet st st1 -> quiet st st2.
Proof.
  intros E1 E2 E3 E4 E5 E6 E7 H. unfold quiet.
  rewrite E1, E2, E3, E4, E5, E6, E7. exact H.
Qed.

Lemma quiet_emit c st st1 :
  voice_start c = false -> voice_call c = false ->
  quiet st st1 -> quiet st (emit c st1).
Proof.
  intros Hs Hc (H1 & H2 & H3 & H4 & H5 & H6). unfold emit. repeat split;
    cbn [currentAudioTrackRef voiceNodeRef sources log set_log
           isPlaying currentTime previousTimeRef];
    rewrite ?count_cmds_snoc, ?Hs, ?Hc, ?Nat.add_0_r; tauto.
Qed.

Lemma quiet_append x st st1 :
  quiet st st1 -> quiet st (set_sources (sources st1 ++ [x]) st1).
Proof.
  intros (H1 & H2 & H3 & H4 & H5 & H6). repeat split; try tauto.
  cbn [sources set_sources]. now apply prefix_app_r.
Qed.

Ltac quiet_step :=
  match goal with
  | |- quiet ?s ?s => apply quiet_refl
  | H : quiet ?s ?s1 |- quiet ?s ?s1 => exact H
  | |- quiet _ (let '(_, _) := start_source _ _ _ _ in _) =>
      unfold start_source
  | |- quiet _ (snd (start_source _ _ _ _)) =>
      unfold start_source; cbn [snd]
  | |- quiet _ (match ?x with _ => _ end) => destruct x eqn:?
  | |- quiet _ (emit _ _) => apply quiet_emit; [reflexivity|reflexivity|]
  | |- quiet _ (set_sources (sources ?s1 ++ [_]) ?s1) => apply quiet_append
  | |- quiet ?s (?f _ ?s1) =>
      apply (quiet_same s s1); [reflexivity..|]
  end.

Lemma quiet_playTickSound p a ty st st1 :
  quiet st st1 -> quiet st (playTickSound p a ty st1).
Proof. intros H. unfold playTickSound. repeat quiet_step. Qed.

Lemma quiet_drawSlideState p a playing i localTime alpha st st1 :
  quiet st st1 ->
  quiet st (drawSlideState p a playing i localTime alpha st1).
Proof.
  intros H. unfold drawSlideState.
  destruct (slides p !! i), (timings a !! i); try exact H.
  cbv zeta. repeat first [ apply quiet_playTickSound | quiet_step ].
Qed.

Lemma quiet_renderFrame p a playing time st st1 :
  quiet st st1 -> quiet st (renderFrame p a playing time st1).
Proof.
  intros H. unfold renderFrame.
  repeat first [ apply quiet_drawSlideState | quiet_step ].
Qed.

(** ** One tick of the animation loop *)

#[local] Arguments count_cmds : simpl never.

Lemma track_differs_false cur i ty :
  track_differs cur i ty = false <-> cur = Some (i, ty).
Proof.
  unfold track_differs. destruct cur as [[j ty']|]; [|split; discriminate].
  destruct (Nat.eqb_spec j i) as [->|Hne]; simpl.
  - destruct ty', ty; split; congruence.
  - split; [discriminate|]. intros [= -> _]. congruence.
Qed.

(** [playVoiceTrack] logs its call; it starts at most one source, and
    when it does the marker names the started track; otherwise the
    marker is unchanged. *)
Lemma playVoiceTrack_effect a i ty off st :
  let st' := playVoiceTrack a i ty off st in
  count_cmds voice_call (log st') = S (count_cmds voice_call (log st))
  /\ isPlaying st' = isPlaying st
  /\ ((count_cmds voice_start (log st') = count_cmds voice_start (log st)
       /\ currentAudioTrackRef st' = currentAudioTrackRef st)
      \/ (count_cmds voice_start (log st')
          = S (count_cmds voice_start (log st))
          /\ currentAudioTrackRef st' = Some (i, ty))).
Proof.
  unfold playVoiceTrack, start_source, stop_source, emit.
  destruct (audioGraph a);
    [|simpl; rewrite !count_cmds_snoc; simpl;
      split; [lia|]; split; [reflexivity|]; left; split; [lia|reflexivity]].
  destruct (_ !! i) as [buffer|];
    [|simpl; rewrite !count_cmds_snoc; simpl;
      split; [lia|]; split; [reflexivity|]; left; split; [lia|reflexivity]].
  cbn [voiceNodeRef set_log].
  destruct (voiceNodeRef st), (JS.ltb (off / 1000) (duration buffer));
    simpl; rewrite !count_cmds_snoc; simpl;
    (split; [lia|split; [reflexivity|]]);
    first [ left; split; [lia|reflexivity] | right; split; [lia|reflexivity] ].
Qed.

(** When the buffer of the track is absent the call does nothing but
    log itself. *)
Lemma playVoiceTrack_absent a i ty off st :
  bufferMap a ty !! i = None ->
  playVoiceTrack a i ty off st = emit (CallPlayVoiceTrack i ty off) st.
Proof.
  intros H. unfold playVoiceTrack. unfold bufferMap in H.
  destruct (audioGraph a); [|reflexivity]. now rewrite H.
Qed.

Lemma tick_phase_Some a ts st i ph :
  tick_phase a ts st = Some (i, ph) ->
  let next := currentTime st + (ts - previousTimeRef st) in
  isPlaying st = true
  /\ JS.geb next (totalDuration a) = false
  /\ exists t, findActive 0 (timings a) next = Some (i, t)
       /\ phase_of t next = ph.
Proof.
  unfold tick_phase. destruct (isPlaying st); [|discriminate].
  destruct (JS.geb _ (totalDuration a)); [discriminate|].
  destruct (findActive 0 (timings a) _) as [[j t]|]; [|discriminate].
  intros [= -> <-]. repeat split. now exists t.
Qed.

Lemma phase_of_cases t next :
  match phase_of t next with
  | Reading => JS.ltb next (thinkingStart t) = true
  | Thinking => JS.ltb next (thinkingStart t) = false
                /\ JS.geb next (revealStart t) = false
  | Revealing => JS.ltb next (thinkingStart t) = false
                 /\ JS.geb next (revealStart t) = true
  end.
Proof.
  unfold phase_of. destruct (JS.ltb next (thinkingStart t)); [reflexivity|].
  destruct (JS.geb next (revealStart t)); split; reflexivity.
Qed.

(** A tick that does not synchronise the narration. *)
Lemma animate_no_sync a ts st :
  tick_phase a ts st = None ->
  let st' := animate a ts st in
  currentAudioTrackRef st' = currentAudioTrackRef st
  /\ count_cmds voice_start (log st') = count_cmds voice_start (log st).
Proof.
  unfold tick_phase, animate. destruct (isPlaying st); [|split; reflexivity].
  destruct (JS.geb _ (totalDuration a)).
  - intros _. unfold stop_source, emit. cbn [bgMusicNodeRef set_isPlaying].
    destruct (bgMusicNodeRef st); simpl; rewrite ?count_cmds_snoc; simpl;
      split; try reflexivity; lia.
  - unfold audioSync.
    destruct (findActive 0 (timings a) _) as [[j t]|]; [discriminate|].
    split; reflexivity.
Qed.

(** A tick that synchronises the narration for slide [i] in phase [ph]:
    with a matching marker nothing is called; otherwise at most one
    source is started, and then the marker matches. *)
Lemma animate_sync a ts st i ph :
  tick_phase a ts st = Some (i, ph) ->
  let st' := animate a ts st in
  (marker_matches (currentAudioTrackRef st) i ph ->
   count_cmds voice_start (log st') = count_cmds voice_start (log st)
   /\ currentAudioTrackRef st' = currentAudioTrackRef st)
  /\ ((count_cmds voice_start (log st') = count_cmds voice_start (log st)
       /\ currentAudioTrackRef st' = currentAudioTrackRef st)
      \/ (count_cmds voice_start (log st')
          = S (count_cmds voice_start (log st))
          /\ marker_matches (currentAudioTrackRef st') i ph)).
Proof.
  intros H. apply tick_phase_Some in H as (Hp & Hend & t & Hact & Hph).
  cbv zeta in *. unfold animate. rewrite Hp, Hend.
  unfold audioSync. rewrite Hact.
  pose proof (phase_of_cases t (currentTime st + (ts - previousTimeRef st)))
    as Hc. rewrite Hph in Hc.
  cbn [currentAudioTrackRef log set_previousTimeRef set_currentTime].
  destruct ph.
  - rewrite Hc.
    destruct (track_differs (currentAudioTrackRef st) i question_track) eqn:Ed.
    + split.
      * intros Hm. simpl in Hm. apply track_differs_false in Hm. congruence.
      * match goal with
        | |- context [playVoiceTrack ?a ?i ?ty ?off ?s] =>
            destruct (playVoiceTrack_effect a i ty off s) as (_ & _ & [Hq|Hq])
        end; [left|right]; exact Hq.
    + split; [intros _|left]; split; reflexivity.
  - destruct Hc as [-> ->]. split; [intros []|left; split; reflexivity].
  - destruct Hc as [-> ->].
    destruct (track_differs (currentAudioTrackRef st) i answer_track) eqn:Ed.
    + split.
      * intros Hm. simpl in Hm. apply track_differs_false in Hm. congruence.
      * match goal with
        | |- context [playVoiceTrack ?a ?i ?ty ?off ?s] =>
            destruct (playVoiceTrack_effect a i ty off s) as (_ & _ & [Hq|Hq])
        end; [left|right]; exact Hq.
    + split; [intros _|left]; split; reflexivity.
Qed.

Lemma same_phase_bound p a i ph acts : forall st,
  same_phase_ticks p a acts st i ph ->
  let st' := player_run p a acts st in
  (marker_matches (currentAudioTrackRef st) i ph ->
   count_cmds voice_start (log st') = count_cmds voice_start (log st))
  /\ (count_cmds voice_start (log st')
      <= count_cmds voice_start (log st) + 1)%nat.
Proof.
  induction acts as [|act acts IH]; intros st H; cbn [player_run].
  { split; [reflexivity|lia]. }
  destruct H as [Hact Hrest]. specialize (IH _ Hrest).
  cbv zeta in IH. destruct IH as [IHm IHb].
  destruct act; try contradiction; cbn [player_step] in *.
  - destruct (tick_phase a timestamp st) as [x|] eqn:Et.
    + subst x. destruct (animate_sync a timestamp st i ph Et) as [Hm Hb].
      cbv zeta in Hm, Hb. split.
      * intros Hmatch. destruct (Hm Hmatch) as [Hc Hk].
        rewrite IHm by (now rewrite Hk). exact Hc.
      * destruct Hb as [[Hc Hk]|[Hc Hk]].
        -- lia.
        -- rewrite (IHm Hk). lia.
    + destruct (animate_no_sync a timestamp st Et) as [Hk Hc].
      cbv zeta in Hk, Hc. rewrite Hk in IHm. split.
      * intros Hmatch. rewrite (IHm Hmatch). exact Hc.
      * lia.
  - destruct (quiet_renderFrame p a (isPlaying st) (currentTime st) st st
                (quiet_refl st)) as (Hk & _ & _ & Hc & _).
    rewrite Hk in IHm. split.
    + intros Hmatch. rewrite (IHm Hmatch). exact Hc.
    + lia.
Qed.

(** C4. At every point a run of the player can reach, at most one
    narration source is sounding. Whenever [playVoiceTrack] starts a
    source, that source is the only narration sounding afterwards, it is
    the one held in [voiceNodeRef], and the marker names its slide and
    track. Over any stretch of ticks and renderings whose ticks all
    synchronise the narration for the same slide and phase, at most one
    narration source is started. *)
Theorem C4_single_narration (p : Props) (a : Assets) :
  (forall acts n m,
      let st := player_run p a acts initial_player in
      sounding_voice st n -> sounding_voice st m -> n = m)
  /\ (forall acts i ty off buffer,
         let st := player_run p a acts initial_player in
         audioGraph a <> None ->
         bufferMap a ty !! i = Some buffer ->
         off / 1000 < duration buffer ->
         let st' := playVoiceTrack a i ty off st in
         voiceNodeRef st' = Some (length (sources st))
         /\ currentAudioTrackRef st' = Some (i, ty)
         /\ sounding_voice st' (length (sources st))
         /\ forall m, sounding_voice st' m -> m = length (sources st))
  /\ (forall acts st i ph,
         same_phase_ticks p a acts st i ph ->
         (count_cmds voice_start (log (player_run p a acts st))
          <= count_cmds voice_start (log st) + 1)%nat).
Proof.
  split; [|split].
  - intros acts n m st Hn Hm.
    pose proof (voice_inv_run p a acts _ voice_inv_initial) as Hinv.
    fold st in Hinv. pose proof (Hinv n Hn). pose proof (Hinv m Hm).
    congruence.
  - intros acts i ty off buffer st Hg Hb Hoff.
    apply (playVoiceTrack_started a i ty off st buffer); try assumption.
    apply voice_inv_run, voice_inv_initial.
  - intros acts st i ph H.
    now destruct (same_phase_bound p a i ph acts st H).
Qed.

(** ** Ticks in the Revealing phase without an answer buffer *)

Lemma animate_revealing_absent a ts st i :
  tick_phase a ts st = Some (i, Revealing) ->
  answerBuffersRef a !! i = None ->
  currentAudioTrackRef st = Some (i, question_track) ->
  exists off,
    animate a ts st
    = set_previousTimeRef ts
        (set_currentTime (currentTime st + (ts - previousTimeRef st))
           (emit (CallPlayVoiceTrack i answer_track off) st)).
Proof.
  intros H Hb Hm. apply tick_phase_Some in H as (Hp & Hend & t & Hact & Hph).
  cbv zeta in *. unfold animate. rewrite Hp, Hend.
  unfold audioSync. rewrite Hact.
  pose proof (phase_of_cases t (currentTime st + (ts - previousTimeRef st)))
    as Hc. rewrite Hph in Hc. destruct Hc as [-> ->].
  rewrite Hm. cbn [track_differs]. rewrite orb_true_r.
  rewrite playVoiceTrack_absent by exact Hb.
  now eexists.
Qed.

Lemma revealing_absent_run p a i acts : forall st,
  answerBuffersRef a !! i = None ->
  currentAudioTrackRef st = Some (i, question_track) ->
  ticks_in_phase p a acts st i Revealing ->
  let st' := player_run p a acts st in
  currentAudioTrackRef st' = Some (i, question_track)
  /\ voiceNodeRef st' = voiceNodeRef st
  /\ sources st `prefix_of` sources st'
  /\ count_cmds voice_start (log st') = count_cmds voice_start (log st)
  /\ count_cmds voice_call (log st')
     = (count_cmds voice_call (log st)
        + length (List.filter is_animate acts))%nat.
Proof.
  induction acts as [|act acts IH]; intros st Hb Hm H; cbn [player_run].
  { cbv zeta. split; [assumption|]. split; [reflexivity|].
    split; [reflexivity|]. split; [reflexivity|]. simpl. lia. }
  destruct H as [Hact Hrest].
  destruct act; try contradiction; cbn [player_step] in *.
  - destruct (animate_revealing_absent a timestamp st i Hact Hb Hm)
      as [off Eq].
    rewrite Eq in *.
    pose proof (fun Hm' => IH _ Hb Hm' Hrest) as IH'.
    destruct (IH' Hm) as (H1 & H2 & H3 & H4 & H5).
    cbv zeta. cbn [List.filter is_animate length].
    repeat split; try assumption.
    + rewrite H4. unfold emit. simpl. rewrite count_cmds_snoc. simpl. lia.
    + rewrite H5. unfold emit. simpl. rewrite count_cmds_snoc. simpl. lia.
  - destruct (quiet_renderFrame p a (isPlaying st) (currentTime st) st st
                (quiet_refl st)) as (Hk & Hv & Hs & Hc1 & Hc2 & _).
    assert (currentAudioTrackRef
              (renderFrame p a (isPlaying st) (currentTime st) st)
            = Some (i, question_track)) as Hm' by congruence.
    pose proof (fun Hm' => IH _ Hb Hm' Hrest) as IH'.
    destruct (IH' Hm') as (H1 & H2 & H3 & H4 & H5).
    cbv zeta. cbn [List.filter is_animate].
    repeat split; try congruence.
    etransitivity; eassumption.
Qed.

(** C10. When the buffer of the requested narration track is absent,
    [playVoiceTrack] returns after logging its call: no source is
    stopped or started and the marker is left as it is. In particular,
    over the ticks of the Revealing phase of a slide without answer
    buffer, entered with the marker naming the slide's question track,
    the marker keeps naming the question track, the held source and all
    existing sources stay as they are, nothing is started, and
    [playVoiceTrack] is called once on every tick. *)
Theorem C10_absent_buffer (p : Props) (a : Assets) :
  (forall i ty off st,
      bufferMap a ty !! i = None ->
      playVoiceTrack a i ty off st = emit (CallPlayVoiceTrack i ty off) st)
  /\ (forall acts st i,
         answerBuffersRef a !! i = None ->
         currentAudioTrackRef st = Some (i, question_track) ->
         ticks_in_phase p a acts st i Revealing ->
         let st' := player_run p a acts st in
         currentAudioTrackRef st' = Some (i, question_track)
         /\ voiceNodeRef st' = voiceNodeRef st
         /\ sources st `prefix_of` sources st'
         /\ count_cmds voice_start (log st') = count_cmds voice_start (log st)
         /\ count_cmds voice_call (log st')
            = (count_cmds voice_call (log st)
               + length (List.filter is_animate acts))%nat).
Proof.
  split.
  - intros i ty off st H. now apply playVoiceTrack_absent.
  - intros acts st i Hb Hm H. now apply revealing_absent_run.
Qed.

(** ** The end cue across the cross-fade *)

(** C5 fails on the code. Playing the demo through the reveal of its
    first slide and into the second slide, the ticks enter a Revealing
    phase once, yet [playTickSound('end')] is called twice: on entering
    the reveal, and again on the first frame of the next slide, whose
    tick re-arms [lastTickTimeRef] while the cross-fade still draws the
    revealed previous slide. *)
Theorem C5_end_cue_repeated_in_crossfade :
  let st := player_run demo_props demo_assets crossfade_acts initial_player in
  tick_phases demo_props demo_assets crossfade_acts initial_player
  = [ Some (0%nat, Thinking); Some (0%nat, Revealing);
      Some (0%nat, Revealing); Some (1%nat, Reading);
      Some (1%nat, Reading) ]
  /\ revealing_entries None
       (tick_phases demo_props demo_assets crossfade_acts initial_player)
     = 1%nat
  /\ count_cmds end_cue_call (log st) = 2%nat.
Proof. vm_compute. repeat split; reflexivity. Qed.

(** The second call comes with the first frame of the second slide. *)
Lemma end_cue_before_crossfade :
  count_cmds end_cue_call
    (log (player_run demo_props demo_assets
            (ClickTogglePlay 0 :: frames [3400; 3600; 5400]) initial_player))
  = 1%nat.
Proof. vm_compute. reflexivity. Qed.

(** ** Stopping an export *)

Lemma stopRecording_toggles a now st :
  mediaRecorderRef st = Some recording ->
  let st' := stopRecording a now st in
  mediaRecorderRef st' = Some inactive
  /\ isPlaying st' = negb (isPlaying st).
Proof.
  intros H. unfold stopRecording, togglePlay, startBgMusic, start_source,
    stop_source, emit. rewrite H.
  destruct st; cbn.
  repeat match goal with
         | |- context [match ?x with _ => _ end] => destruct x; cbn
         end;
    split; reflexivity.
Qed.

(** C7 fails on the code. In an export of the demo that has played to
    its end, the player has stopped by itself while the recording is
    still active; stopping the export then stops the recorder but
    toggles the player back to playing. *)
Theorem C7_stop_export_resumes_playback :
  let before :=
    player_run demo_props demo_assets export_playback initial_player in
  let after := player_run demo_props demo_assets export_acts initial_player in
  isPlaying before = false
  /\ mediaRecorderRef before = Some recording
  /\ isRecording before = true
  /\ after = player_step demo_props demo_assets (ClickStopRecording 14000)
               before
  /\ mediaRecorderRef after = Some inactive
  /\ isPlaying after = true.
Proof. vm_compute. repeat split; reflexivity. Qed.

(** While the player is playing, stopping the export does pause it. *)
Lemma stopRecording_while_playing a now st :
  mediaRecorderRef st = Some recording -> isPlaying st = true ->
  isPlaying (stopRecording a now st) = false.
Proof.
  intros H Hp. destruct (stopRecording_toggles a now st H) as [_ E].
  rewrite E, Hp. reflexivity.
Qed.

(** ** The committed timeline is the built one *)

Lemma stage_voice_built p a : built p (stage_voice p false a).
Proof.
  unfold built, stage_voice. rewrite buildTimeline_eq.
  pose proof (voiceover_loop_timings (timerDuration p) (slides p) 0%nat [] 0 a)
    as H.
  destruct (voiceover_loop (timerDuration p) false 0 (slides p) [] 0 a)
    as [r a'].
  simpl in H. subst r. split; reflexivity.
Qed.



(** ** Witnesses on the demo *)


Lemma C4_single_narration_witness :
  (let st := playVoiceTrack demo_assets 0 question_track 0 demo_started in
   voiceNodeRef st = Some (length (sources demo_started))
   /\ currentAudioTrackRef st = Some (0%nat, question_track)
   /\ sounding_voice st (length (sources demo_started))
   /\ forall m, sounding_voice st m -> m = length (sources demo_started))
  /\ (count_cmds voice_start
        (log (player_run demo_props demo_assets
                (frames [0; 1 # 4; 1 # 2]%Q) demo_started))
      <= count_cmds voice_start (log demo_started) + 1)%nat.
Proof.
  destruct (C4_single_narration demo_props demo_assets)
    as (_ & Hstart & Hticks).
  split.
  - apply (Hstart [ClickTogglePlay 0] 0%nat question_track 0
             (mkAudioBuffer (repeat (0 / 32768) 24) 24000)).
    + vm_compute. discriminate.
    + vm_compute. reflexivity.
    + vm_compute. reflexivity.
  - apply (Hticks (frames [0; 1 # 4; 1 # 2]) demo_started 0%nat Reading).
    vm_compute. repeat split; reflexivity.
Defined.

Lemma C10_absent_buffer_witness :
  playVoiceTrack demo_assets 1 answer_track 98 demo_revealing
  = emit (CallPlayVoiceTrack 1 answer_track 98) demo_revealing
  /\ (let st' := player_run demo_props demo_assets
                   (frames [9200; 9300; 9400]) demo_revealing in
      currentAudioTrackRef st' = Some (1%nat, question_track)
      /\ voiceNodeRef st' = voiceNodeRef demo_revealing
      /\ sources demo_revealing `prefix_of` sources st'
      /\ count_cmds voice_start (log st')
         = count_cmds voice_start (log demo_revealing)
      /\ count_cmds voice_call (log st')
         = (count_cmds voice_call (log demo_revealing)
            + length (List.filter is_animate
                        (frames [9200; 9300; 9400]%Q)))%nat).
Proof.
  destruct (C10_absent_buffer demo_props demo_assets) as (Hcall & Hticks).
  split.
  - apply Hcall. vm_compute. reflexivity.
  - apply (Hticks (frames [9200; 9300; 9400]) demo_revealing 1%nat).
    + vm_compute. reflexivity.
    + vm_compute. reflexivity.
    + vm_compute. repeat split; reflexivity.
Defined.

(** On the demo the missing answer narration of the second slide leaves
    the question narration source held and sounding during the reveal,
    and every tick of the reveal calls [playVoiceTrack] again. *)
Example demo_reveal_without_answer :
  currentAudioTrackRef demo_revealing = Some (1%nat, question_track)
  /\ voiceNodeRef demo_revealing = Some 0%nat
  /\ sources demo_revealing
     = [ mkSourceNode (VoiceSource 1 question_track) false true ]
  /\ count_cmds voice_call
       (log (player_run demo_props demo_assets
               (frames [9200; 9300; 9400]) demo_revealing))
     = (count_cmds voice_call (log demo_revealing) + 3)%nat.
Proof. vm_compute. repeat split; reflexivity. Qed.

(** ** Cancelling a preload *)

Lemma stage_voice_cancelled p a : stage_voice p true a = a.
Proof. unfold stage_voice. destruct (slides p); reflexivity. Qed.

Lemma stage_images_cancelled p a :
  cancelled (fst (stage_images p true a)) = true
  /\ guarded_fields (snd (stage_images p true a)) = guarded_fields a.
Proof.
  unfold stage_images. destruct (decide _); simpl;
    rewrite ?stage_voice_cancelled; split; reflexivity.
Qed.

Lemma stage_sfx_cancelled p a :
  cancelled (fst (stage_sfx p true a)) = true
  /\ guarded_fields (snd (stage_sfx p true a)) = guarded_fields a.
Proof.
  unfold stage_sfx. destruct (countdownSfxFile p); [split; reflexivity|].
  apply (stage_images_cancelled p (set_countdownSfxBufferRef None a)).
Qed.

(** Whatever reaches a cancelled preload, the fields written behind a
    check of [cancelled] keep their values. *)
Lemma cancelled_step_guarded p ev t a :
  cancelled t = true ->
  cancelled (fst (preload_step p ev t a)) = true
  /\ guarded_fields (snd (preload_step p ev t a)) = guarded_fields a.
Proof.
  intros Hc. unfold preload_step. rewrite Hc.
  destruct ev as [[bytes|]|[buffer|]|k img|k|].
  - destruct (awaiting t); try (split; [exact Hc|reflexivity]);
      split; reflexivity.
  - destruct (awaiting t); try (split; [exact Hc|reflexivity]).
    + apply stage_sfx_cancelled.
    + apply stage_images_cancelled.
  - destruct (awaiting t); try (split; [exact Hc|reflexivity]).
    + apply (stage_sfx_cancelled p (set_bgMusicBufferRef (Some buffer) a)).
    + apply (stage_images_cancelled p
               (set_countdownSfxBufferRef (Some buffer) a)).
  - destruct (awaiting t); try (split; [exact Hc|reflexivity]).
    + apply stage_sfx_cancelled.
    + apply stage_images_cancelled.
  - destruct (awaiting t) as [| | | |pending|];
      try (split; [exact Hc|reflexivity]).
    assert (match slides p !! k with
            | Some _ => a
            | None => a
            end = a) as -> by (now destruct (slides p !! k)).
    destruct (decide (k ∈ pending)); [|split; [exact Hc|reflexivity]].
    destruct (decide (pending ∖ {[k]} = ∅)); simpl;
      rewrite ?stage_voice_cancelled; split; reflexivity.
  - destruct (awaiting t) as [| | | |pending|];
      try (split; [exact Hc|reflexivity]).
    destruct (decide (k ∈ pending)); [|split; [exact Hc|reflexivity]].
    destruct (decide (pending ∖ {[k]} = ∅)); simpl;
      rewrite ?stage_voice_cancelled; split; reflexivity.
  - destruct (audioGraph a); split; reflexivity.
Qed.

Lemma cancelled_preload_guarded p evs : forall t a,
  cancelled t = true ->
  cancelled (fst (preload_run p evs t a)) = true
  /\ guarded_fields (snd (preload_run p evs t a)) = guarded_fields a.
Proof.
  induction evs as [|ev evs IH]; intros t a Hc; simpl; [split; auto|].
  destruct (cancelled_step_guarded p ev t a Hc) as [Hc' Hg].
  destruct (preload_step p ev t a) as [t' a']. simpl in Hc', Hg.
  destruct (IH t' a' Hc') as [Hc'' Hg'']. split; congruence.
Qed.

(** C6 fails on the code. A preload of the demo with a music file is
    cancelled while [decodeAudioData] is in flight; when the decoded
    music arrives afterwards it is stored in [bgMusicBufferRef], and the
    cancelled preload goes on to clear [countdownSfxBufferRef]. The
    assignment after the [await] is not behind a check of [cancelled],
    unlike those of the images, narration buffers and timings. *)
Theorem C6_stale_music_committed :
  let p := music_props "old.mp3" in
  let start := prepareAssets p 0 initial_assets in
  let at_cancel :=
    preload_run p [ArrayBufferSettled (Some []); Cleanup]
      (fst start) (snd start) in
  let late :=
    preload_step p (DecodeSettled (Some music_A))
      (fst at_cancel) (snd at_cancel) in
  awaiting (fst at_cancel) = AwaitMusicDecode
  /\ cancelled (fst at_cancel) = true
  /\ bgMusicBufferRef (snd at_cancel) = None
  /\ bgMusicBufferRef (snd late) = Some music_A
  /\ guarded_fields (snd late) = guarded_fields (snd at_cancel).
Proof. vm_compute. repeat split; reflexivity. Qed.

(** The late result can replace that of the preload which superseded
    the cancelled one: after the music file changes, the new preload
    finishes with the new music, and the old decode, arriving last,
    overwrites it. *)
Example stale_music_replaces_current :
  let old := music_props "old.mp3" in
  let new := music_props "new.mp3" in
  let first := prepareAssets old 0 initial_assets in
  let at_cancel :=
    preload_run old [ArrayBufferSettled (Some []); Cleanup]
      (fst first) (snd first) in
  let second := prepareAssets new 1 (snd at_cancel) in
  let done :=
    preload_run new
      [ArrayBufferSettled (Some []); DecodeSettled (Some music_B)]
      (fst second) (snd second) in
  let late :=
    preload_step old (DecodeSettled (Some music_A))
      (fst at_cancel) (snd done) in
  awaiting (fst done) = Finished
  /\ isReady (snd done) = true
  /\ bgMusicBufferRef (snd done) = Some music_B
  /\ bgMusicBufferRef (snd late) = Some music_A.
Proof. vm_compute. repeat split; reflexivity. Qed.

(** A cancelled preload also clears the countdown sound of the preload
    that superseded it: the old props have no countdown file, the new
    ones do; the new preload stores the decoded sound, and the old one,
    resuming after its music read fails, assigns [null]. *)
Example stale_preload_clears_sfx :
  let old := music_props "music.mp3" in
  let new := sfx_props "music.mp3" "tick.mp3" in
  let first := prepareAssets old 0 initial_assets in
  let at_cancel := preload_run old [Cleanup] (fst first) (snd first) in
  let second := prepareAssets new 1 (snd at_cancel) in
  let done :=
    preload_run new
      [ ArrayBufferSettled (Some []); DecodeSettled (Some music_A);
        ArrayBufferSettled (Some []); DecodeSettled (Some music_B) ]
      (fst second) (snd second) in
  let late :=
    preload_step old (ArrayBufferSettled None) (fst at_cancel) (snd done) in
  awaiting (fst done) = Finished
  /\ countdownSfxBufferRef (snd done) = Some music_B
  /\ countdownSfxBufferRef (snd late) = None.
Proof. vm_compute. repeat split; reflexivity. Qed.

(** ** The end cue on every slide change *)

Lemma playVoiceTrack_cues a i ty off st :
  let st' := playVoiceTrack a i ty off st in
  count_cmds end_cue_call (log st') = count_cmds end_cue_call (log st)
  /\ lastTickTimeRef st' = lastTickTimeRef st
  /\ isPlaying st' = isPlaying st.
Proof.
  unfold playVoiceTrack, start_source, stop_source, emit.
  destruct st; cbn.
  repeat match goal with
         | |- context [match ?x with _ => _ end] => destruct x; cbn
         end;
    rewrite ?count_cmds_snoc; cbn; repeat split; lia.
Qed.

Lemma playTickSound_end p a st :
  let st' := playTickSound p a end_cue st in
  count_cmds end_cue_call (log st') = S (count_cmds end_cue_call (log st))
  /\ lastTickTimeRef st' = lastTickTimeRef st.
Proof.
  unfold playTickSound, emit. destruct st; cbn.
  repeat match goal with
         | |- context [match ?x with _ => _ end] => destruct x; cbn
         end;
    rewrite ?count_cmds_snoc; cbn; split; lia.
Qed.

Lemma findActive_lookup time (l : list SlideTiming) : forall k j t,
  findActive k l time = Some (j, t) ->
  (k <= j)%nat /\ l !! (j - k)%nat = Some t
  /\ start t <= time /\ time < end_ t.
Proof.
  induction l as [|x l IH]; intros k j t; [discriminate|]. cbn [findActive].
  destruct (JS.geb time (start x)) eqn:E1; cbn [andb];
    [destruct (JS.ltb time (end_ x)) eqn:E2|].
  - intros [= <- <-]. rewrite Nat.sub_diag.
    apply geb_le in E1. apply ltb_lt in E2. repeat split; [lia|assumption..].
  - intros H. apply IH in H as (Hk & Hl & Hs & He).
    replace (j - k)%nat with (S (j - S k)) by lia.
    repeat split; [lia|assumption..].
  - intros H. apply IH in H as (Hk & Hl & Hs & He).
    replace (j - k)%nat with (S (j - S k)) by lia.
    repeat split; [lia|assumption..].
Qed.

Section SlideChange.

Variables (p : Props) (a : Assets).
Hypothesis Hbuilt : built p a.
Hypothesis Htimer : 0 <= timerDuration p.

(** Drawing a slide whose reveal has begun, while playing and with the
    sentinel not set, calls the end cue once and sets the sentinel. *)
Lemma drawSlideState_revealed i s t localTime alpha st :
  slides p !! i = Some s -> timings a !! i = Some t ->
  revealStart t - start t <= localTime ->
  lastTickTimeRef st <> (-99)%Z ->
  let st' := drawSlideState p a true i localTime alpha st in
  count_cmds end_cue_call (log st') = S (count_cmds end_cue_call (log st))
  /\ lastTickTimeRef st' = (-99)%Z.
Proof.
  intros Hs Ht Hrev Hlast. unfold drawSlideState. rewrite Hs, Ht. cbv zeta.
  assert (JS.ltb localTime (revealStart t - start t) = false) as ->
    by (now apply ltb_ge).
  assert (JS.geb localTime (revealStart t - start t) = true) as ->
    by (now apply geb_le).
  rewrite andb_false_r. cbn [andb].
  destruct (Z.eqb_spec (lastTickTimeRef st) (-99)) as [E|_]; [contradiction|].
  cbn [negb].
  destruct (playTickSound_end p a st) as [Hc Hl]. cbv zeta in Hc, Hl.
  unfold emit. cbn [log set_log lastTickTimeRef set_lastTickTimeRef].
  rewrite count_cmds_snoc. cbn [end_cue_call]. rewrite Hc. split; [lia|].
  reflexivity.
Qed.

(** Drawing a slide that is still being read calls no cue. *)
Lemma drawSlideState_reading i s t localTime alpha st :
  slides p !! i = Some s -> timings a !! i = Some t ->
  localTime < thinkingStart t - start t ->
  thinkingStart t <= revealStart t ->
  let st' := drawSlideState p a true i localTime alpha st in
  count_cmds end_cue_call (log st') = count_cmds end_cue_call (log st).
Proof.
  intros Hs Ht Hread Hord. unfold drawSlideState. rewrite Hs, Ht. cbv zeta.
  assert (JS.geb localTime (thinkingStart t - start t) = false) as ->
    by (now apply geb_false).
  assert (JS.geb localTime (revealStart t - start t) = false) as ->
    by (apply geb_false; lra).
  cbn [andb]. unfold emit. cbn [log set_log].
  rewrite count_cmds_snoc. cbn [end_cue_call]. lia.
Qed.

(** On the first tick of any slide after the first, the frame drawn in
    the cross-fade calls the end cue once more for the previous slide,
    whose reveal was entered before. *)
Lemma end_cue_refired_on_slide_change st timestamp i :
  tick_phase a timestamp st = Some (S i, Reading) ->
  track_differs (currentAudioTrackRef st) (S i) question_track = true ->
  (forall t,
      timings a !! S i = Some t ->
      currentTime st + (timestamp - previousTimeRef st) - start t < 500) ->
  let st' := player_run p a [Animate timestamp; RenderEffect] st in
  count_cmds end_cue_call (log st') = S (count_cmds end_cue_call (log st)).
Proof.
  intros Hph Hdiff Hfade.
  apply tick_phase_Some in Hph as (Hp & Hend & t & Hact & Hread).
  cbv zeta in *.
  (* the tick *)
  cbn [player_run player_step]. unfold animate. rewrite Hp, Hend.
  unfold audioSync. rewrite Hact.
  set (next := currentTime st + (timestamp - previousTimeRef st)) in *.
  pose proof (phase_of_cases t next) as Hc. rewrite Hread in Hc.
  rewrite Hc, Hdiff.
  set (st1 := playVoiceTrack a (S i) question_track (next - start t)
                (set_lastTickTimeRef (-1)%Z st)).
  destruct (playVoiceTrack_cues a (S i) question_track (next - start t)
              (set_lastTickTimeRef (-1)%Z st)) as (Hc1 & Hl1 & Hp1).
  cbv zeta in Hc1, Hl1, Hp1. fold st1 in Hc1, Hl1, Hp1.
  cbn [log lastTickTimeRef isPlaying set_lastTickTimeRef] in Hc1, Hl1, Hp1.
  cbn [isPlaying currentTime set_previousTimeRef set_currentTime].
  rewrite Hp1, Hp.
  set (st2 := set_previousTimeRef timestamp (set_currentTime next st1)).
  assert (log st2 = log st1) as Hlog2 by reflexivity.
  assert (lastTickTimeRef st2 = (-1)%Z) as Hl2 by exact Hl1.
  (* the slide found by the tick and its predecessor *)
  pose proof (built_timings p a Hbuilt) as Htl.
  destruct (findActive_lookup _ _ _ _ _ Hact) as (_ & Hi & Hstart & _).
  rewrite Nat.sub_0_r in Hi.
  specialize (Hfade t Hi).
  destruct (built_previous a (S i) t Hi) as [prev Hprev].
  replace (S i - 1)%nat with i in Hprev by lia.
  destruct (built_slide p a Hbuilt _ _ Hi) as [s Hs].
  destruct (built_slide p a Hbuilt _ _ Hprev) as [sp Hsp].
  assert (end_ prev == start t) as Hcont.
  { rewrite Htl in Hi, Hprev. eapply timings_from_contiguous; eauto. }
  assert (revealStart prev <= end_ prev) as Hordp.
  { rewrite Htl in Hprev.
    apply timings_from_shape in Hprev as (acc & s0 & _ & ->).
    now apply slide_timing_ordered. }
  assert (start t + 500 < thinkingStart t /\ thinkingStart t <= revealStart t)
    as [Hread_t Hord_t].
  { rewrite Htl in Hi. apply timings_from_shape in Hi as (acc & s0 & _ & ->).
    simpl. pose proof (qDur_of_pos s0). split; lra. }
  (* the frame *)
  unfold renderFrame. destruct (timings a) as [|t0 tl] eqn:Etl; [discriminate|].
  cbv iota. rewrite <- Etl in *. clear Etl t0 tl.
  change (currentTime st2) with next. rewrite Hact.
  assert (JS.ltb (next - start t) TRANSITION_DURATION = true) as ->
    by (apply ltb_lt; exact Hfade).
  cbn [Nat.ltb Nat.leb andb]. replace (S i - 1)%nat with i by lia.
  rewrite Hprev.
  set (st3 := emit ClearCanvas st2).
  assert (count_cmds end_cue_call (log st3) = count_cmds end_cue_call (log st))
    as Hc3.
  { unfold st3, emit. cbn [log set_log]. rewrite count_cmds_snoc, Hlog2, Hc1.
    cbn [end_cue_call]. lia. }
  destruct (drawSlideState_revealed i sp prev (next - start prev) 1 st3
              Hsp Hprev) as [Hc4 Hl4].
  { lra. }
  { change (lastTickTimeRef st3) with (lastTickTimeRef st2). rewrite Hl2. lia. }
  cbv zeta in Hc4, Hl4.
  set (st4 := drawSlideState p a true i (next - start prev) 1 st3) in *.
  pose proof (drawSlideState_reading (S i) s t (next - start t)
                ((next - start t) / TRANSITION_DURATION) st4 Hs Hi) as Hc5.
  cbv zeta in Hc5.
  assert (forall x st5,
            count_cmds end_cue_call
              (log match layoutMode p with
                   | Cinematic => emit (DrawProgressBar x) st5
                   | Broadcast => st5
                   end) = count_cmds end_cue_call (log st5)) as Hbar.
  { intros x st5. destruct (layoutMode p); [|reflexivity].
    unfold emit. cbn [log set_log]. rewrite count_cmds_snoc.
    cbn [end_cue_call]. lia. }
  rewrite Hbar, Hc5, Hc4, Hc3 by lra. reflexivity.
Qed.

End SlideChange.

(** * Further properties of the code *)

(** ** PCM decoding *)

Lemma Int16Array_even (bs : ArrayBuffer) :
  Nat.even (length bs) = true -> is_Some (Int16Array bs).
Proof.
  induction bs as [bs IH] using (well_founded_induction
    (well_founded_ltof _ (@length Byte.byte))).
  destruct bs as [|lo [|hi rest]]; intros H.
  - now eexists.
  - discriminate.
  - cbn [Int16Array].
    destruct (IH rest) as [l ->]; [unfold ltof; simpl; lia|exact H|].
    now eexists.
Qed.

Lemma Int16Array_odd (bs : ArrayBuffer) :
  Nat.even (length bs) = false -> Int16Array bs = None.
Proof.
  intros H. destruct (Int16Array bs) as [l|] eqn:E; [|reflexivity].
  apply Int16Array_length in E. rewrite E in H.
  rewrite Nat.even_mul in H. discriminate.
Qed.

Lemma byte_val_range b : (0 <= byte_val b < 256)%Z.
Proof. unfold byte_val. pose proof (Byte.to_N_bounded b). lia. Qed.

(** Element [j] of the [Int16Array] is the signed reading of bytes
    [2j] (low) and [2j+1] (high). *)
Lemma Int16Array_lookup (bs : ArrayBuffer) : forall l j v,
  Int16Array bs = Some l -> l !! j = Some v ->
  exists lo hi,
    bs !! (2 * j)%nat = Some lo /\ bs !! (2 * j + 1)%nat = Some hi
    /\ (v mod 65536 = byte_val lo + 256 * byte_val hi)%Z
    /\ (-32768 <= v < 32768)%Z.
Proof.
  induction bs as [bs IH] using (well_founded_induction
    (well_founded_ltof _ (@length Byte.byte))).
  intros l j v. destruct bs as [|lo [|hi rest]]; cbn [Int16Array].
  - intros [= <-]. discriminate.
  - discriminate.
  - destruct (Int16Array rest) as [l'|] eqn:E; [|discriminate].
    intros [= <-]. destruct j as [|j].
    + intros [= <-]. exists lo, hi. split; [reflexivity|].
      split; [reflexivity|].
      pose proof (byte_val_range lo). pose proof (byte_val_range hi).
      destruct (Z.ltb_spec (byte_val lo + 256 * byte_val hi) 32768).
      * split; [|lia]. apply Z.mod_small. lia.
      * split; [|lia]. symmetry.
        apply (Z.mod_unique_pos _ _ (-1)); lia.
    + intros Hj. cbn in Hj.
      destruct (IH rest ltac:(unfold ltof; simpl; lia) l' j v E Hj)
        as (lo' & hi' & H1 & H2 & H3 & H4).
      exists lo', hi'.
      replace (2 * S j)%nat with (S (S (2 * j))) by lia.
      replace (S (S (2 * j)) + 1)%nat with (S (S (2 * j + 1))) by lia.
      split; [exact H1|]. split; [exact H2|]. split; [exact H3|exact H4].
Qed.

(** X1. [decodePCM] fails exactly on an empty buffer and on a buffer
    of odd length; otherwise it yields one sample per two bytes at
    24000 Hz, that is a duration of one millisecond per 48 bytes. *)
Theorem decodePCM_outcome (ab : ArrayBuffer) :
  (decodePCM ab = None <-> ab = [] \/ Nat.even (length ab) = false)
  /\ (forall b, decodePCM ab = Some b ->
        sampleRate b = 24000
        /\ (2 * length (channel b) = length ab)%nat
        /\ duration b * 1000 == inject_Z (Z.of_nat (length ab)) / 48).
Proof.
  split.
  - split.
    + intros H. destruct (Nat.even (length ab)) eqn:Ev; [left|now right].
      destruct (Int16Array_even ab Ev) as [l El].
      unfold decodePCM in H. rewrite El in H.
      apply Int16Array_length in El.
      destruct l; [destruct ab; [reflexivity|discriminate]|discriminate].
    + intros [->|Hodd]; [reflexivity|].
      unfold decodePCM. now rewrite Int16Array_odd.
  - intros b H. unfold decodePCM in H.
    destruct (Int16Array ab) as [pcm|] eqn:E; [|discriminate].
    apply Int16Array_length in E.
    unfold createBuffer in H.
    destruct (length pcm) as [|k] eqn:Ek; [discriminate|].
    injection H as <-. cbn [sampleRate channel].
    split; [reflexivity|]. split.
    + rewrite length_map. lia.
    + unfold duration. cbn [sampleRate channel]. rewrite length_map, E, Ek.
      rewrite Nat2Z.inj_mul, inject_Z_mult.
      set (n := inject_Z (Z.of_nat (S k))).
      change (inject_Z (Z.of_nat 2)) with 2. unfold Qdiv.
      change (/ 24000) with (1 # 24000). change (/ 48) with (1 # 48). lra.
Qed.

(** X2. Every sample of a decoded buffer is the little-endian signed
    16-bit reading of its two bytes divided by 32768, hence lies in
    [-1, 1). *)
Theorem decodePCM_samples (ab : ArrayBuffer) (b : AudioBuffer) (j : nat)
  (s : Q) :
  decodePCM ab = Some b -> channel b !! j = Some s ->
  -1 <= s /\ s < 1
  /\ exists lo hi v,
       ab !! (2 * j)%nat = Some lo /\ ab !! (2 * j + 1)%nat = Some hi
       /\ s = inject_Z v / 32768
       /\ (v mod 65536 = byte_val lo + 256 * byte_val hi)%Z
       /\ (-32768 <= v < 32768)%Z.
Proof.
  intros H Hj. unfold decodePCM in H.
  destruct (Int16Array ab) as [pcm|] eqn:E; [|discriminate].
  destruct (createBuffer (length pcm) 24000); [|discriminate].
  injection H as <-. cbn [channel] in Hj.
  rewrite list_lookup_fmap in Hj.
  destruct (pcm !! j) as [v|] eqn:Ev; [|discriminate].
  cbn in Hj. injection Hj as <-.
  destruct (Int16Array_lookup ab pcm j v E Ev) as (lo & hi & H1 & H2 & H3 & H4).
  assert (-32768 <= inject_Z v /\ inject_Z v < 32768) as [Ha Hb].
  { change (-32768) with (inject_Z (-32768)).
    change 32768 with (inject_Z 32768).
    rewrite <- Zle_Qle, <- Zlt_Qlt. lia. }
  unfold Qdiv. change (/ 32768) with (1 # 32768).
  split; [lra|]. split; [lra|].
  exists lo, hi, v. repeat split; try assumption; lia.
Qed.

Lemma decodePCM_samples_witness :
  -1 <= inject_Z (-32767) / 32768 /\ inject_Z (-32767) / 32768 < 1
  /\ exists lo hi v,
       [Byte.x01; Byte.x80] !! (2 * 0)%nat = Some lo
       /\ [Byte.x01; Byte.x80] !! (2 * 0 + 1)%nat = Some hi
       /\ inject_Z (-32767) / 32768 = inject_Z v / 32768
       /\ (v mod 65536 = byte_val lo + 256 * byte_val hi)%Z
       /\ (-32768 <= v < 32768)%Z.
Proof.
  apply (decodePCM_samples [Byte.x01; Byte.x80]
           (mkAudioBuffer [inject_Z (-32767) / 32768] 24000) 0).
  - reflexivity.
  - reflexivity.
Defined.

(** ** Text wrapping *)

Lemma split_space_nonempty text : split_space text <> [].
Proof.
  destruct text as [|c rest]; cbn [split_space]; [discriminate|].
  destruct (Ascii.eqb c " "); [discriminate|].
  destruct (split_space rest); discriminate.
Qed.

Lemma append_cons x (a b : string) : String x a +:+ b = String x (a +:+ b).
Proof. reflexivity. Qed.

Lemma append_empty_l (b : string) : "" +:+ b = b.
Proof. reflexivity. Qed.

Lemma append_assoc (a b c : string) : (a +:+ b) +:+ c = a +:+ (b +:+ c).
Proof.
  induction a as [|x a IH]; [reflexivity|].
  rewrite !append_cons. now rewrite IH.
Qed.

Lemma append_empty_r (a : string) : a +:+ "" = a.
Proof.
  induction a as [|x a IH]; [reflexivity|]. rewrite append_cons.
  now rewrite IH.
Qed.

(** Joining the pieces of [split(' ')], each followed by a space, gives
    the text followed by a space. *)
Lemma split_space_join text :
  concat_strings (map (fun w => w +:+ " ") (split_space text)) = text +:+ " ".
Proof.
  induction text as [|c rest IH]; [reflexivity|]. cbn [split_space].
  destruct (Ascii.eqb_spec c " ") as [->|Hne].
  - cbn [map concat_strings]. rewrite IH. reflexivity.
  - destruct (split_space rest) as [|w ws] eqn:E;
      [now apply split_space_nonempty in E|].
    cbn [map concat_strings] in *.
    rewrite !append_cons. f_equal. exact IH.
Qed.

Lemma filled_lines_app l1 l2 :
  filled_lines (l1 ++ l2) = filled_lines l1 ++ filled_lines l2.
Proof. apply omap_app. Qed.

Lemma stroked_lines_app l1 l2 :
  stroked_lines (l1 ++ l2) = stroked_lines l1 ++ stroked_lines l2.
Proof. apply omap_app. Qed.

Lemma filled_draw_line useShadow line x y :
  filled_lines (draw_line useShadow line x y) = [(line, x, y)].
Proof. now destruct useShadow. Qed.

Lemma stroked_draw_line useShadow line x y :
  stroked_lines (draw_line useShadow line x y)
  = if useShadow then [(line, x, y)] else [].
Proof. now destruct useShadow. Qed.

Section WrapLoop.

Variables (measure : string -> Q) (useShadow : bool).
Variables (x maxWidth lineHeight : Q).
Variable allWords : list string.

Local Abbreviation fine := (line_ok measure maxWidth allWords).
Local Abbreviation pending := (line_state measure maxWidth allWords).
Local Abbreviation painted :=
  (lines_ok measure useShadow x maxWidth lineHeight allWords).

Lemma lines_ok_snoc y0 out line currentY :
  painted y0 out -> fine line ->
  currentY == y0 + inject_Z (Z.of_nat (length (filled_lines out))) * lineHeight ->
  painted y0 (out ++ draw_line useShadow line x currentY).
Proof.
  intros (Hok & Hpos & Hst) Hl Hy. unfold lines_ok.
  rewrite filled_lines_app, stroked_lines_app, filled_draw_line,
    stroked_draw_line.
  split; [|split].
  - apply Forall_app. split; [exact Hok|].
    constructor; [exact Hl|constructor].
  - intros k l Hk.
    destruct (decide (k < length (filled_lines out))%nat) as [Hlt|Hge].
    + rewrite lookup_app_l in Hk by assumption. now apply Hpos.
    + rewrite lookup_app_r in Hk by lia.
      destruct (k - length (filled_lines out))%nat eqn:Ek; [|discriminate].
      injection Hk as <-. cbn [fst snd]. split; [reflexivity|].
      replace k with (length (filled_lines out)) by lia. exact Hy.
  - rewrite Hst. now destruct useShadow.
Qed.

Lemma concat_strings_app l1 l2 :
  concat_strings (l1 ++ l2) = concat_strings l1 +:+ concat_strings l2.
Proof.
  induction l1 as [|a l1 IH]; cbn; [reflexivity|].
  now rewrite IH, append_assoc.
Qed.

Lemma wrap_loop_spec (words : list string) : forall n line currentY out y0,
  (forall w, w ∈ words -> w ∈ allWords) ->
  pending n line ->
  painted y0 out ->
  currentY == y0 + inject_Z (Z.of_nat (length (filled_lines out))) * lineHeight ->
  let '(line', currentY', out') :=
    wrap_loop measure useShadow x maxWidth lineHeight n words line
      currentY out in
  concat_strings (map line_text (filled_lines out')) +:+ line'
  = concat_strings (map line_text (filled_lines out)) +:+ line
    +:+ concat_strings (map (fun w => w +:+ " ") words)
  /\ pending (n + length words) line'
  /\ painted y0 out'
  /\ currentY'
     == y0 + inject_Z (Z.of_nat (length (filled_lines out'))) * lineHeight.
Proof.
  induction words as [|w rest IH];
    intros n line currentY out y0 Hsub Hline Hok Hy.
  - cbn [wrap_loop map concat_strings length]. rewrite append_empty_r.
    rewrite Nat.add_0_r. split; [reflexivity|].
    split; [exact Hline|]. split; [exact Hok|exact Hy].
  - cbn [wrap_loop].
    assert (w ∈ allWords) as Hw by (apply Hsub; left).
    assert (forall w', w' ∈ rest -> w' ∈ allWords) as Hsub'
      by (intros w' H'; apply Hsub; now right).
    cbn [length]. replace (n + S (length rest))%nat
      with (S n + length rest)%nat by lia.
    destruct (JS.gtb (measure (line +:+ w +:+ " ")) maxWidth && (0 <? n)%nat)
      eqn:Ebreak.
    + apply andb_true_iff in Ebreak as [_ Hn]. apply Nat.ltb_lt in Hn.
      assert (fine line) as Hl by (destruct n; [lia|exact Hline]).
      specialize (IH (S n) (w +:+ " ") (currentY + lineHeight)
                     (out ++ draw_line useShadow line x currentY) y0 Hsub').
      destruct (wrap_loop measure useShadow x maxWidth lineHeight (S n) rest
                  (w +:+ " ") (currentY + lineHeight)
                  (out ++ draw_line useShadow line x currentY))
        as [[line' currentY'] out'].
      destruct IH as (Hc & Hrest).
      * right. now exists w.
      * now apply lines_ok_snoc.
      * rewrite filled_lines_app, filled_draw_line, length_app.
        cbn [length]. rewrite Nat2Z.inj_add, inject_Z_plus.
        change (inject_Z (Z.of_nat 1)) with 1. rewrite Hy. ring.
      * split; [|exact Hrest].
        rewrite Hc, filled_lines_app, filled_draw_line, map_app,
          concat_strings_app.
        cbn [map concat_strings line_text fst].
        rewrite append_empty_r, !append_assoc. reflexivity.
    + assert (fine (line +:+ w +:+ " ")) as Hl.
      { destruct n as [|n].
        - cbn in Hline. subst line. right. now exists w.
        - rewrite andb_true_r in Ebreak. left.
          unfold JS.gtb in Ebreak. apply negb_false_iff in Ebreak.
          now apply Qle_bool_iff. }
      specialize (IH (S n) (line +:+ w +:+ " ") currentY out y0 Hsub'
                     Hl Hok Hy).
      destruct (wrap_loop measure useShadow x maxWidth lineHeight (S n) rest
                  (line +:+ w +:+ " ") currentY out)
        as [[line' currentY'] out'].
      destruct IH as (Hc & Hrest).
      split; [|exact Hrest].
      rewrite Hc. cbn [map concat_strings]. now rewrite !append_assoc.
Qed.

End WrapLoop.

(** X3. [wrapText] paints the whole text: its lines, read top to
    bottom, spell the text followed by one space; every line fits
    [maxWidth] unless it holds a single word; there is always at least
    one line. *)
Theorem wrapText_content (measure : string -> Q) (text : string)
  (x y maxWidth lineHeight : Q) (useShadow : bool) :
  let lines :=
    filled_lines
      (fst (wrapText measure text x y maxWidth lineHeight useShadow)) in
  concat_strings (map line_text lines) = text +:+ " "
  /\ Forall (fun l =>
               measure (line_text l) <= maxWidth
               \/ exists w, w ∈ split_space text /\ line_text l = w +:+ " ")
       lines
  /\ lines <> [].
Proof.
  unfold wrapText.
  pose proof (wrap_loop_spec measure useShadow x maxWidth lineHeight
                (split_space text) (split_space text) 0 EmptyString y
                (if useShadow then [SetTextShadow] else []) y) as H.
  destruct (wrap_loop measure useShadow x maxWidth lineHeight 0
              (split_space text) EmptyString y
              (if useShadow then [SetTextShadow] else []))
    as [[line currentY] out].
  destruct H as (Hc & Hl & (Hok & _ & _) & _).
  - auto.
  - reflexivity.
  - destruct useShadow; (split; [constructor|split; [|reflexivity]]);
      intros k l Hk; discriminate.
  - destruct useShadow; cbn; unfold Qeq; simpl; lia.
  - cbn [fst]. rewrite !filled_lines_app, filled_draw_line.
    change (filled_lines [ClearShadowBlur]) with (@nil (string * Q * Q)).
    rewrite app_nil_r. split; [|split].
    + rewrite map_app, concat_strings_app. cbn [map concat_strings line_text fst].
      rewrite append_empty_r, Hc, split_space_join.
      now destruct useShadow.
    + apply Forall_app. split; [exact Hok|].
      constructor; [|constructor]. cbn [line_text fst].
      destruct (split_space text) eqn:E;
        [now apply split_space_nonempty in E|].
      exact Hl.
    + intros E. apply app_eq_nil in E as [_ E]. discriminate.
Qed.

Lemma draw_line_painted useShadow line x y :
  draw_line useShadow line x y = painted_line useShadow (line, x, y).
Proof. now destruct useShadow. Qed.

Lemma filled_painted useShadow (ls : list (string * Q * Q)) :
  filled_lines (flat_map (painted_line useShadow) ls) = ls.
Proof.
  induction ls as [|[[line x] y] ls IH]; [reflexivity|].
  cbn [flat_map]. rewrite filled_lines_app, IH.
  now destruct useShadow.
Qed.

(** The loop appends nothing but painted lines. *)
Lemma wrap_loop_shape measure useShadow x maxWidth lineHeight
  (words : list string) (pre : list TextCmd) :
  forall n line currentY out,
  (exists ls, out = pre ++ flat_map (painted_line useShadow) ls) ->
  exists ls,
    snd (wrap_loop measure useShadow x maxWidth lineHeight n words line
           currentY out)
    = pre ++ flat_map (painted_line useShadow) ls.
Proof.
  induction words as [|w rest IH]; intros n line currentY out Hout;
    cbn [wrap_loop]; [exact Hout|].
  destruct (_ && _); apply IH; [|exact Hout].
  destruct Hout as [ls ->]. exists (ls ++ [(line, x, currentY)]).
  rewrite flat_map_app, draw_line_painted, app_assoc. cbn [flat_map].
  now rewrite app_nil_r.
Qed.

(** X4. [wrapText] stacks its lines: line [k] is painted at [x] and
    [y + k * lineHeight], the value returned is [y] plus [lineHeight]
    per painted line, and a line is stroked before it is filled exactly
    when [useShadow] holds: after the shadow settings made under
    [useShadow], the canvas calls are, line by line, the stroke of the
    line followed by its fill under [useShadow] and its fill alone
    otherwise, and then the shadow blur is cleared. *)
Theorem wrapText_layout (measure : string -> Q) (text : string)
  (x y maxWidth lineHeight : Q) (useShadow : bool) :
  let cmds := fst (wrapText measure text x y maxWidth lineHeight useShadow) in
  let ret := snd (wrapText measure text x y maxWidth lineHeight useShadow) in
  (forall k l, filled_lines cmds !! k = Some l ->
     snd (fst l) = x /\ snd l == y + inject_Z (Z.of_nat k) * lineHeight)
  /\ ret == y + inject_Z (Z.of_nat (length (filled_lines cmds))) * lineHeight
  /\ stroked_lines cmds = (if useShadow then filled_lines cmds else [])
  /\ cmds
     = (if useShadow then [SetTextShadow] else [])
       ++ flat_map
            (fun l => if useShadow
                      then [StrokeText (fst (fst l)) (snd (fst l)) (snd l);
                            FillText (fst (fst l)) (snd (fst l)) (snd l)]
                      else [FillText (fst (fst l)) (snd (fst l)) (snd l)])
            (filled_lines cmds)
       ++ [ClearShadowBlur].
Proof.
  unfold wrapText.
  pose proof (wrap_loop_shape measure useShadow x maxWidth lineHeight
                (split_space text) (if useShadow then [SetTextShadow] else [])
                0 EmptyString y (if useShadow then [SetTextShadow] else [])
                ltac:(exists []; now rewrite app_nil_r)) as [ls Hshape].
  pose proof (wrap_loop_spec measure useShadow x maxWidth lineHeight
                (split_space text) (split_space text) 0 EmptyString y
                (if useShadow then [SetTextShadow] else []) y) as H.
  destruct (wrap_loop measure useShadow x maxWidth lineHeight 0
              (split_space text) EmptyString y
              (if useShadow then [SetTextShadow] else []))
    as [[line currentY] out].
  destruct H as (_ & Hl & Hlines & Hy).
  - auto.
  - reflexivity.
  - destruct useShadow; (split; [constructor|split; [|reflexivity]]);
      intros k l Hk; discriminate.
  - destruct useShadow; cbn; unfold Qeq; simpl; lia.
  - assert (line_ok measure maxWidth (split_space text) line) as Hline.
    { destruct (split_space text) eqn:E;
        [now apply split_space_nonempty in E|exact Hl]. }
    pose proof (lines_ok_snoc measure useShadow x maxWidth lineHeight
                  (split_space text) y out line currentY Hlines Hline Hy)
      as (_ & Hpos & Hst).
    cbn [fst snd]. cbn [snd] in Hshape.
    assert (out ++ draw_line useShadow line x currentY ++ [ClearShadowBlur]
            = (if useShadow then [SetTextShadow] else [])
              ++ flat_map (painted_line useShadow)
                   (ls ++ [(line, x, currentY)])
              ++ [ClearShadowBlur]) as Hcmds.
    { rewrite Hshape, flat_map_app, draw_line_painted, <- !app_assoc.
      cbn [flat_map]. now rewrite app_nil_r. }
    assert (filled_lines
              (out ++ draw_line useShadow line x currentY ++ [ClearShadowBlur])
            = ls ++ [(line, x, currentY)]) as Hfilled.
    { rewrite Hcmds, !filled_lines_app, filled_painted.
      change (filled_lines [ClearShadowBlur]) with (@nil (string * Q * Q)).
      rewrite app_nil_r. now destruct useShadow. }
    split; [|split; [|split]].
    + intros k l. rewrite app_assoc, filled_lines_app.
      change (filled_lines [ClearShadowBlur]) with (@nil (string * Q * Q)).
      rewrite app_nil_r. apply Hpos.
    + rewrite app_assoc, !filled_lines_app.
      change (filled_lines [ClearShadowBlur]) with (@nil (string * Q * Q)).
      rewrite app_nil_r, filled_draw_line, length_app. cbn [length].
      rewrite Nat2Z.inj_add, inject_Z_plus.
      change (inject_Z (Z.of_nat 1)) with 1. rewrite Hy. ring.
    + rewrite app_assoc, !filled_lines_app, !stroked_lines_app.
      change (filled_lines [ClearShadowBlur]) with (@nil (string * Q * Q)).
      change (stroked_lines [ClearShadowBlur]) with (@nil (string * Q * Q)).
      rewrite !app_nil_r, <- filled_lines_app, <- stroked_lines_app.
      exact Hst.
    + rewrite Hfilled. rewrite Hcmds. f_equal. f_equal.
      apply flat_map_ext. intros [[l0 x0] y0]. reflexivity.
Qed.

(** ** Retries *)

Lemma retry_loop_spec {T : Type} (operation : nat -> ApiError + T)
  (baseDelay : Q) (remaining : nat) : forall i lastError waits,
  let r := retry_loop operation baseDelay remaining i lastError waits in
  (forall v, fst r = inr v ->
     exists k, (k < remaining)%nat /\ operation (i + k)%nat = inr v
       /\ (forall j, (j < k)%nat -> exists e, operation (i + j)%nat = inl e)
       /\ length (snd r) = (length waits + k)%nat)
  /\ ((forall j, (j < remaining)%nat ->
         exists e, operation (i + j)%nat = inl e) ->
      fst r = inl (match remaining with
                   | O => lastError
                   | S n =>
                       match operation (i + n)%nat with
                       | inl e => Some e
                       | inr _ => None
                       end
                   end)
      /\ exists added,
           snd r = waits ++ added /\ length added = remaining
           /\ forall j d, added !! j = Some d ->
                exists e, operation (i + j)%nat = inl e
                          /\ d = retry_delay baseDelay (i + j) e).
Proof.
  induction remaining as [|n IH]; intros i lastError waits; cbn [retry_loop].
  - split; [intros v [=]|]. intros _. split; [reflexivity|].
    exists []. rewrite app_nil_r. repeat split. intros j d [=].
  - destruct (operation i) as [e|v] eqn:Eo.
    + specialize (IH (S i) (Some e)
                     (waits ++ [retry_delay baseDelay i e])).
      cbv zeta in IH. destruct IH as [IHs IHf]. split.
      * intros v Hv. destruct (IHs v Hv) as (k & Hk & Hop & Hbefore & Hlen).
        exists (S k). split; [lia|].
        replace (i + S k)%nat with (S i + k)%nat by lia.
        split; [exact Hop|]. split.
        -- intros [|j] Hj.
           ++ rewrite Nat.add_0_r. now exists e.
           ++ replace (i + S j)%nat with (S i + j)%nat by lia.
              apply Hbefore. lia.
        -- rewrite Hlen, length_app. simpl. lia.
      * intros Hall. destruct IHf as (Hr & added & Hw & Hl & Hd).
        { intros j Hj. replace (S i + j)%nat with (i + S j)%nat by lia.
          apply Hall. lia. }
        split.
        -- rewrite Hr. destruct n as [|m].
           ++ now rewrite Nat.add_0_r, Eo.
           ++ replace (S i + m)%nat with (i + S m)%nat by lia. reflexivity.
        -- exists (retry_delay baseDelay i e :: added).
           split; [now rewrite Hw, <- app_assoc|].
           split; [simpl; lia|].
           intros [|j] d Hj.
           ++ injection Hj as <-. rewrite Nat.add_0_r. now exists e.
           ++ replace (i + S j)%nat with (S i + j)%nat by lia.
              now apply Hd.
    + cbn [fst snd]. split.
      * intros v' [= <-]. exists 0%nat. rewrite Nat.add_0_r.
        split; [lia|]. split; [exact Eo|]. split; [intros j Hj; lia|lia].
      * intros Hall. destruct (Hall 0%nat) as [e He]; [lia|].
        rewrite Nat.add_0_r in He. congruence.
Qed.

Lemma retry_loop_success {T : Type} (operation : nat -> ApiError + T)
  (baseDelay : Q) (v : T) (remaining : nat) : forall i lastError waits k,
  (k < remaining)%nat -> operation (i + k)%nat = inr v ->
  (forall j, (j < k)%nat -> exists e, operation (i + j)%nat = inl e) ->
  fst (retry_loop operation baseDelay remaining i lastError waits) = inr v.
Proof.
  induction remaining as [|n IH]; intros i le w k Hk Hop Hb; [lia|].
  cbn [retry_loop]. destruct k as [|k].
  - rewrite Nat.add_0_r in Hop. now rewrite Hop.
  - destruct (Hb 0%nat) as [e He]; [lia|]. rewrite Nat.add_0_r in He.
    rewrite He. apply (IH (S i) _ _ k); [lia| |].
    + now replace (S i + k)%nat with (i + S k)%nat by lia.
    + intros j Hj. replace (S i + j)%nat with (i + S j)%nat by lia.
      apply Hb. lia.
Qed.

(** X5. [withRetry] returns the value of the first attempt that
    succeeds among the first [retries] attempts, having waited once
    after each failed attempt before it; conversely a value is returned
    only in that way. *)
Theorem withRetry_first_success {T : Type}
  (operation : nat -> ApiError + T) (retries : nat) (baseDelay : Q) (v : T) :
  fst (withRetry operation retries baseDelay) = inr v
  <-> exists k, (k < retries)%nat /\ operation k = inr v
        /\ forall j, (j < k)%nat -> exists e, operation j = inl e.
Proof.
  unfold withRetry. split.
  - intros H.
    destruct (retry_loop_spec operation baseDelay retries 0 None []) as [Hs _].
    destruct (Hs v H) as (k & Hk & Hop & Hb & _). exists k. auto.
  - intros (k & Hk & Hop & Hb).
    apply (retry_loop_success operation baseDelay v retries 0 None [] k);
      assumption.
Qed.

Lemma withRetry_first_success_witness :
  fst (withRetry
         (fun k => if (k <? 2)%nat
                   then inl (mkApiError (StatusNumber 429) None "{}")
                   else inr k)
         3 2000) = inr 2%nat.
Proof.
  apply (withRetry_first_success
           (fun k => if (k <? 2)%nat
                     then inl (mkApiError (StatusNumber 429) None "{}")
                     else inr k) 3 2000 2%nat).
  exists 2%nat. split; [lia|]. split; [reflexivity|].
  intros j Hj. destruct j as [|[|j]]; [eexists; reflexivity..|lia].
Defined.

Lemma sumQ_app l1 l2 : sumQ (l1 ++ l2) == sumQ l1 + sumQ l2.
Proof. induction l1 as [|a l1 IH]; simpl; [ring|rewrite IH; ring]. Qed.

Lemma pow2_succ n :
  inject_Z (2 ^ Z.of_nat (S n)) == 2 * inject_Z (2 ^ Z.of_nat n).
Proof.
  rewrite Nat2Z.inj_succ, Z.pow_succ_r by lia.
  now rewrite inject_Z_mult.
Qed.

(** X6. When every attempt fails, [withRetry] throws the error of the
    last attempt ([undefined] when [retries] is 0, in which case the
    operation is never called), after waiting once per attempt, the
    last included, the [i]-th wait being [6000 * 2^i] ms after a rate
    limit and [baseDelay * 2^i] ms otherwise. If every failure is a rate
    limit the waits add up to [6000 * (2^retries - 1)] ms. *)
Theorem withRetry_exhausted {T : Type} (operation : nat -> ApiError + T)
  (errors : nat -> ApiError) (retries : nat) (baseDelay : Q) :
  (forall j, (j < retries)%nat -> operation j = inl (errors j)) ->
  let r := withRetry operation retries baseDelay in
  fst r = inl (match retries with
               | O => None
               | S n => Some (errors n)
               end)
  /\ length (snd r) = retries
  /\ (forall j d, snd r !! j = Some d ->
        d = retry_delay baseDelay j (errors j))
  /\ ((forall j, (j < retries)%nat -> isRateLimit (errors j) = true) ->
      sumQ (snd r) == 6000 * (inject_Z (2 ^ Z.of_nat retries) - 1)).
Proof.
  intros Hall r. subst r. unfold withRetry.
  destruct (retry_loop_spec operation baseDelay retries 0 None []) as [_ Hf].
  cbv zeta in Hf.
  destruct Hf as (Hr & added & Hw & Hl & Hd).
  { intros j Hj. exists (errors j). now apply Hall. }
  rewrite app_nil_l in Hw. rewrite Hw.
  split; [|split; [exact Hl|split]].
  - rewrite Hr. destruct retries as [|n]; [reflexivity|].
    cbn [Nat.add]. rewrite Hall by lia. reflexivity.
  - intros j d Hj. destruct (Hd j d Hj) as (e & He & ->).
    cbn [Nat.add] in He. apply lookup_lt_Some in Hj.
    rewrite Hall in He by lia. now injection He as <-.
  - intros Hrate.
    assert (forall j d, added !! j = Some d ->
                        d = 6000 * inject_Z (2 ^ Z.of_nat j)) as Hd'.
    { intros j d Hj. destruct (Hd j d Hj) as (e & He & ->).
      cbn [Nat.add] in He. apply lookup_lt_Some in Hj.
      rewrite Hall in He by lia. injection He as <-.
      unfold retry_delay. rewrite Hrate by lia. reflexivity. }
    clear - Hl Hd'. revert added Hl Hd'.
    induction retries as [|n IH]; intros added Hl Hd'.
    + destruct added; [|discriminate]. reflexivity.
    + destruct (added) as [|d0 rest] eqn:Ea using rev_ind; [discriminate|].
      clear IHrest. rewrite length_app in Hl. simpl in Hl.
      rewrite sumQ_app. rewrite (IH rest).
      * rewrite (Hd' n d0).
        -- simpl sumQ. rewrite pow2_succ. ring.
        -- rewrite lookup_app_r by lia.
           replace (n - length rest)%nat with 0%nat by lia. reflexivity.
      * lia.
      * intros j d Hj. apply Hd'.
        rewrite lookup_app_l; [exact Hj|]. now apply lookup_lt_Some in Hj.
Qed.

Lemma withRetry_exhausted_witness :
  let r := withRetry (T := nat)
             (fun _ => inl (mkApiError (StatusNumber 429) None "{}"))
             4 3000 in
  fst r = inl (Some (mkApiError (StatusNumber 429) None "{}"))
  /\ length (snd r) = 4%nat
  /\ (forall j d, snd r !! j = Some d ->
        d = retry_delay 3000 j (mkApiError (StatusNumber 429) None "{}"))
  /\ ((forall j, (j < 4)%nat ->
         isRateLimit (mkApiError (StatusNumber 429) None "{}") = true) ->
      sumQ (snd r) == 6000 * (inject_Z (2 ^ Z.of_nat 4) - 1)).
Proof.
  apply (withRetry_exhausted (T := nat)
           (fun _ => inl (mkApiError (StatusNumber 429) None "{}"))
           (fun _ => mkApiError (StatusNumber 429) None "{}") 4 3000).
  intros j Hj. reflexivity.
Defined.

(** ** Question history *)

(** X7. After [saveQuestionHistory] on writable storage whose item
    can be spread (it is absent, empty, unparsable, an array, or a JSON
    string, which spreads into its characters), reading the history
    back gives the new questions followed by the earlier entries, cut
    to the first 100: never more than 100 entries, the new ones first,
    and nothing is deduplicated. An item that parses to a number, a
    boolean, [null] or an object cannot be spread and is never
    replaced, and neither is anything when the write fails. A stored
    JSON string is replaced by the array of the new questions followed
    by its characters. *)
Theorem saveQuestionHistory_roundtrip (newQuestions : list string)
  (stored : option StoredHistory) :
  (forall current,
      spread (getQuestionHistory stored) = Some current ->
      let after := saveQuestionHistory true newQuestions stored in
      getQuestionHistory after
      = HArray (take 100 (map JString newQuestions)
                ++ take (100 - length newQuestions) current)
      /\ (forall h, getQuestionHistory after = HArray h ->
            length h
            = Nat.min 100 (length newQuestions + length current)))
  /\ (spread (getQuestionHistory stored) = None ->
      stored = Some StoredNotIterable
      /\ forall writable,
           saveQuestionHistory writable newQuestions stored = stored)
  /\ saveQuestionHistory false newQuestions stored = stored
  /\ (forall s,
        stored = Some (StoredString s) ->
        saveQuestionHistory true newQuestions stored
        = Some (StoredArray
                  (take 100 (map JString newQuestions ++ code_points s)))).
Proof.
  split; [|split; [|split]].
  - intros current Hc after. subst after. unfold saveQuestionHistory.
    rewrite Hc. cbn [getQuestionHistory]. unfold MAX_HISTORY.
    rewrite take_app, length_map. split; [reflexivity|].
    intros h [= <-]. rewrite length_app, !length_take, length_map. lia.
  - intros Hn. split.
    + destruct stored as [[]|]; try discriminate. reflexivity.
    + intros writable. unfold saveQuestionHistory. now rewrite Hn.
  - unfold saveQuestionHistory.
    now destruct (spread (getQuestionHistory stored)).
  - intros s ->. reflexivity.
Qed.

Lemma saveQuestionHistory_roundtrip_witness :
  getQuestionHistory
    (saveQuestionHistory true ["q2"; "q1"] (Some (StoredString "ab")))
  = HArray (take 100 (map JString ["q2"; "q1"])
            ++ take (100 - 2) [JString "a"; JString "b"]).
Proof.
  destruct (saveQuestionHistory_roundtrip ["q2"; "q1"]
              (Some (StoredString "ab"))) as (H & _ & _).
  apply (H [JString "a"; JString "b"]). reflexivity.
Defined.

(** ** Progressive ordering *)

Lemma insert_by_rank_perm q l : insert_by_rank q l ≡ₚ q :: l.
Proof.
  induction l as [|x l IH]; cbn [insert_by_rank]; [reflexivity|].
  destruct (difficulty_rank x <=? difficulty_rank q)%nat; [|reflexivity].
  rewrite IH. apply Permutation_swap.
Qed.

Lemma rank_sorted_cons x l :
  rank_sorted (x :: l)
  <-> Forall (fun y => (difficulty_rank x <= difficulty_rank y)%nat) l
      /\ rank_sorted l.
Proof.
  split.
  - intros H. split.
    + apply Forall_lookup. intros j y Hj. apply (H 0%nat (S j)); [lia|done..].
    + intros i j a b Hij Hi Hj. apply (H (S i) (S j)); [lia|done..].
  - intros [Hall Hs] i j a b Hij Hi Hj. destruct j as [|j]; [lia|].
    cbn in Hj. destruct i as [|i].
    + injection Hi as <-.
      rewrite Forall_lookup in Hall. now apply (Hall j).
    + cbn in Hi. apply (Hs i j); [lia|done..].
Qed.

Lemma insert_by_rank_sorted q l :
  rank_sorted l -> rank_sorted (insert_by_rank q l).
Proof.
  induction l as [|x l IH]; intros Hs; cbn [insert_by_rank].
  - intros i j a b Hij Hi Hj. destruct i, j; try lia; discriminate.
  - apply rank_sorted_cons in Hs as [Hall Hs].
    destruct (Nat.leb_spec (difficulty_rank x) (difficulty_rank q)).
    + apply rank_sorted_cons. split; [|now apply IH].
      rewrite (insert_by_rank_perm q l). constructor; assumption.
    + apply rank_sorted_cons. split.
      * constructor; [lia|].
        eapply Forall_impl; [exact Hall|]. intros y Hy. cbn in Hy. lia.
      * apply rank_sorted_cons. split; assumption.
Qed.

Lemma filter_none {A} (P : A -> Prop) `{forall x, Decision (P x)}
  (l : list A) :
  Forall (fun x => ~ P x) l -> filter P l = [].
Proof.
  induction 1 as [|x l Hx _ IH]; [reflexivity|].
  rewrite filter_cons. now destruct (decide (P x)).
Qed.

(** Inserting behind the questions that do not rank higher keeps the
    questions of each rank in their order. *)
Lemma insert_by_rank_filter r q l :
  rank_sorted l ->
  filter (fun x => difficulty_rank x = r) (insert_by_rank q l)
  = filter (fun x => difficulty_rank x = r) l
    ++ (if decide (difficulty_rank q = r) then [q] else []).
Proof.
  induction l as [|x l IH]; intros Hs; cbn [insert_by_rank].
  - rewrite filter_cons, filter_nil. now destruct (decide _).
  - apply rank_sorted_cons in Hs as [Hall Hs].
    destruct (Nat.leb_spec (difficulty_rank x) (difficulty_rank q)).
    + rewrite !filter_cons, IH by assumption.
      now destruct (decide (difficulty_rank x = r)).
    + rewrite (filter_cons _ q).
      destruct (decide (difficulty_rank q = r)) as [Hq|Hq];
        [|now rewrite app_nil_r].
      assert (filter (fun x0 => difficulty_rank x0 = r) (x :: l) = []) as ->.
      { apply filter_none. constructor; [lia|].
        eapply Forall_impl; [exact Hall|]. intros y Hy. cbn in Hy. lia. }
      reflexivity.
Qed.

Lemma foldl_insert_spec (questions : list QuizQuestion) : forall acc,
  rank_sorted acc ->
  let out := foldl (fun a q => insert_by_rank q a) acc questions in
  out ≡ₚ acc ++ questions
  /\ rank_sorted out
  /\ forall r,
       filter (fun x => difficulty_rank x = r) out
       = filter (fun x => difficulty_rank x = r) acc
         ++ filter (fun x => difficulty_rank x = r) questions.
Proof.
  induction questions as [|q qs IH]; intros acc Hs; cbn [foldl].
  - rewrite app_nil_r. split; [reflexivity|]. split; [exact Hs|].
    intros r. now rewrite filter_nil, app_nil_r.
  - destruct (IH (insert_by_rank q acc) (insert_by_rank_sorted q acc Hs))
      as (Hp & Hsorted & Hf).
    cbv zeta. split; [|split; [exact Hsorted|]].
    + rewrite Hp, insert_by_rank_perm. cbn [app].
      apply Permutation_middle.
    + intros r. rewrite Hf, insert_by_rank_filter by assumption.
      rewrite filter_cons, <- app_assoc.
      now destruct (decide (difficulty_rank q = r)).
Qed.

(** X8. The Progressive ordering of questions whose difficulty labels
    are ordinary strings is a rearrangement of the questions in which no
    question comes before one of lower difficulty (Easy, then Medium
    and anything unlabelled or unknown, then Hard) and the questions of
    equal difficulty keep the order the generator gave them. *)
Theorem sort_progressive_stable (questions : list QuizQuestion) :
  Forall plain_difficulty questions ->
  sort_progressive questions ≡ₚ questions
  /\ (forall i j x y, (i < j)%nat ->
        sort_progressive questions !! i = Some x ->
        sort_progressive questions !! j = Some y ->
        (difficulty_rank x <= difficulty_rank y)%nat)
  /\ (forall r,
        filter (fun x => difficulty_rank x = r) (sort_progressive questions)
        = filter (fun x => difficulty_rank x = r) questions).
Proof.
  intros _. unfold sort_progressive.
  destruct (foldl_insert_spec questions []) as (Hp & Hs & Hf).
  { intros i j a b _ Hi. discriminate. }
  split; [exact Hp|]. split; [exact Hs|]. exact Hf.
Qed.

Lemma sort_progressive_stable_witness :
  let qs := [ mkQuizQuestion "a" [] 0 (Some "Hard");
              mkQuizQuestion "b" [] 0 None;
              mkQuizQuestion "c" [] 0 (Some "Easy");
              mkQuizQuestion "d" [] 0 (Some "Medium") ] in
  sort_progressive qs ≡ₚ qs
  /\ (forall i j x y, (i < j)%nat ->
        sort_progressive qs !! i = Some x ->
        sort_progressive qs !! j = Some y ->
        (difficulty_rank x <= difficulty_rank y)%nat)
  /\ (forall r,
        filter (fun x => difficulty_rank x = r) (sort_progressive qs)
        = filter (fun x => difficulty_rank x = r) qs).
Proof.
  apply (sort_progressive_stable
           [ mkQuizQuestion "a" [] 0 (Some "Hard");
             mkQuizQuestion "b" [] 0 None;
             mkQuizQuestion "c" [] 0 (Some "Easy");
             mkQuizQuestion "d" [] 0 (Some "Medium") ]).
  repeat constructor; cbn; try exact I;
    apply (bool_decide_unpack _); reflexivity.
Defined.

(** ** How many questions are requested *)





(** The bound is reached: one question split 50/50 asks for two. *)
Example getCounts_overshoot :
  let c := getCounts 50 50 0 1 in easy c + medium c + hard c == 2.
Proof. vm_compute. reflexivity. Qed.

(** ** What narration and rendering leave alone *)

Lemma backstage_refl st : backstage st st.
Proof. unfold backstage. repeat split; auto. Qed.

Lemma backstage_same st st1 st2 :
  isPlaying st2 = isPlaying st1 ->
  currentTime st2 = currentTime st1 ->
  isRecording st2 = isRecording st1 ->
  isMuted st2 = isMuted st1 ->
  masterGainValue st2 = masterGainValue st1 ->
  bgMusicNodeRef st2 = bgMusicNodeRef st1 ->
  mediaRecorderRef st2 = mediaRecorderRef st1 ->
  pendingTimeouts st2 = pendingTimeouts st1 ->
  sources st2 = sources st1 ->
  backstage st st1 -> backstage st st2.
Proof.
  intros E1 E2 E3 E4 E5 E6 E7 E8 E9 (H1 & H2 & H3 & H4 & H5 & H6 & H7 & H8 & H9).
  unfold backstage. rewrite E1, E2, E3, E4, E5, E6, E7, E8.
  repeat split; try assumption.
  intros n (s & Hs & Hk). apply H9. exists s. now rewrite <- E9.
Qed.

Lemma backstage_alter (f : SourceNode -> SourceNode) n st st1 :
  (forall s, kind (f s) = kind s) ->
  (forall s, sounding (f s) = true -> sounding s = true) ->
  backstage st st1 ->
  backstage st (set_sources (alter f n (sources st1)) st1).
Proof.
  intros Hk Hs (H1 & H2 & H3 & H4 & H5 & H6 & H7 & H8 & H9).
  unfold backstage. repeat split; try assumption.
  intros m (s & Hm & Hv & Hso). apply H9. cbn [sources set_sources] in Hm.
  destruct (decide (n = m)) as [->|Hne].
  - rewrite list_lookup_alter_eq in Hm.
    destruct (sources st1 !! m) as [s0|] eqn:E; cbn in Hm; [|discriminate].
    injection Hm as <-. exists s0. rewrite Hk in Hv. auto.
  - rewrite list_lookup_alter_ne in Hm by assumption. now exists s.
Qed.

Lemma backstage_stop n st st1 :
  backstage st st1 -> backstage st (stop_source n st1).
Proof.
  intros H. unfold stop_source.
  apply (backstage_same st
           (set_sources
              (alter (fun s => mkSourceNode (kind s) (loop s) false) n
                 (sources st1)) st1)); try reflexivity.
  apply backstage_alter; [| |exact H]; intros s; simpl; congruence.
Qed.

Lemma backstage_append k lp st st1 :
  is_music k = false -> backstage st st1 ->
  backstage st (set_sources (sources st1 ++ [mkSourceNode k lp true]) st1).
Proof.
  intros Hk (H1 & H2 & H3 & H4 & H5 & H6 & H7 & H8 & H9).
  unfold backstage. repeat split; try assumption.
  intros m (s & Hm & Hv & Hso). apply H9. cbn [sources set_sources] in Hm.
  exists s. split; [|tauto].
  destruct (decide (m < length (sources st1))%nat) as [Hlt|Hge].
  - now rewrite lookup_app_l in Hm.
  - rewrite lookup_app_r in Hm by lia.
    destruct (m - length (sources st1))%nat; simpl in Hm; [|discriminate].
    injection Hm as <-. simpl in Hv. congruence.
Qed.

Ltac backstage_step :=
  match goal with
  | |- backstage ?s ?s => apply backstage_refl
  | H : backstage ?s ?s1 |- backstage ?s ?s1 => exact H
  | |- backstage _ (let '(_, _) := start_source _ _ _ _ in _) =>
      unfold start_source
  | |- backstage _ (snd (start_source _ _ _ _)) =>
      unfold start_source; cbn [snd]
  | |- backstage _ (match ?x with _ => _ end) => destruct x eqn:?
  | |- backstage _ (stop_source _ _) => apply backstage_stop
  | |- backstage _ (set_sources (sources ?s1 ++ [mkSourceNode _ _ true]) ?s1) =>
      apply backstage_append; [reflexivity|]
  | |- backstage ?s (?f _ ?s1) =>
      apply (backstage_same s s1); [reflexivity..|]
  end.

Lemma backstage_playVoiceTrack a i ty off st st1 :
  backstage st st1 -> backstage st (playVoiceTrack a i ty off st1).
Proof. intros H. unfold playVoiceTrack. repeat backstage_step. Qed.

Lemma backstage_playTickSound p a ty st st1 :
  backstage st st1 -> backstage st (playTickSound p a ty st1).
Proof. intros H. unfold playTickSound. repeat backstage_step. Qed.

Lemma backstage_drawSlideState p a playing i localTime alpha st st1 :
  backstage st st1 ->
  backstage st (drawSlideState p a playing i localTime alpha st1).
Proof.
  intros H. unfold drawSlideState.
  destruct (slides p !! i), (timings a !! i); try exact H.
  cbv zeta. repeat first [ apply backstage_playTickSound | backstage_step ].
Qed.

Lemma backstage_renderFrame p a playing time st st1 :
  backstage st st1 -> backstage st (renderFrame p a playing time st1).
Proof.
  intros H. unfold renderFrame.
  repeat first [ apply backstage_drawSlideState | backstage_step ].
Qed.

Lemma backstage_audioSync a next st st1 :
  backstage st st1 -> backstage st (audioSync a next st1).
Proof.
  intros H. unfold audioSync.
  repeat first [ apply backstage_playVoiceTrack | backstage_step ].
Qed.

(** ** Music, gain and playhead along a run *)

Lemma stop_music_silent st :
  (forall n, sounding_music st n -> bgMusicNodeRef st = Some n) ->
  forall m, ~ sounding_music (match bgMusicNodeRef st with
                              | Some n => stop_source n st
                              | None => st
                              end) m.
Proof.
  intros H m (s & Hm & Hv & Hso).
  destruct (bgMusicNodeRef st) as [n|] eqn:E.
  - unfold stop_source, emit in Hm. cbn [sources set_sources set_log] in Hm.
    destruct (decide (n = m)) as [->|Hne].
    + rewrite list_lookup_alter_eq in Hm.
      destruct (sources st !! m); cbn in Hm; [|discriminate].
      injection Hm as <-. simpl in Hso. discriminate.
    + rewrite list_lookup_alter_ne in Hm by assumption.
      pose proof (H m ltac:(now exists s)). congruence.
  - pose proof (H m ltac:(now exists s)). congruence.
Qed.

Lemma silent_backstage st st' :
  backstage st st' -> (forall n, ~ sounding_music st n) ->
  forall n, ~ sounding_music st' n.
Proof.
  intros (_ & _ & _ & _ & _ & _ & _ & _ & H9) Hs n Hn. apply (Hs n), H9, Hn.
Qed.

(** A state with no music sounding satisfies the music invariant. *)
Lemma music_inv_silent st :
  (forall n, ~ sounding_music st n) -> music_inv st.
Proof.
  intros H. split.
  - intros n Hn. now apply H in Hn.
  - intros _. exact H.
Qed.

(** The pause half of [togglePlay], also run by [reset]: both held
    sources are stopped. *)
Lemma stops_silent st :
  (forall n, sounding_music st n -> bgMusicNodeRef st = Some n) ->
  let st2 := match bgMusicNodeRef st with
             | Some n => stop_source n st
             | None => st
             end in
  let st3 := match voiceNodeRef st2 with
             | Some n => stop_source n st2
             | None => st2
             end in
  forall m, ~ sounding_music st3 m.
Proof.
  intros H st2 st3. apply (silent_backstage st2).
  - subst st3. destruct (voiceNodeRef st2); [apply backstage_stop|];
      apply backstage_refl.
  - apply stop_music_silent. exact H.
Qed.

Lemma stops_backstage st :
  let st2 := match bgMusicNodeRef st with
             | Some n => stop_source n st
             | None => st
             end in
  let st3 := match voiceNodeRef st2 with
             | Some n => stop_source n st2
             | None => st2
             end in
  backstage st st3.
Proof. cbv zeta. repeat backstage_step. Qed.

Section Stage.
Variables (p : Props) (a : Assets) (P : Q -> Prop).
Hypothesis P_zero : P 0.
Hypothesis P_end : P (totalDuration a).
Hypothesis P_before : forall x, x < totalDuration a -> P x.

Lemma stage_inv_same st st' :
  sources st' = sources st -> bgMusicNodeRef st' = bgMusicNodeRef st ->
  isPlaying st' = isPlaying st -> isMuted st' = isMuted st ->
  masterGainValue st' = masterGainValue st ->
  currentTime st' = currentTime st ->
  stage_inv P st -> stage_inv P st'.
Proof.
  intros E1 E2 E3 E4 E5 E6 ((I1 & I2) & Hg & Ht).
  unfold stage_inv, music_inv, gain_inv, sounding_music.
  rewrite E1, E2, E3, E4, E5, E6. repeat split; assumption.
Qed.

Lemma stage_inv_backstage st st' :
  backstage st st' -> stage_inv P st -> stage_inv P st'.
Proof.
  intros (H1 & H2 & H3 & H4 & H5 & H6 & H7 & H8 & H9) ((I1 & I2) & Hg & Ht).
  unfold stage_inv, music_inv, gain_inv. rewrite H1, H2, H4, H5, H6.
  repeat split; try assumption.
  - intros n Hn. apply I1. now apply H9.
  - intros Hp n Hn. apply (I2 Hp n). now apply H9.
Qed.

Lemma stage_inv_silent st st' :
  (forall n, ~ sounding_music st' n) ->
  isMuted st' = isMuted st -> masterGainValue st' = masterGainValue st ->
  P (currentTime st') ->
  stage_inv P st -> stage_inv P st'.
Proof.
  intros Hs E4 E5 Ht (_ & Hg & _). unfold stage_inv, gain_inv.
  rewrite E4, E5. split; [now apply music_inv_silent|]. split; assumption.
Qed.

Lemma stage_inv_togglePlay playing time now st :
  stage_inv P st -> stage_inv P (togglePlay a playing time now st).
Proof.
  intros Hinv. pose proof Hinv as ((I1 & I2) & Hg & Ht).
  unfold togglePlay. destruct playing; cbn [negb].
  - (* pause *)
    cbv zeta.
    set (st1 := set_isPlaying false st).
    set (st2 := match bgMusicNodeRef st1 with
                | Some n => stop_source n st1
                | None => st1
                end).
    set (st3 := match voiceNodeRef st2 with
                | Some n => stop_source n st2
                | None => st2
                end).
    apply (stage_inv_same st3); [reflexivity..|].
    destruct (stops_backstage st1) as (_ & E2 & _ & E4 & E5 & _).
    cbv zeta in E2, E4, E5. fold st2 in E2, E4, E5. fold st3 in E2, E4, E5.
    apply (stage_inv_silent st).
    + apply (stops_silent st1). exact I1.
    + exact E4.
    + exact E5.
    + rewrite E2. exact Ht.
    + exact Hinv.
  - (* play *)
    cbv zeta.
    set (st1 := set_previousTimeRef now (set_isPlaying true st)).
    assert (forall n, sounding_music st1 n -> bgMusicNodeRef st1 = Some n)
      as I1' by exact I1.
    unfold startBgMusic.
    destruct (audioGraph a), (bgMusicBufferRef a) as [buffer|];
      try (split; [split; [exact I1|discriminate]|split; assumption]).
    pose proof (stop_music_silent st1 I1') as Hsilent.
    set (st2 := match bgMusicNodeRef st1 with
                | Some n => stop_source n st1
                | None => st1
                end) in *.
    assert (isMuted st2 = isMuted st /\ masterGainValue st2 = masterGainValue st
            /\ currentTime st2 = currentTime st) as (E4 & E5 & E6).
    { subst st2. destruct (bgMusicNodeRef st1); repeat split. }
    unfold start_source, emit. cbn.
    split; [split|split].
    + intros m (s & Hn & Hk & Hso). cbn in Hn.
      destruct (decide (m < length (sources st2))%nat) as [Hlt|Hge].
      * rewrite lookup_app_l in Hn by assumption.
        exfalso. apply (Hsilent m). now exists s.
      * apply lookup_lt_Some in Hn. rewrite length_app in Hn.
        simpl in Hn. cbn. f_equal. lia.
    + cbn. assert (isPlaying st2 = true) as ->
        by (subst st2; destruct (bgMusicNodeRef st1); reflexivity).
      discriminate.
    + unfold gain_inv. cbn. rewrite E4, E5. exact Hg.
    + cbn. rewrite E6. exact Ht.
Qed.

Lemma stage_inv_reset playing st :
  stage_inv P st -> stage_inv P (reset p a playing st).
Proof.
  intros Hinv. pose proof Hinv as ((I1 & I2) & Hg & Ht).
  unfold reset. cbv zeta.
  set (st1 := set_lastTickTimeRef (-1)%Z
                (set_currentAudioTrackRef None
                   (set_currentTime 0 (set_isPlaying false st)))).
  set (st2 := match bgMusicNodeRef st1 with
              | Some n => stop_source n st1
              | None => st1
              end).
  set (st3 := match voiceNodeRef st2 with
              | Some n => stop_source n st2
              | None => st2
              end).
  apply (stage_inv_backstage st3);
    [apply backstage_renderFrame, backstage_refl|].
  destruct (stops_backstage st1) as (_ & E2 & _ & E4 & E5 & _).
  cbv zeta in E2, E4, E5. fold st2 in E2, E4, E5. fold st3 in E2, E4, E5.
  apply (stage_inv_silent st).
  - apply (stops_silent st1). exact I1.
  - exact E4.
  - exact E5.
  - rewrite E2. exact P_zero.
  - exact Hinv.
Qed.

Lemma stage_inv_animate timestamp st :
  stage_inv P st -> stage_inv P (animate a timestamp st).
Proof.
  intros Hinv. pose proof Hinv as ((I1 & I2) & Hg & Ht).
  unfold animate. destruct (isPlaying st) eqn:Hp.
  - destruct (JS.geb _ (totalDuration a)) eqn:Hend.
    + apply (stage_inv_silent st); try assumption.
      * apply (stop_music_silent (set_isPlaying false st)). exact I1.
      * now destruct (bgMusicNodeRef (set_isPlaying false st)).
      * now destruct (bgMusicNodeRef (set_isPlaying false st)).
    + apply geb_false in Hend.
      set (next := currentTime st + (timestamp - previousTimeRef st)) in *.
      pose proof (backstage_audioSync a next st st (backstage_refl st))
        as Hb.
      pose proof (stage_inv_backstage st _ Hb Hinv) as ((J1 & J2) & Jg & _).
      destruct Hb as (Hp' & _).
      split; [split|split].
      * exact J1.
      * cbn. rewrite Hp', Hp. discriminate.
      * exact Jg.
      * cbn. now apply P_before.
  - now apply (stage_inv_same st).
Qed.

Lemma stage_inv_step act st :
  seeks_to P act -> stage_inv P st -> stage_inv P (player_step p a act st).
Proof.
  intros Hseek Hinv. destruct act; cbn [player_step].
  - now apply stage_inv_animate.
  - apply (stage_inv_backstage st); [|exact Hinv].
    apply backstage_renderFrame, backstage_refl.
  - now apply stage_inv_togglePlay.
  - now apply stage_inv_reset.
  - unfold seek. cbn in Hseek.
    set (st1 := set_currentAudioTrackRef None (set_currentTime t st)).
    assert (stage_inv P st1) as H1.
    { destruct Hinv as (Hm & Hg & _). split; [exact Hm|]. split; assumption. }
    destruct (negb (isPlaying st)); [|exact H1].
    apply (stage_inv_backstage st1); [|exact H1].
    apply backstage_renderFrame, backstage_refl.
  - unfold startRecording. destruct (audioGraph a); [|exact Hinv].
    apply (stage_inv_same (reset p a (isPlaying st)
             (set_isRecording true
                (emit RecorderStart
                   (set_mediaRecorderRef (Some recording) st)))));
      try reflexivity.
    apply stage_inv_reset.
    now apply (stage_inv_same st).
  - destruct (pendingTimeouts st) as [|[playing time] rest]; [exact Hinv|].
    apply stage_inv_togglePlay. now apply (stage_inv_same st).
  - unfold stopRecording.
    destruct (mediaRecorderRef st) as [[]|]; try exact Hinv.
    apply stage_inv_togglePlay. now apply (stage_inv_same st).
  - destruct (mediaRecorderRef st) as [[]|]; try exact Hinv.
    destruct (isRecording st); [|exact Hinv].
    now apply (stage_inv_same st).
  - unfold toggleMute. destruct (audioGraph a); [|exact Hinv].
    destruct Hinv as (Hm & Hg & Ht).
    split; [exact Hm|]. split; [|exact Ht].
    unfold gain_inv. cbn. now destruct (isMuted st).
  - apply (stage_inv_backstage st); [|exact Hinv].
    unfold source_ended. apply backstage_alter; [| |apply backstage_refl].
    + intros s. now destruct (loop s).
    + intros s. destruct (loop s); [tauto|simpl; congruence].
Qed.

Lemma stage_inv_run acts : forall st,
  Forall (seeks_to P) acts ->
  stage_inv P st -> stage_inv P (player_run p a acts st).
Proof.
  induction acts as [|act acts IH]; intros st Hseek Hinv; [exact Hinv|].
  apply Forall_cons in Hseek as [Hs Hrest]. cbn [player_run].
  apply IH; [exact Hrest|]. now apply stage_inv_step.
Qed.

Lemma stage_inv_initial : stage_inv P initial_player.
Proof.
  split; [|split; [reflexivity|exact P_zero]].
  apply music_inv_silent. intros n (s & Hs & _). discriminate.
Qed.

End Stage.

(** Music and gain need nothing of the playhead. *)
Lemma sound_inv_run p a acts :
  stage_inv (fun _ => True) (player_run p a acts initial_player).
Proof.
  apply stage_inv_run; try easy.
  - apply Forall_forall. intros act _. now destruct act.
  - now apply stage_inv_initial.
Qed.

(** X10. However the player is driven from its mounted state with the
    assets of one preload, at most one background-music source is
    sounding, it is the one held in [bgMusicNodeRef], and none is
    sounding while the player is not playing. *)
Theorem music_only_while_playing p a acts :
  let st := player_run p a acts initial_player in
  (forall n, sounding_music st n -> bgMusicNodeRef st = Some n)
  /\ (forall n m, sounding_music st n -> sounding_music st m -> n = m)
  /\ (isPlaying st = false -> forall n, ~ sounding_music st n).
Proof.
  intros st. destruct (sound_inv_run p a acts) as ((I1 & I2) & _).
  fold st in I1, I2. split; [exact I1|]. split; [|exact I2].
  intros n m Hn Hm. apply I1 in Hn, Hm. congruence.
Qed.

(** X11. However the player is driven from its mounted state with the
    audio graph of one preload, the master gain is 0 when the player is
    muted and 1 when it is not. *)
Theorem gain_follows_mute p a acts :
  let st := player_run p a acts initial_player in
  masterGainValue st = if isMuted st then 0 else 1.
Proof.
  intros st. destruct (sound_inv_run p a acts) as (_ & Hg & _). exact Hg.
Qed.

(** X12. When the total duration is not negative and every seek of a
    run lands at or before it, the playhead never passes the total
    duration, whatever the frame timestamps are. *)
Theorem playhead_within_duration p a acts :
  0 <= totalDuration a -> Forall (seek_in_range a) acts ->
  currentTime (player_run p a acts initial_player) <= totalDuration a.
Proof.
  intros Hpos Hseek.
  refine (proj2 (proj2
    (stage_inv_run p a (fun t => t <= totalDuration a) Hpos (Qle_refl _)
       (fun x => @Qlt_le_weak x _) acts initial_player Hseek
       (stage_inv_initial _ Hpos)))).
Qed.

(** ** Pausing and resetting *)

Lemma hush_refl st : hush st st.
Proof. intros n H. exact H. Qed.

Lemma hush_same st st1 st2 :
  sources st2 = sources st1 -> hush st st1 -> hush st st2.
Proof.
  intros E H n (s & Hs & Hk). apply H. exists s. now rewrite <- E.
Qed.

Lemma hush_append k lp st st1 :
  is_voice k = false -> hush st st1 ->
  hush st (set_sources (sources st1 ++ [mkSourceNode k lp true]) st1).
Proof.
  intros Hk H m (s & Hm & Hv & Hso). apply H. cbn [sources set_sources] in Hm.
  exists s. split; [|tauto].
  destruct (decide (m < length (sources st1))%nat) as [Hlt|Hge].
  - now rewrite lookup_app_l in Hm.
  - rewrite lookup_app_r in Hm by lia.
    destruct (m - length (sources st1))%nat; simpl in Hm; [|discriminate].
    injection Hm as <-. simpl in Hv. congruence.
Qed.

Ltac hush_step :=
  match goal with
  | |- hush ?s ?s => apply hush_refl
  | H : hush ?s ?s1 |- hush ?s ?s1 => exact H
  | |- hush _ (snd (start_source _ _ _ _)) =>
      unfold start_source; cbn [snd]
  | |- hush _ (match ?x with _ => _ end) => destruct x eqn:?
  | |- hush _ (set_sources (sources ?s1 ++ [mkSourceNode _ _ true]) ?s1) =>
      apply hush_append; [reflexivity|]
  | |- hush ?s (?f _ ?s1) => apply (hush_same s s1); [reflexivity|]
  end.

Lemma hush_playTickSound p a ty st st1 :
  hush st st1 -> hush st (playTickSound p a ty st1).
Proof. intros H. unfold playTickSound. repeat hush_step. Qed.

Lemma hush_drawSlideState p a playing i localTime alpha st st1 :
  hush st st1 -> hush st (drawSlideState p a playing i localTime alpha st1).
Proof.
  intros H. unfold drawSlideState.
  destruct (slides p !! i), (timings a !! i); try exact H.
  cbv zeta. repeat first [ apply hush_playTickSound | hush_step ].
Qed.

Lemma hush_renderFrame p a playing time st st1 :
  hush st st1 -> hush st (renderFrame p a playing time st1).
Proof.
  intros H. unfold renderFrame.
  repeat first [ apply hush_drawSlideState | hush_step ].
Qed.

(** Stopping the held music and then the held narration leaves neither
    sounding. *)
Lemma stops_quiet st :
  voice_inv st ->
  (forall n, sounding_music st n -> bgMusicNodeRef st = Some n) ->
  let st2 := match bgMusicNodeRef st with
             | Some n => stop_source n st
             | None => st
             end in
  let st3 := match voiceNodeRef st2 with
             | Some n => stop_source n st2
             | None => st2
             end in
  forall m, ~ sounding_voice st3 m /\ ~ sounding_music st3 m.
Proof.
  intros Hv Hm st2 st3 m. split.
  - apply (stop_held_silent st2).
    subst st2. destruct (bgMusicNodeRef st); [now apply voice_inv_stop|easy].
  - now apply (stops_silent st).
Qed.

(** X13. A click on the play button of a playing player, after any run
    from the mounted state, leaves the player paused at the same
    playhead with the narration marker cleared, and no narration or
    music source sounding. *)
Theorem pause_silences p a acts now :
  let st := player_run p a acts initial_player in
  isPlaying st = true ->
  let st' := player_step p a (ClickTogglePlay now) st in
  isPlaying st' = false
  /\ currentTime st' = currentTime st
  /\ currentAudioTrackRef st' = None
  /\ forall n, ~ sounding_voice st' n /\ ~ sounding_music st' n.
Proof.
  intros st Hp st'.
  pose proof (voice_inv_run p a acts _ voice_inv_initial) as Hv.
  destruct (sound_inv_run p a acts) as ((I1 & _) & _).
  fold st in Hv, I1. subst st'. cbn [player_step]. rewrite Hp.
  unfold togglePlay. cbn [negb]. cbv zeta.
  set (st1 := set_isPlaying false st).
  destruct (stops_backstage st1) as (E1 & E2 & _).
  pose proof (stops_quiet st1 Hv I1) as Hq.
  cbv zeta in E1, E2, Hq.
  split; [exact E1|]. split; [exact E2|]. split; [reflexivity|]. exact Hq.
Qed.

(** X14. A click on the reset button, after any run from the mounted
    state, leaves the player paused at time 0 with the narration marker
    cleared, and no narration or music source sounding. *)
Theorem reset_rewinds_and_silences p a acts :
  let st := player_run p a acts initial_player in
  let st' := player_step p a ClickReset st in
  isPlaying st' = false
  /\ currentTime st' = 0
  /\ currentAudioTrackRef st' = None
  /\ forall n, ~ sounding_voice st' n /\ ~ sounding_music st' n.
Proof.
  intros st st'.
  pose proof (voice_inv_run p a acts _ voice_inv_initial) as Hv.
  destruct (sound_inv_run p a acts) as ((I1 & _) & _).
  fold st in Hv, I1. subst st'. cbn [player_step].
  unfold reset. cbv zeta.
  set (st1 := set_lastTickTimeRef (-1)%Z
                (set_currentAudioTrackRef None
                   (set_currentTime 0 (set_isPlaying false st)))).
  destruct (stops_backstage st1) as (E1 & E2 & _).
  pose proof (stops_quiet st1 Hv I1) as Hq.
  pose proof (stop_held_fields
                (match bgMusicNodeRef st1 with
                 | Some n => stop_source n st1
                 | None => st1
                 end)) as (_ & _ & E3).
  cbv zeta in E1, E2, E3, Hq.
  set (st3 := match voiceNodeRef _ with Some n => _ | None => _ end) in *.
  destruct (backstage_renderFrame p a (isPlaying st) 0 st3 st3
              (backstage_refl st3)) as (B1 & B2 & _ & _ & _ & _ & _ & _ & B9).
  destruct (quiet_renderFrame p a (isPlaying st) 0 st3 st3 (quiet_refl st3))
    as (Q1 & _).
  pose proof (hush_renderFrame p a (isPlaying st) 0 st3 st3 (hush_refl st3))
    as Hh.
  split; [now rewrite B1|]. split; [now rewrite B2|].
  split.
  - rewrite Q1, E3. now destruct (bgMusicNodeRef st1).
  - intros n. split.
    + intros Hn. apply (proj1 (Hq n)). now apply Hh.
    + intros Hn. apply (proj2 (Hq n)). now apply B9.
Qed.

Lemma playhead_within_duration_witness :
  currentTime (player_run demo_props demo_assets
                 [ClickTogglePlay 0; Animate 100; Seek 2000; Animate 200000]
                 initial_player)
  <= totalDuration demo_assets.
Proof.
  apply playhead_within_duration.
  - vm_compute. discriminate.
  - repeat constructor. vm_compute. discriminate.
Defined.

Lemma pause_silences_witness :
  isPlaying (player_step demo_props demo_assets (ClickTogglePlay 10)
               demo_started) = false.
Proof.
  apply (pause_silences demo_props demo_assets [ClickTogglePlay 0] 10).
  vm_compute. reflexivity.
Defined.

(** ** Narration after a seek or a resume *)

(** A tick of a player whose narration marker is cleared, in a phase
    that has a track: [playVoiceTrack] is called for that track with the
    offset of the new playhead into it. *)
Lemma animate_unmarked a ts st i ph ty origin timing :
  currentAudioTrackRef st = None ->
  tick_phase a ts st = Some (i, ph) ->
  timings a !! i = Some timing ->
  phase_track ph timing = Some (ty, origin) ->
  let next := currentTime st + (ts - previousTimeRef st) in
  let st' := animate a ts st in
  currentTime st' = next
  /\ (exists rest,
        log st' = log st ++ CallPlayVoiceTrack i ty (next - origin) :: rest)
  /\ (forall buffer,
        audioGraph a <> None ->
        bufferMap a ty !! i = Some buffer ->
        (next - origin) / 1000 < duration buffer ->
        last (log st')
        = Some (SourceStart (length (sources st)) (VoiceSource i ty)
                  ((next - origin) / 1000))
        /\ currentAudioTrackRef st' = Some (i, ty)).
Proof.
  intros Hm Htick Ht Htrack next st'.
  apply tick_phase_Some in Htick as (Hp & Hend & t' & Hact & Hph).
  cbv zeta in Hend, Hact, Hph. fold next in Hend, Hact, Hph.
  destruct (findActive_lookup _ _ _ _ _ Hact) as (_ & Hl & _).
  rewrite Nat.sub_0_r, Ht in Hl. injection Hl as <-. clear Ht.
  pose proof (phase_of_cases timing next) as Hc. rewrite Hph in Hc.
  subst st'. unfold animate. cbv zeta. rewrite Hp. fold next. rewrite Hend.
  unfold audioSync. rewrite Hact, Hm.
  assert (forall off s,
            currentTime s = currentTime st -> log s = log st ->
            sources s = sources st ->
            let st' := set_previousTimeRef ts
                         (set_currentTime next
                            (playVoiceTrack a i ty off s)) in
            currentTime st' = next
            /\ (exists rest, log st' = log st ++ CallPlayVoiceTrack i ty off :: rest)
            /\ (forall buffer,
                  audioGraph a <> None ->
                  bufferMap a ty !! i = Some buffer ->
                  off / 1000 < duration buffer ->
                  last (log st')
                  = Some (SourceStart (length (sources st)) (VoiceSource i ty)
                            (off / 1000))
                  /\ currentAudioTrackRef st' = Some (i, ty))) as Hplay.
  { intros off s Ec El Es. cbv zeta. split; [reflexivity|]. split.
    - unfold playVoiceTrack, start_source, stop_source, emit.
      destruct (audioGraph a); [|cbn; rewrite El; now exists []].
      destruct (_ !! i) as [buffer|]; [|cbn; rewrite El; now exists []].
      cbn [voiceNodeRef set_log].
      destruct (voiceNodeRef s), (JS.ltb (off / 1000) (duration buffer));
        cbn; rewrite El, <- ?app_assoc; eexists; reflexivity.
    - intros buffer Hg Hb Hoff. unfold playVoiceTrack. unfold bufferMap in Hb.
      destruct (audioGraph a); [|congruence]. rewrite Hb.
      apply ltb_lt in Hoff. rewrite Hoff.
      unfold start_source, stop_source, emit. cbn [voiceNodeRef set_log].
      destruct (voiceNodeRef s); cbn; rewrite last_snoc, ?length_alter, Es;
        split; reflexivity. }
  destruct ph; cbn in Htrack; [|discriminate|].
  - injection Htrack as <- <-. rewrite Hc. cbn [track_differs].
    apply Hplay; reflexivity.
  - injection Htrack as <- <-. destruct Hc as [-> ->]. cbn [track_differs].
    apply Hplay; reflexivity.
Qed.

(** X15. After a seek to [t] on a playing player, the next tick that
    falls into the reading or the revealing phase of a slide calls
    [playVoiceTrack] for the track of that phase with the offset of the
    new playhead into the track; when the buffer is there and longer
    than the offset, the narration starts at that offset. *)
Theorem seek_restarts_narration p a t ts st i ph ty origin timing :
  isPlaying st = true ->
  let st1 := player_step p a (Seek t) st in
  tick_phase a ts st1 = Some (i, ph) ->
  timings a !! i = Some timing ->
  phase_track ph timing = Some (ty, origin) ->
  let next := t + (ts - previousTimeRef st) in
  let st2 := player_step p a (Animate ts) st1 in
  currentTime st2 = next
  /\ (exists rest,
        log st2 = log st ++ CallPlayVoiceTrack i ty (next - origin) :: rest)
  /\ (forall buffer,
        audioGraph a <> None ->
        bufferMap a ty !! i = Some buffer ->
        (next - origin) / 1000 < duration buffer ->
        last (log st2)
        = Some (SourceStart (length (sources st)) (VoiceSource i ty)
                  ((next - origin) / 1000))
        /\ currentAudioTrackRef st2 = Some (i, ty)).
Proof.
  intros Hp st1 Htick Ht Htrack next st2.
  assert (st1 = set_currentAudioTrackRef None (set_currentTime t st)) as E.
  { subst st1. cbn [player_step]. unfold seek. now rewrite Hp. }
  subst st2. cbn [player_step]. clearbody st1. subst st1.
  exact (animate_unmarked a ts
           (set_currentAudioTrackRef None (set_currentTime t st))
           i ph ty origin timing eq_refl Htick Ht Htrack).
Qed.

Lemma seek_restarts_narration_witness :
  exists rest,
    log (player_step demo_props demo_assets (Animate 0)
           (player_step demo_props demo_assets (Seek (1 # 2)) demo_started))
    = log demo_started
      ++ CallPlayVoiceTrack 0 question_track
           ((1 # 2) + (0 - previousTimeRef demo_started) - 0) :: rest.
Proof.
  destruct (seek_restarts_narration demo_props demo_assets (1 # 2) 0
              demo_started 0%nat Reading question_track 0 (demo_timing 0))
    as (_ & H & _).
  - vm_compute. reflexivity.
  - vm_compute. reflexivity.
  - vm_compute. reflexivity.
  - vm_compute. reflexivity.
  - exact H.
Defined.

(** X16. After a click on the play button of a paused player, the next
    tick that falls into the reading or the revealing phase of a slide
    calls [playVoiceTrack] for the track of that phase with the offset
    of the new playhead into the track, the playhead having advanced by
    the time since the click. *)
Theorem resume_restarts_narration p a now ts st i ph ty origin timing :
  isPlaying st = false ->
  let st1 := player_step p a (ClickTogglePlay now) st in
  tick_phase a ts st1 = Some (i, ph) ->
  timings a !! i = Some timing ->
  phase_track ph timing = Some (ty, origin) ->
  let next := currentTime st + (ts - now) in
  let st2 := player_step p a (Animate ts) st1 in
  currentTime st2 = next
  /\ exists rest,
       log st2 = log st1 ++ CallPlayVoiceTrack i ty (next - origin) :: rest.
Proof.
  intros Hp st1 Htick Ht Htrack next st2.
  assert (currentAudioTrackRef st1 = None /\ currentTime st1 = currentTime st
          /\ previousTimeRef st1 = now) as (E1 & E2 & E3).
  { subst st1. cbn [player_step]. rewrite Hp. unfold togglePlay. cbn [negb].
    cbv zeta. unfold startBgMusic, start_source.
    destruct (audioGraph a), (bgMusicBufferRef a); try easy.
    cbn. now destruct (bgMusicNodeRef st). }
  destruct (animate_unmarked a ts st1 i ph ty origin timing E1 Htick Ht Htrack)
    as (H1 & H2 & _).
  rewrite E2, E3 in H1, H2. split; assumption.
Qed.

Lemma resume_restarts_narration_witness :
  currentTime (player_step demo_props demo_assets (Animate (1 # 2))
                 (player_step demo_props demo_assets (ClickTogglePlay 0)
                    initial_player))
  = currentTime initial_player + ((1 # 2) - 0).
Proof.
  destruct (resume_restarts_narration demo_props demo_assets 0 (1 # 2)
              initial_player 0%nat Reading question_track 0 (demo_timing 0))
    as (H & _).
  - vm_compute. reflexivity.
  - vm_compute. reflexivity.
  - vm_compute. reflexivity.
  - vm_compute. reflexivity.
  - exact H.
Defined.

(** ** Rendering a frame *)

(** X17. Rendering a frame changes nothing of the playback: the playing
    flag, the playhead, the previous timestamp, the narration marker,
    the held narration and music sources, the mute flag, the master
    gain and the recorder stay as they are, the sources already there
    are untouched, no narration is called or started, and whatever
    source it starts is neither a narration nor music. *)
Theorem renderFrame_leaves_playback p a playing time st :
  let st' := renderFrame p a playing time st in
  quiet st st' /\ backstage st st' /\ hush st st'.
Proof.
  cbv zeta. split; [|split].
  - apply quiet_renderFrame, quiet_refl.
  - apply backstage_renderFrame, backstage_refl.
  - apply hush_renderFrame, hush_refl.
Qed.

(** ** The preload from start to finish *)

(** X18. Once the cleanup of the effect has run, nothing that reaches
    the preload changes the ready flag, the timings, the total
    duration, the images or the narration buffers. *)
Theorem cleanup_freezes_guarded p evs t a :
  let after := preload_step p Cleanup t a in
  guarded_fields (snd (preload_run p evs (fst after) (snd after)))
  = guarded_fields a.
Proof.
  cbv zeta.
  destruct (cancelled_preload_guarded p evs
              (fst (preload_step p Cleanup t a))
              (snd (preload_step p Cleanup t a))) as [_ H].
  - unfold preload_step. now destruct (awaiting t).
  - rewrite H. unfold preload_step.
    destruct (awaiting t); cbn; now destruct (audioGraph a).
Qed.

Lemma stage_voice_inv p c a :
  isReady a = false ->
  preload_inv p (mkPreload Finished c) (stage_voice p c a).
Proof.
  intros Hr. destruct c.
  - rewrite stage_voice_cancelled. split; [congruence|].
    split; [discriminate|discriminate].
  - pose proof (stage_voice_built p a) as Hb.
    assert (isReady (stage_voice p false a) = true) as Hready.
    { unfold stage_voice.
      pose proof (voiceover_loop_timings (timerDuration p) (slides p) 0%nat
                    [] 0 a) as H.
      destruct (voiceover_loop _ _ _ _ _ _ _) as [r a'].
      simpl in H. now subst r. }
    split; [now split|]. split; [easy|discriminate].
Qed.

Lemma preload_inv_waiting p t a :
  awaiting t <> Finished ->
  (forall pending, awaiting t = AwaitImages pending -> pending <> ∅) ->
  isReady a = false -> preload_inv p t a.
Proof.
  intros Hw Hp Hr. split; [congruence|]. split; [contradiction|exact Hp].
Qed.

Lemma preload_inv_not_ready p t a :
  preload_inv p t a -> awaiting t <> Finished -> isReady a = false.
Proof.
  intros (H & _) Hw. destruct (isReady a); [|reflexivity].
  now destruct (H eq_refl).
Qed.

Lemma stage_images_inv p c a :
  isReady a = false ->
  preload_inv p (fst (stage_images p c a)) (snd (stage_images p c a)).
Proof.
  intros Hr. unfold stage_images. destruct (decide _) as [E|E]; cbn [fst snd].
  - now apply stage_voice_inv.
  - apply preload_inv_waiting; [discriminate| |exact Hr].
    intros pending [= <-]. exact E.
Qed.

Lemma stage_sfx_inv p c a :
  isReady a = false ->
  preload_inv p (fst (stage_sfx p c a)) (snd (stage_sfx p c a)).
Proof.
  intros Hr. unfold stage_sfx. destruct (countdownSfxFile p).
  - now apply preload_inv_waiting.
  - now apply stage_images_inv.
Qed.

Lemma stage_music_inv p c a :
  isReady a = false ->
  preload_inv p (fst (stage_music p c a)) (snd (stage_music p c a)).
Proof.
  intros Hr. unfold stage_music. destruct (bgMusicFile p).
  - now apply preload_inv_waiting.
  - now apply stage_sfx_inv.
Qed.

Lemma preload_inv_step p ev t a :
  preload_inv p t a ->
  preload_inv p (fst (preload_step p ev t a)) (snd (preload_step p ev t a)).
Proof.
  intros Hinv.
  destruct (awaiting t) as [| | | |pending|] eqn:Ew.
  6:{ (* finished: only the cleanup changes anything *)
    destruct Hinv as (H1 & H2 & H3).
    unfold preload_step. rewrite Ew.
    destruct ev as [[?|]|[?|]|? ?|?|]; try (now rewrite Ew in * );
      try (split; [exact H1|split; [exact H2|exact H3]]).
    cbn [fst snd]. split; [|split; [discriminate|discriminate]].
    intros Hr. split; [reflexivity|].
    assert (isReady a = true) as Hr' by (now destruct (audioGraph a)).
    destruct (H1 Hr') as [_ Hb]. now destruct (audioGraph a). }
  all: assert (isReady a = false) as Hr
         by (apply (preload_inv_not_ready p t a Hinv); congruence).
  all: unfold preload_step; rewrite Ew.
  all: destruct ev as [[bytes|]|[buffer|]|k img|k|]; cbn [fst snd];
         try exact Hinv;
         try (now apply stage_sfx_inv);
         try (now apply stage_images_inv);
         try (now apply preload_inv_waiting);
         try (apply preload_inv_waiting; cbn [awaiting];
              [discriminate|discriminate
              |now destruct (audioGraph a)]).
  - (* an image loads *)
    destruct (decide (k ∈ pending)); [|exact Hinv].
    set (a' := match slides p !! k with
               | Some slide =>
                   if cancelled t then a
                   else set_imagesRef (<[id slide:=img]> (imagesRef a)) a
               | None => a
               end).
    assert (isReady a' = false) as Hr'.
    { subst a'. destruct (slides p !! k); [|exact Hr].
      now destruct (cancelled t). }
    destruct (decide (pending ∖ {[k]} = ∅)) as [E|E]; cbn [fst snd].
    + now apply stage_voice_inv.
    + apply preload_inv_waiting; [discriminate| |exact Hr'].
      intros pending' [= <-]. exact E.
  - (* an image fails *)
    destruct (decide (k ∈ pending)); [|exact Hinv].
    destruct (decide (pending ∖ {[k]} = ∅)) as [E|E]; cbn [fst snd].
    + now apply stage_voice_inv.
    + apply preload_inv_waiting; [discriminate| |exact Hr].
      intros pending' [= <-]. exact E.
  - (* the cleanup while images are pending *)
    apply preload_inv_waiting; cbn [awaiting].
    + discriminate.
    + intros pending' [= <-]. destruct Hinv as (_ & _ & H3). now apply H3.
    + now destruct (audioGraph a).
Qed.

Lemma preload_inv_run p evs : forall t a,
  preload_inv p t a ->
  preload_inv p (fst (preload_run p evs t a)) (snd (preload_run p evs t a)).
Proof.
  induction evs as [|ev evs IH]; intros t a Hinv; [exact Hinv|].
  cbn [preload_run].
  pose proof (preload_inv_step p ev t a Hinv) as Hstep.
  destruct (preload_step p ev t a) as [t' a']. now apply IH.
Qed.

(** X19. Whatever reaches a preload from its start on, in any order and
    with any outcome of the decodings and image loads: the player is
    ready only when the preload has finished, and then its timings and
    total duration are those built for its slides and thinking time;
    and a preload that has finished without being cancelled has made
    the player ready. *)
Theorem preload_ready p ctx a0 evs :
  let start := prepareAssets p ctx a0 in
  let t := fst (preload_run p evs (fst start) (snd start)) in
  let a := snd (preload_run p evs (fst start) (snd start)) in
  (isReady a = true -> awaiting t = Finished /\ built p a)
  /\ (awaiting t = Finished -> cancelled t = false -> isReady a = true).
Proof.
  cbv zeta.
  destruct (preload_inv_run p evs
              (fst (prepareAssets p ctx a0)) (snd (prepareAssets p ctx a0)))
    as (H1 & H2 & _); [|now split].
  unfold prepareAssets. now apply stage_music_inv.
Qed.

Lemma stage_images_measure p c a :
  (preload_measure p (fst (stage_images p c a))
   <= size (image_promises 0 (slides p)))%nat.
Proof.
  unfold stage_images. destruct (decide _); cbn; [lia|reflexivity].
Qed.

Lemma stage_sfx_measure p c a :
  (preload_measure p (fst (stage_sfx p c a))
   <= 2 + size (image_promises 0 (slides p)))%nat.
Proof.
  unfold stage_sfx. destruct (countdownSfxFile p); [reflexivity|].
  pose proof (stage_images_measure p c (set_countdownSfxBufferRef None a)).
  lia.
Qed.

Lemma awaited_progress p ev t a :
  awaited ev t = true ->
  (preload_measure p (fst (preload_step p ev t a)) < preload_measure p t)%nat.
Proof.
  unfold awaited, preload_step.
  destruct ev as [[bytes|]|[buffer|]|k img|k|],
           (awaiting t) as [| | | |pending|] eqn:Ew;
    try discriminate; intros Hk;
    unfold preload_measure at 2; rewrite Ew; cbn [fst];
    try (cbn; lia);
    try match goal with
        | |- context [stage_sfx ?p ?c ?a] =>
            pose proof (stage_sfx_measure p c a); lia
        | |- context [stage_images ?p ?c ?a] =>
            pose proof (stage_images_measure p c a); lia
        end.
  - apply bool_decide_eq_true in Hk. rewrite decide_True by assumption.
    assert (size (pending ∖ {[k]}) < size pending)%nat
      by (now apply subset_size, subset_difference_elem_of).
    destruct (decide (pending ∖ {[k]} = ∅)); cbn; lia.
  - apply bool_decide_eq_true in Hk. rewrite decide_True by assumption.
    assert (size (pending ∖ {[k]}) < size pending)%nat
      by (now apply subset_size, subset_difference_elem_of).
    destruct (decide (pending ∖ {[k]} = ∅)); cbn; lia.
Qed.

(** X20. A preload is never stuck and never waits long: it starts at
    most four settlements plus one per slide with a background image
    away from its end; whatever has reached it, if it has not finished
    there is an event it waits for; and every event it waits for,
    whether it brings a result or a failure, takes it strictly closer
    to its end. *)
Theorem preload_progress p ctx a0 evs :
  let start := prepareAssets p ctx a0 in
  let t := fst (preload_run p evs (fst start) (snd start)) in
  let a := snd (preload_run p evs (fst start) (snd start)) in
  (preload_measure p (fst start)
   <= 4 + size (image_promises 0 (slides p)))%nat
  /\ (awaiting t <> Finished -> exists ev, awaited ev t = true)
  /\ (forall ev, awaited ev t = true ->
        (preload_measure p (fst (preload_step p ev t a))
         < preload_measure p t)%nat)
  /\ (preload_measure p t = 0%nat -> awaiting t = Finished).
Proof.
  cbv zeta.
  assert (preload_inv p
            (fst (preload_run p evs (fst (prepareAssets p ctx a0))
                    (snd (prepareAssets p ctx a0))))
            (snd (preload_run p evs (fst (prepareAssets p ctx a0))
                    (snd (prepareAssets p ctx a0))))) as (_ & _ & Hpending).
  { apply preload_inv_run. unfold prepareAssets. now apply stage_music_inv. }
  set (t := fst (preload_run _ _ _ _)) in *.
  set (a := snd (preload_run _ _ _ _)) in *.
  split; [|split; [|split]].
  - unfold prepareAssets, stage_music. destruct (bgMusicFile p); [reflexivity|].
    match goal with
    | |- context [stage_sfx ?p ?c ?a] => pose proof (stage_sfx_measure p c a)
    end. lia.
  - intros Hw. unfold awaited.
    destruct (awaiting t) as [| | | |pending|] eqn:Ew; [..|congruence].
    + now exists (ArrayBufferSettled None).
    + now exists (DecodeSettled None).
    + now exists (ArrayBufferSettled None).
    + now exists (DecodeSettled None).
    + destruct (set_choose_L pending (Hpending pending eq_refl)) as [k Hk].
      exists (ImageFailed k). now apply bool_decide_eq_true.
  - intros ev. apply awaited_progress.
  - unfold preload_measure.
    destruct (awaiting t) as [| | | |pending|] eqn:Ew; try discriminate;
      [|reflexivity].
    intros Hz. apply size_empty_inv in Hz.
    destruct (Hpending pending eq_refl). now apply leibniz_equiv.
Qed.

(** ** The narration buffers a preload leaves *)

Lemma voiceover_loop_buffers timer (rest : list QuizSlide) i :
  forall i0 nt acc a,
  let a' := snd (voiceover_loop timer false i0 rest nt acc a) in
  questionBuffersRef a' !! i
  = refreshed (if decide (i0 <= i)%nat
               then decoded_at questionAudio rest (i - i0) else None)
      (questionBuffersRef a !! i)
  /\ answerBuffersRef a' !! i
     = refreshed (if decide (i0 <= i)%nat
                  then decoded_at answerAudio rest (i - i0) else None)
         (answerBuffersRef a !! i).
Proof.
  induction rest as [|s rest IH]; intros i0 nt acc a; cbn [voiceover_loop].
  { cbn [snd]. unfold decoded_at. destruct (decide _); split; reflexivity. }
  destruct (voiceover_body timer i0 s nt acc a) as [[nt' acc'] a2] eqn:Eb.
  assert (questionBuffersRef a2 !! i
          = (if decide (i = i0)
             then refreshed (decodeVoice (questionAudio s))
                    (questionBuffersRef a !! i)
             else questionBuffersRef a !! i)
          /\ answerBuffersRef a2 !! i
             = (if decide (i = i0)
                then refreshed (decodeVoice (answerAudio s))
                       (answerBuffersRef a !! i)
                else answerBuffersRef a !! i)) as [Hq Ha].
  { unfold voiceover_body in Eb. injection Eb as _ _ <-.
    destruct (decide (i = i0)) as [->|Hne];
      destruct (decodeVoice (questionAudio s)),
               (decodeVoice (answerAudio s)); cbn;
      rewrite ?lookup_insert_eq, ?lookup_insert_ne by congruence;
      split; reflexivity. }
  specialize (IH (S i0) nt' acc' a2). cbv zeta in IH.
  destruct IH as [IHq IHa]. cbv zeta. rewrite IHq, IHa, Hq, Ha.
  unfold decoded_at.
  destruct (decide (i = i0)) as [->|Hne].
  - destruct (decide (S i0 <= i0)%nat); [lia|].
    destruct (decide (i0 <= i0)%nat); [|lia].
    rewrite Nat.sub_diag. split; reflexivity.
  - destruct (decide (S i0 <= i)%nat), (decide (i0 <= i)%nat); try lia.
    + replace (i - i0)%nat with (S (i - S i0)) by lia. split; reflexivity.
    + split; reflexivity.
Qed.

(** X21. After an uncancelled pass over the voiceovers, the question
    and answer buffer maps hold at each index the buffer decoded for the
    slide of that index; where there is no such slide, or its narration
    is absent or does not decode, the entry is what the map held before
    the pass: entries of an earlier set of slides are not removed. *)
Theorem narration_buffers_after_preload p a i :
  let a' := stage_voice p false a in
  questionBuffersRef a' !! i
  = refreshed (decoded_at questionAudio (slides p) i)
      (questionBuffersRef a !! i)
  /\ answerBuffersRef a' !! i
     = refreshed (decoded_at answerAudio (slides p) i)
         (answerBuffersRef a !! i).
Proof.
  cbv zeta. unfold stage_voice.
  pose proof (voiceover_loop_buffers (timerDuration p) (slides p) i 0%nat
                [] 0 a) as H.
  cbv zeta in H. rewrite decide_True, Nat.sub_0_r in H by lia.
  destruct (voiceover_loop _ _ _ _ _ _ _) as [[[nt acc]|] a'];
    cbn [snd] in H; exact H.
Qed.

(** A buffer decoded for an earlier set of slides outlives a preload
    for slides without narration. *)
Example stale_narration_buffer_kept :
  let silent := mkProps [mkQuizSlide "new" [] 0 None "new" None None None]
                  None None 3 (3 # 5) true Cinematic in
  questionBuffersRef (stage_voice silent false demo_assets) !! 0%nat
  = questionBuffersRef demo_assets !! 0%nat
  /\ is_Some (questionBuffersRef demo_assets !! 0%nat).
Proof. vm_compute. split; [reflexivity|eexists; reflexivity]. Qed.

(** ** The slide under the playhead *)

(** The search finds nothing when every entry has ended. *)
Lemma findActive_past time (l : list SlideTiming) : forall k,
  Forall (fun t => end_ t <= time) l -> findActive k l time = None.
Proof.
  induction l as [|t l IH]; intros k H; [reflexivity|].
  apply Forall_cons in H as [Ht Hl]. cbn [findActive].
  assert (JS.ltb time (end_ t) = false) as -> by (now apply ltb_ge).
  rewrite andb_false_r. now apply IH.
Qed.

(** Where no entry starts after the one before it has ended, the
    search finds a slide for every playhead from the first start up to
    the last end. *)
Lemma findActive_cover time (l : list SlideTiming) : forall k t0 tn,
  (forall i t t', l !! i = Some t -> l !! S i = Some t' ->
     start t' <= end_ t) ->
  l !! 0%nat = Some t0 -> last l = Some tn ->
  start t0 <= time -> time < end_ tn ->
  is_Some (findActive k l time).
Proof.
  induction l as [|t l IH]; intros k t0 tn Hgap H0 Hlast Hs He;
    [discriminate|].
  cbn in H0. injection H0 as ->. cbn [findActive].
  apply geb_le in Hs. rewrite Hs. cbn [andb].
  destruct (JS.ltb time (end_ t0)) eqn:E; [now eexists|].
  apply ltb_ge in E. destruct l as [|t1 l].
  - cbn in Hlast. injection Hlast as ->.
    exfalso. apply (Qlt_not_le _ _ He E).
  - apply (IH (S k) t1 tn).
    + intros i t t' Hi Hi'. apply (Hgap (S i) t t'); assumption.
    + reflexivity.
    + exact Hlast.
    + apply Qle_trans with (end_ t0); [|exact E].
      apply (Hgap 0%nat t0 t1); reflexivity.
    + exact He.
Qed.

(** X22. In a timeline in which no entry starts after the one before
    it has ended, the slide search finds a slide for every playhead
    from the start of the first entry up to, but not including, the end
    of the last; the slide it finds is an entry of the timeline that
    contains the playhead. *)
Theorem findActive_coverage (ts : list SlideTiming) (time : Q)
  (t0 tn : SlideTiming) :
  (forall i t t', ts !! i = Some t -> ts !! S i = Some t' ->
     start t' <= end_ t) ->
  ts !! 0%nat = Some t0 -> last ts = Some tn ->
  start t0 <= time -> time < end_ tn ->
  exists i t,
    findActive 0 ts time = Some (i, t)
    /\ ts !! i = Some t /\ start t <= time /\ time < end_ t.
Proof.
  intros Hgap H0 Hlast Hs He.
  destruct (findActive_cover time ts 0 t0 tn Hgap H0 Hlast Hs He)
    as [[i t] E].
  exists i, t. split; [exact E|].
  destruct (findActive_lookup _ _ _ _ _ E) as (_ & Hl & H1 & H2).
  rewrite Nat.sub_0_r in Hl. repeat split; assumption.
Qed.

Lemma findActive_coverage_witness :
  exists i t,
    findActive 0
      [ mkSlideTiming 0 1000 1500 4500 2000 7500;
        mkSlideTiming 7499 1000 8999 11999 2000 14999 ] 7499
    = Some (i, t)
    /\ [ mkSlideTiming 0 1000 1500 4500 2000 7500;
         mkSlideTiming 7499 1000 8999 11999 2000 14999 ] !! i = Some t
    /\ start t <= 7499 /\ 7499 < end_ t.
Proof.
  apply (findActive_coverage _ 7499
           (mkSlideTiming 0 1000 1500 4500 2000 7500)
           (mkSlideTiming 7499 1000 8999 11999 2000 14999)).
  - intros [|[|i]] t t' Ht Ht'; try discriminate.
    injection Ht as <-. injection Ht' as <-. vm_compute. discriminate.
  - reflexivity.
  - reflexivity.
  - vm_compute. discriminate.
  - vm_compute. reflexivity.
Defined.

(** X23. With at least one timing, a frame rendered at a playhead that
    is at or past the total duration and at or past the end of every
    entry is the cleared canvas with the finished screen and nothing
    else: no slide, no progress bar and no cue. *)
Theorem finished_frame p a playing time st :
  timings a <> [] ->
  Forall (fun t => end_ t <= time) (timings a) ->
  totalDuration a <= time ->
  renderFrame p a playing time st = emit DrawFinished (emit ClearCanvas st).
Proof.
  intros Hne Hends Hend. unfold renderFrame.
  rewrite (findActive_past time (timings a) 0 Hends).
  apply geb_le in Hend. rewrite Hend.
  destruct (timings a); [congruence|reflexivity].
Qed.

Lemma finished_frame_witness :
  renderFrame demo_props demo_assets true 20000 initial_player
  = emit DrawFinished (emit ClearCanvas initial_player).
Proof.
  apply finished_frame.
  - vm_compute. discriminate.
  - repeat constructor; vm_compute; discriminate.
  - vm_compute. discriminate.
Defined.

(** ** Cues when a slide is drawn again *)

Lemma playTickSound_marker p a ty st :
  lastTickTimeRef (playTickSound p a ty st) = lastTickTimeRef st.
Proof.
  unfold playTickSound, start_source, emit.
  destruct (audioGraph a), (negb (enableSfx p)), ty,
           (countdownSfxBufferRef a); reflexivity.
Qed.

Lemma playTickSound_cue p a ty st :
  count_cmds cue_call (log (playTickSound p a ty st))
  = S (count_cmds cue_call (log st)).
Proof.
  unfold playTickSound, start_source, emit.
  destruct (audioGraph a), (negb (enableSfx p)), ty,
           (countdownSfxBufferRef a); cbn;
    rewrite ?count_cmds_snoc; cbn; lia.
Qed.

(** X24. Drawing the same slide at the same local time twice in a row,
    at whatever opacities, calls no cue the second time and leaves the
    tick marker where the first drawing put it. *)
Theorem drawSlideState_cues_once p a playing i localTime alpha alpha' st :
  let st1 := drawSlideState p a playing i localTime alpha st in
  let st2 := drawSlideState p a playing i localTime alpha' st1 in
  count_cmds cue_call (log st2) = count_cmds cue_call (log st1)
  /\ lastTickTimeRef st2 = lastTickTimeRef st1.
Proof.
  cbv zeta. unfold drawSlideState.
  destruct (slides p !! i) as [slide|], (timings a !! i) as [timing|];
    try (split; reflexivity).
  cbv zeta.
  set (th := JS.geb localTime (thinkingStart timing - start timing)).
  set (timeLeft := Z.max 0 (JS.Math_ceil _)).
  set (within := JS.leb (inject_Z timeLeft) (timerDuration p)).
  unfold JS.ltb, JS.geb in *.
  set (rv := Qle_bool (revealStart timing - start timing) localTime).
  clearbody th within rv timeLeft.
  assert (forall c s, lastTickTimeRef (emit c s) = lastTickTimeRef s)
    as Hemit by reflexivity.
  assert (forall c s, cue_call c = false ->
            count_cmds cue_call (log (emit c s)) = count_cmds cue_call (log s))
    as Hcount.
  { intros c s Hc. unfold emit. cbn [log set_log].
    rewrite count_cmds_snoc, Hc. lia. }
  destruct playing, th, rv, within, (0 <? timeLeft)%Z;
    cbn [andb negb];
    repeat first
      [ progress cbn [andb negb lastTickTimeRef set_lastTickTimeRef log]
      | rewrite Hemit
      | rewrite playTickSound_marker
      | rewrite Hcount by reflexivity
      | match goal with
        | |- context [(?x =? ?y)%Z] =>
            lazymatch x with
            | context [if _ then _ else _] => fail
            | _ => lazymatch y with
                   | context [if _ then _ else _] => fail
                   | _ => destruct (Z.eqb_spec x y)
                   end
            end
        end ];
    try (split; [reflexivity|reflexivity]); try congruence; try lia.
Qed.

(** ** Starting an export *)

Lemma togglePlay_fields a playing time now st :
  let st' := togglePlay a playing time now st in
  isPlaying st' = negb playing
  /\ currentTime st' = currentTime st
  /\ isRecording st' = isRecording st
  /\ pendingTimeouts st' = pendingTimeouts st.
Proof.
  cbv zeta. unfold togglePlay. destruct playing; cbn [negb]; cbv zeta.
  - destruct (stops_backstage (set_isPlaying false st))
      as (E1 & E2 & E3 & _ & _ & _ & _ & E8 & _).
    cbv zeta in E1, E2, E3, E8. repeat split; assumption.
  - unfold startBgMusic, start_source.
    destruct (audioGraph a), (bgMusicBufferRef a); try easy.
    cbn. now destruct (bgMusicNodeRef st).
Qed.

Lemma reset_fields p a playing st :
  let st' := reset p a playing st in
  isPlaying st' = false
  /\ currentTime st' = 0
  /\ isRecording st' = isRecording st
  /\ pendingTimeouts st' = pendingTimeouts st.
Proof.
  cbv zeta. unfold reset. cbv zeta.
  set (st1 := set_lastTickTimeRef (-1)%Z _).
  destruct (stops_backstage st1) as (E1 & E2 & E3 & _ & _ & _ & _ & E8 & _).
  cbv zeta in E1, E2, E3, E8.
  set (st3 := match voiceNodeRef _ with Some n => _ | None => _ end) in *.
  destruct (backstage_renderFrame p a playing 0 st3 st3 (backstage_refl st3))
    as (B1 & B2 & B3 & _ & _ & _ & _ & B8 & _).
  rewrite B1, B2, B3, B8. repeat split; assumption.
Qed.

(** X25. The playback that an export schedules is a toggle with the
    playing flag the player had when the export button was clicked: once
    the scheduled call has run the player is recording with its
    playhead at 0, and it is playing exactly when it was not playing at
    the click. An export started on a playing player records a paused
    one. *)
Theorem export_start_toggles p a now st :
  audioGraph a <> None -> pendingTimeouts st = [] ->
  let st' := player_run p a [ClickStartRecording; TimeoutFires now] st in
  isRecording st' = true
  /\ currentTime st' = 0
  /\ isPlaying st' = negb (isPlaying st)
  /\ pendingTimeouts st' = [].
Proof.
  intros Hg Hpend. cbn [player_run player_step].
  unfold startRecording. destruct (audioGraph a); [|congruence].
  cbv zeta.
  set (st1 := set_isRecording true _).
  destruct (reset_fields p a (isPlaying st) st1) as (R1 & R2 & R3 & R4).
  cbv zeta in R1, R2, R3, R4.
  set (st2 := reset p a (isPlaying st) st1) in *.
  cbn [pendingTimeouts set_pendingTimeouts]. rewrite R4.
  change (pendingTimeouts st1) with (pendingTimeouts st). rewrite Hpend.
  cbn [app].
  match goal with
  | |- context [togglePlay a ?pl ?tm now ?s] =>
      destruct (togglePlay_fields a pl tm now s) as (T1 & T2 & T3 & T4)
  end.
  cbv zeta in T1, T2, T3, T4. rewrite T1, T2, T3, T4.
  repeat split; try assumption; try reflexivity.
Qed.

Lemma export_start_toggles_witness :
  isPlaying (player_run demo_props demo_assets
               [ClickStartRecording; TimeoutFires 200] demo_started)
  = negb (isPlaying demo_started).
Proof.
  destruct (export_start_toggles demo_props demo_assets 200 demo_started)
    as (_ & _ & H & _).
  - vm_compute. discriminate.
  - vm_compute. reflexivity.
  - exact H.
Defined.

(** ** Inside the layout painters *)

Lemma Math_min_Qmin a b : JS.Math_min a b == Qmin a b.
Proof.
  unfold JS.Math_min. destruct (Qle_bool a b) eqn:E.
  - apply Qle_bool_iff in E. symmetry. now apply Q.min_l.
  - symmetry. apply Q.min_r.
    apply Qlt_le_weak, Qnot_le_lt. intros H.
    apply Qle_bool_iff in H. congruence.
Qed.

Lemma gtb_lt a b : JS.gtb a b = true <-> b < a.
Proof. unfold JS.gtb. apply (ltb_lt b a). Qed.

Lemma gtb_le a b : JS.gtb a b = false <-> a <= b.
Proof. unfold JS.gtb. apply (ltb_ge b a). Qed.

(** X26. In the cinematic layout the countdown number gives way to the
    check mark over the 500 ms that follow the reveal: up to the reveal
    only the number is painted, at the opacity of the slide and with
    the timer at height 692; from 500 ms after it only the check mark
    is, at the opacity of the slide and with the timer at height 450;
    in between both are painted, at opacities that add up to that of
    the slide. *)
Theorem cinematic_reveal_crossfade p localTime alpha timing :
  let ct := cinematicTimer p localTime timing in
  let r := localTime - (revealStart timing - start timing) in
  (r <= 0 ->
   opt_Qeq (cinematic_number_alpha alpha ct) (Some alpha)
   /\ cinematic_check_alpha alpha ct = None
   /\ cinematic_timerY ct == 692)
  /\ (0 < r -> r < 500 ->
      opt_Qeq (cinematic_number_alpha alpha ct) (Some (alpha * (1 - r / 500)))
      /\ opt_Qeq (cinematic_check_alpha alpha ct) (Some (alpha * (r / 500)))
      /\ alpha * (1 - r / 500) + alpha * (r / 500) == alpha)
  /\ (500 <= r ->
      cinematic_number_alpha alpha ct = None
      /\ opt_Qeq (cinematic_check_alpha alpha ct) (Some alpha)
      /\ cinematic_timerY ct == 450).
Proof.
  intros ct r.
  assert (ct_revealProgress ct
          == if JS.geb localTime (revealStart timing - start timing)
             then Qmin 1 (r / 500) else 0) as Hrp.
  { subst ct. unfold cinematicTimer.
    destruct (JS.geb localTime (revealStart timing - start timing)) eqn:Er.
    - assert (JS.ltb localTime (revealStart timing - start timing) = false)
        as -> by (unfold JS.ltb, JS.geb in *; now rewrite Er).
      rewrite andb_false_r. cbn. apply Math_min_Qmin.
    - destruct (_ && _); reflexivity. }
  assert (0 <= r ->
          JS.geb localTime (revealStart timing - start timing) = true)
    as Hrev.
  { intros H. apply geb_le. subst r. lra. }
  assert (r < 0 ->
          JS.geb localTime (revealStart timing - start timing) = false)
    as Hnot.
  { intros H. apply geb_false. subst r. lra. }
  unfold cinematic_number_alpha, cinematic_check_alpha, cinematic_timerY.
  split; [|split].
  - intros Hr.
    assert (ct_revealProgress ct == 0) as E.
    { rewrite Hrp. destruct (Qlt_le_dec r 0) as [Hneg|Hpos].
      - now rewrite (Hnot Hneg).
      - rewrite (Hrev Hpos). transitivity (r / 500).
        + apply Q.min_r. unfold Qdiv; change (/ 500) with (1 # 500); lra.
        + unfold Qdiv; change (/ 500) with (1 # 500); lra. }
    assert (JS.ltb (ct_revealProgress ct) 1 = true) as ->
      by (apply ltb_lt; lra).
    assert (JS.gtb (ct_revealProgress ct) 0 = false) as ->
      by (apply gtb_le; lra).
    cbn [opt_Qeq]. rewrite E. split; [ring|]. split; [reflexivity|ring].
  - intros Hr0 Hr5.
    assert (ct_revealProgress ct == r / 500) as E.
    { rewrite Hrp. rewrite Hrev by lra.
      apply Q.min_r. unfold Qdiv; change (/ 500) with (1 # 500); lra. }
    assert (JS.ltb (ct_revealProgress ct) 1 = true) as ->
      by (apply ltb_lt; rewrite E; unfold Qdiv; change (/ 500) with (1 # 500); lra).
    assert (JS.gtb (ct_revealProgress ct) 0 = true) as ->
      by (apply gtb_lt; rewrite E; unfold Qdiv; change (/ 500) with (1 # 500); lra).
    cbn [opt_Qeq]. rewrite E. split; [reflexivity|]. split; [reflexivity|ring].
  - intros Hr5.
    assert (ct_revealProgress ct == 1) as E.
    { rewrite Hrp. rewrite Hrev by lra.
      apply Q.min_l. unfold Qdiv; change (/ 500) with (1 # 500); lra. }
    assert (JS.ltb (ct_revealProgress ct) 1 = false) as ->
      by (apply ltb_ge; lra).
    assert (JS.gtb (ct_revealProgress ct) 0 = true) as ->
      by (apply gtb_lt; lra).
    cbn [opt_Qeq]. rewrite E. split; [reflexivity|]. split; ring.
Qed.

Lemma broadcast_option_text_cases localTime alpha timing idx :
  let own := localTime
             - (questionAudioDuration timing
                + inject_Z (Z.of_nat idx) * 1000) in
  broadcast_option_text localTime alpha timing idx
  = if JS.geb localTime (revealStart timing - start timing)
    then Some (alpha * 1)
    else if JS.geb own 0
         then Some (alpha * JS.Math_min 1 (own / 300))
         else None.
Proof.
  cbv zeta. unfold broadcast_option_text. cbv zeta.
  destruct (JS.geb _ 0), (JS.geb localTime _); reflexivity.
Qed.

(** X27. In the broadcast layout the options appear in turn: before the
    reveal, option [idx] is not painted until [idx] seconds after the
    question narration time, and whenever the text of an option is
    painted, that of the option before it is painted at the full
    opacity of the slide. *)
Theorem broadcast_options_in_turn localTime alpha timing idx :
  (localTime < revealStart timing - start timing ->
   localTime < questionAudioDuration timing + inject_Z (Z.of_nat idx) * 1000 ->
   broadcast_option_text localTime alpha timing idx = None)
  /\ (is_Some (broadcast_option_text localTime alpha timing (S idx)) ->
      opt_Qeq (broadcast_option_text localTime alpha timing idx)
        (Some alpha)).
Proof.
  rewrite !broadcast_option_text_cases. cbv zeta. split.
  - intros Hrev Hown.
    assert (JS.geb localTime (revealStart timing - start timing) = false)
      as -> by (now apply geb_false).
    assert (JS.geb (localTime
                    - (questionAudioDuration timing
                       + inject_Z (Z.of_nat idx) * 1000)) 0 = false) as ->
      by (apply geb_false; lra).
    reflexivity.
  - destruct (JS.geb localTime (revealStart timing - start timing));
      [intros _; cbn; ring|].
    assert (inject_Z (Z.of_nat (S idx)) == inject_Z (Z.of_nat idx) + 1) as E.
    { rewrite Nat2Z.inj_succ. unfold Z.succ. rewrite inject_Z_plus.
      reflexivity. }
    destruct (JS.geb (localTime
                      - (questionAudioDuration timing
                         + inject_Z (Z.of_nat (S idx)) * 1000)) 0) eqn:Enext;
      [intros _|intros [x Hx]; discriminate].
    apply geb_le in Enext. rewrite E in Enext.
    set (own := localTime
                - (questionAudioDuration timing
                   + inject_Z (Z.of_nat idx) * 1000)) in *.
    assert (1000 <= own) as Hown by (subst own; lra).
    assert (JS.geb own 0 = true) as -> by (apply geb_le; lra).
    cbn [opt_Qeq]. rewrite Math_min_Qmin.
    assert (Qmin 1 (own / 300) == 1) as ->; [|ring].
    apply Q.min_l. unfold Qdiv. change (/ 300) with (1 # 300). lra.
Qed.



(** ** Where the music resumes *)

Lemma trunc_floor x : 0 <= x -> JS.trunc x = Qfloor x.
Proof.
  intros H. destruct x as [n d]. unfold JS.trunc, Qfloor. cbn [Qnum Qden].
  apply Z.quot_div_nonneg; [|lia].
  unfold Qle in H. cbn in H. lia.
Qed.

Lemma rem_range x d :
  0 <= x -> 0 < d ->
  0 <= JS.rem x d /\ JS.rem x d < d
  /\ x == JS.rem x d + d * inject_Z (JS.trunc (x / d)).
Proof.
  intros Hx Hd. unfold JS.rem.
  assert (~ d == 0) as Hne by lra.
  assert (0 <= x / d) as Hq.
  { unfold Qdiv. apply Qmult_le_0_compat; [exact Hx|].
    apply Qlt_le_weak, Qinv_lt_0_compat, Hd. }
  rewrite (trunc_floor _ Hq).
  pose proof (Qfloor_le (x / d)) as Hlo.
  pose proof (Qlt_floor (x / d)) as Hhi.
  rewrite inject_Z_plus in Hhi.
  set (k := inject_Z (Qfloor (x / d))) in *.
  assert (d * (x / d) == x) as E by (now apply Qmult_div_r).
  assert (d * k <= d * (x / d)) as H1.
  { rewrite !(Qmult_comm d). apply Qmult_le_compat_r; lra. }
  assert (d * (x / d) < d * (k + inject_Z 1)) as H2.
  { rewrite !(Qmult_comm d). apply Qmult_lt_compat_r; lra. }
  rewrite E in H1, H2.
  assert (d * (k + inject_Z 1) == d * k + d) as E2 by (cbn; ring).
  rewrite E2 in H2.
  repeat split; [lra|lra|ring].
Qed.

(** X29. When the music starts for a playhead offset that is not
    negative, with a music buffer of positive length, the loop is
    started at an offset from 0 up to, but not including, the length of
    the buffer, which differs from the requested offset by a whole
    number of buffer lengths. *)
Theorem music_offset_in_buffer a off st buffer :
  audioGraph a <> None -> bgMusicBufferRef a = Some buffer ->
  0 <= off -> 0 < duration buffer ->
  exists o,
    last (log (startBgMusic a off st))
    = Some (SourceStart (length (sources st)) MusicSource o)
    /\ 0 <= o /\ o < duration buffer
    /\ exists k : Z, off == o + duration buffer * inject_Z k.
Proof.
  intros Hg Hb Hoff Hd. exists (JS.rem off (duration buffer)).
  destruct (rem_range off (duration buffer) Hoff Hd) as (H1 & H2 & H3).
  split; [|split; [exact H1|split; [exact H2|eexists; exact H3]]].
  unfold startBgMusic. destruct (audioGraph a); [|congruence]. rewrite Hb.
  unfold start_source, stop_source, emit.
  destruct (bgMusicNodeRef st); cbn; rewrite last_snoc, ?length_alter;
    reflexivity.
Qed.

Lemma music_offset_in_buffer_witness :
  exists o,
    last (log (startBgMusic
                 (set_bgMusicBufferRef (Some music_B) demo_assets) 1
                 initial_player))
    = Some (SourceStart 0 MusicSource o)
    /\ 0 <= o /\ o < duration music_B
    /\ exists k : Z, 1 == o + duration music_B * inject_Z k.
Proof.
  apply (music_offset_in_buffer
           (set_bgMusicBufferRef (Some music_B) demo_assets) 1
           initial_player music_B).
  - vm_compute. discriminate.
  - reflexivity.
  - vm_compute. discriminate.
  - vm_compute. reflexivity.
Defined.

(** ** The total duration as a sum *)



(** ** Further witnesses on the demo *)

Lemma music_only_while_playing_witness :
  let st := player_run demo_props
              (set_bgMusicBufferRef (Some music_B) demo_assets)
              [ClickTogglePlay 0; Animate 100; ClickTogglePlay 200]
              initial_player in
  isPlaying st = false /\ forall n, ~ sounding_music st n.
Proof.
  destruct (music_only_while_playing demo_props
              (set_bgMusicBufferRef (Some music_B) demo_assets)
              [ClickTogglePlay 0; Animate 100; ClickTogglePlay 200])
    as (_ & _ & H).
  split; [vm_compute; reflexivity|].
  apply H. vm_compute. reflexivity.
Defined.

Lemma preload_ready_witness :
  isReady (snd (preload_run demo_props []
                  (fst (prepareAssets demo_props 0 initial_assets))
                  (snd (prepareAssets demo_props 0 initial_assets)))) = true.
Proof.
  destruct (preload_ready demo_props 0 initial_assets []) as (_ & H).
  apply H; vm_compute; reflexivity.
Defined.

Lemma preload_progress_witness :
  exists ev,
    awaited ev
      (fst (preload_run (music_props "music.mp3")
              [ArrayBufferSettled (Some []); Cleanup]
              (fst (prepareAssets (music_props "music.mp3") 0 initial_assets))
              (snd (prepareAssets (music_props "music.mp3") 0
                      initial_assets))))
    = true.
Proof.
  destruct (preload_progress (music_props "music.mp3") 0 initial_assets
              [ArrayBufferSettled (Some []); Cleanup]) as (_ & H & _).
  apply H. vm_compute. discriminate.
Defined.

Lemma cinematic_reveal_crossfade_witness :
  opt_Qeq
    (cinematic_check_alpha 1 (cinematicTimer demo_props 3751 (demo_timing 0)))
    (Some (1 * ((3751 - (revealStart (demo_timing 0) - start (demo_timing 0)))
                / 500))).
Proof.
  destruct (cinematic_reveal_crossfade demo_props 3751 1 (demo_timing 0))
    as (_ & H & _).
  destruct H as (_ & H & _).
  - vm_compute. reflexivity.
  - vm_compute. reflexivity.
  - exact H.
Defined.

Lemma broadcast_options_in_turn_witness :
  opt_Qeq (broadcast_option_text 1500 (1 # 2) (demo_timing 0) 0)
    (Some (1 # 2)).
Proof.
  apply (proj2 (broadcast_options_in_turn 1500 (1 # 2) (demo_timing 0) 0)).
  vm_compute. eexists. reflexivity.
Defined.
